(** * Beam analysis tool: reactions, shear, moment and deflection of a
      simply supported beam (src/app.py)

    The script computes with Python floats and numpy float64 arrays.  It
    is embedded twice, operation by operation and in the order the script
    performs them:

    - in exact arithmetic, on rationals in canonical form ([Qc]): without
      rounding, overflow, infinities or nan.  This is the arithmetic the
      formulas of beam theory are written in, and what the script computes
      up to rounding;
    - in binary64 ([Module Binary64], on the primitive floats): the
      arithmetic the script runs in, rounding to nearest even, with signed
      zeros, infinities and nan.

    Python exceptions are kept as results of an error monad. *)

From Stdlib Require Import ZArith QArith Qcanon Qcabs List Bool Arith Lia Lqa.
From Stdlib Require Floats Uint63.
Import ListNotations.

Local Open Scope Qc_scope.

(** ** Exceptions and the error monad *)

Inductive exn : Type :=
| ZeroDivisionError     (* Python float division by 0.0 *)
| TypeError             (* arithmetic or comparison with None *)
| IndexError            (* index out of the bounds of an array *)
| ValueError.           (* numpy / scipy on an empty or mismatched array *)

Inductive outcome (A : Type) : Type :=
| Ok (a : A)
| Raise (e : exn).

Arguments Ok {A} a.
Arguments Raise {A} e.

Definition bind {A B : Type} (m : outcome A) (k : A -> outcome B) : outcome B :=
  match m with
  | Ok a => k a
  | Raise e => Raise e
  end.

Notation "x <- m ;; k" := (bind m (fun x => k))
  (at level 61, m at next level, right associativity).
Notation "' pat <- m ;; k" := (bind m (fun x => match x with pat => k end))
  (at level 61, pat pattern, m at next level, right associativity).

(** ** Scalars *)

Module Scalar.

Definition of_Z (z : Z) : Qc := Q2Qc (inject_Z z).
Definition of_nat (n : nat) : Qc := of_Z (Z.of_nat n).

Definition two : Qc := 1 + 1.
Definition thousand : Qc := of_Z 1000.
Definition giga : Qc := of_Z 1000000000.
Definition tenth : Qc := Q2Qc (1 # 10).
Definition nano : Qc := Q2Qc (1 # 1000000000).

Definition ltb (x y : Qc) : bool :=
  match x ?= y with Lt => true | _ => false end.

Definition eqb (x y : Qc) : bool :=
  match x ?= y with Eq => true | _ => false end.

Definition leb (x y : Qc) : bool := negb (ltb y x).

(** Python truth value of a float: everything but zero. *)
Definition truthy (x : Qc) : bool := negb (eqb x 0).

(** [n / d] on Python floats. *)
Definition pydiv (n d : Qc) : outcome Qc :=
  if eqb d 0 then Raise ZeroDivisionError else Ok (n / d).

End Scalar.

(** ** The numpy and scipy operations the script calls *)

Module Np.

Import Scalar.

(** [np.arange(0, num)] as floats. *)
Definition arange (num : nat) : list Qc := map of_nat (seq 0 num).

(** [y[-1] = v] *)
Definition set_last (y : list Qc) (v : Qc) : list Qc :=
  match y with
  | [] => []
  | _ :: _ => removelast y ++ [v]
  end.

(** [np.linspace(start, stop, num)] with [endpoint=True]:
    [arange(num) * step + start] with [step = (stop - start) / (num - 1)],
    and the last sample overwritten with [stop]. *)
Definition linspace (start stop : Qc) (num : nat) : list Qc :=
  let div := (num - 1)%nat in
  let delta := stop - start in
  let y := arange num in
  let y :=
    if (0 <? div)%nat then
      let step := delta / of_nat div in
      if eqb step 0
      then map (fun v => v / of_nat div * delta) y
      else map (fun v => v * step) y
    else map (fun v => v * delta) y in
  let y := map (fun v => v + start) y in
  if (1 <? num)%nat then set_last y stop else y.

(** Elementwise binary operation on arrays of the same shape. *)
Fixpoint map2 (f : Qc -> Qc -> Qc) (u v : list Qc) : list Qc :=
  match u, v with
  | a :: u', b :: v' => f a b :: map2 f u' v'
  | _, _ => []
  end.

(** [np.diff(x)]: [x[1:] - x[:-1]]. *)
Definition diff (x : list Qc) : list Qc := map2 Qcminus (tl x) x.

Fixpoint cumsum_from (acc : Qc) (l : list Qc) : list Qc :=
  match l with
  | [] => []
  | v :: l' => let s := acc + v in s :: cumsum_from s l'
  end.

(** [np.cumsum(l)] *)
Definition cumsum (l : list Qc) : list Qc :=
  match l with
  | [] => []
  | v :: l' => v :: cumsum_from v l'
  end.

(** [scipy.integrate.cumtrapz(y, x, initial=0.0)]:
    [d = diff(x)], [res = cumsum(d * (y[1:] + y[:-1]) / 2.0)], and
    [initial] put in front. *)
Definition cumtrapz (y x : list Qc) : outcome (list Qc) :=
  match y with
  | [] => Raise ValueError
  | _ :: _ =>
      if (length x =? length y)%nat then
        let d := diff x in
        let res := cumsum (map2 (fun di s => di * s / two) d (map2 Qcplus (tl y) y)) in
        Ok (0 :: res)
      else Raise ValueError
  end.

(** The area of the trapezoid between samples [i] and [i+1], as
    [cumtrapz] computes it. *)
Definition trapezoid (xs ys : list Qc) (i : nat) : Qc :=
  (nth (S i) xs 0 - nth i xs 0) * (nth (S i) ys 0 + nth i ys 0) / two.

(** [np.where(x < a, V, W)] *)
Fixpoint where_lt (x : list Qc) (a : Qc) (V W : list Qc) : list Qc :=
  match x, V, W with
  | xi :: x', v :: V', w :: W' =>
      (if ltb xi a then v else w) :: where_lt x' a V' W'
  | _, _, _ => []
  end.

Definition zeros_like (x : list Qc) : list Qc := map (fun _ => 0) x.

(** [y[-1]] *)
Definition last_item (y : list Qc) : outcome Qc :=
  match y with
  | [] => Raise IndexError
  | v :: y' => Ok (last y' v)
  end.

(** [x[i]] for a non-negative index *)
Definition getitem (x : list Qc) (i : nat) : outcome Qc :=
  match nth_error x i with
  | Some v => Ok v
  | None => Raise IndexError
  end.

Definition minimum (u v : Qc) : Qc := if ltb v u then v else u.
Definition maximum (u v : Qc) : Qc := if ltb u v then v else u.

(** [np.min(y)] and [np.max(y)] *)
Definition np_min (y : list Qc) : outcome Qc :=
  match y with
  | [] => Raise ValueError
  | v :: y' => Ok (fold_left minimum y' v)
  end.

Definition np_max (y : list Qc) : outcome Qc :=
  match y with
  | [] => Raise ValueError
  | v :: y' => Ok (fold_left maximum y' v)
  end.

(** [np.argmax(y)]: the index of the first occurrence of the maximum. *)
Fixpoint argmax_from (best : Qc) (ibest i : nat) (y : list Qc) : nat :=
  match y with
  | [] => ibest
  | v :: y' =>
      if ltb best v then argmax_from v i (S i) y'
      else argmax_from best ibest (S i) y'
  end.

Definition argmax (y : list Qc) : outcome nat :=
  match y with
  | [] => Raise ValueError
  | v :: y' => Ok (argmax_from v 0%nat 1%nat y')
  end.

(** [np.abs(y)] *)
Definition np_abs (y : list Qc) : list Qc := map Qcabs y.

End Np.

(** ** Data model *)

(** What the user enters in the sidebar (lines 19-44).  [second] is the
    state of the checkbox "Add second point load": [Some (P2_kn, a2)] when
    it is ticked. *)
Inductive Loading : Type :=
| PointLoadInput (P_kn a : Qc) (second : option (Qc * Qc))
| UDLInput (w_knm : Qc).

Record Sidebar : Type := {
  sb_L : Qc;
  sb_E_gpa : Qc;
  sb_I : Qc;
  sb_loading : Loading;
  sb_npts : nat
}.

(** The script's variables once the sidebar has run: [P], [a], [P2], [a2]
    (which is [None] when the checkbox is not ticked) or [w]. *)
Inductive LoadCase : Type :=
| PointLoad (P a P2 : Qc) (a2 : option Qc)
| UDL (w : Qc).

Record LoadConfiguration : Type := {
  L : Qc;
  E : Qc;
  I : Qc;
  load_case : LoadCase;
  npts : nat
}.

Record ForceProfile : Type := { V : list Qc; M : list Qc }.

Record Extremes : Type := {
  max_deflection : Qc;
  max_deflection_abs : Qc;
  imax : nat;
  x_imax : Qc
}.

Record Analysis : Type := {
  x : list Qc;
  R1 : Qc;
  R2 : Qc;
  profile : ForceProfile;
  y : list Qc;
  extremes : Extremes
}.

Import Scalar Np.

(** ** The sidebar (lines 19-44) *)

(** The widgets raise nothing.  Each returns the value the user has set,
    and the widget keeps that value within the bounds its call names, so a
    widget is described by the values it can return:
    [number_input min_value v] says that [st.number_input(min_value=...)]
    can return [v], [slider lo hi v] that
    [st.slider(min_value=lo, max_value=hi)] can. *)
Definition number_input (min_value v : Qc) : Prop := min_value <= v.

Definition slider (min_value max_value v : Qc) : Prop :=
  min_value <= v /\ v <= max_value.

Definition slider_int (min_value max_value v : nat) : Prop :=
  (min_value <= v /\ v <= max_value)%nat.

(** The states of the sidebar its widgets can deliver: each value within
    the bounds of its widget (the steps of the sliders are left out, so
    that the states of the script are among these). *)
Definition loads_delivered (L : Qc) (l : Loading) : Prop :=
  match l with
  | PointLoadInput P_kn a second =>
      number_input 0 P_kn /\ slider 0 L a /\
      match second with
      | Some (P2_kn, a2) => number_input 0 P2_kn /\ slider 0 L a2
      | None => True
      end
  | UDLInput w_knm => number_input 0 w_knm
  end.

Definition delivered (s : Sidebar) : Prop :=
  number_input tenth (sb_L s) /\
  number_input tenth (sb_E_gpa s) /\
  number_input nano (sb_I s) /\
  loads_delivered (sb_L s) (sb_loading s) /\
  slider_int 100 2000 (sb_npts s).

(** The assignments of the sidebar block: the units converted (kN to N,
    GPa to Pa), and [P2 = 0.0], [a2 = None] when the checkbox is not
    ticked.  There is no check among them and none of them can raise. *)
Definition build_loads (l : Loading) : LoadCase :=
  match l with
  | PointLoadInput P_kn a (Some (P2_kn, a2)) =>
      PointLoad (P_kn * thousand) a (P2_kn * thousand) (Some a2)
  | PointLoadInput P_kn a None => PointLoad (P_kn * thousand) a 0 None
  | UDLInput w_knm => UDL (w_knm * thousand)
  end.

Definition build (s : Sidebar) : outcome LoadConfiguration :=
  Ok {| L := sb_L s; E := sb_E_gpa s * giga; I := sb_I s;
        load_case := build_loads (sb_loading s); npts := sb_npts s |}.

(** ** Reactions (lines 61-68 and 84) *)

Definition is_some {A : Type} (o : option A) : bool :=
  match o with Some _ => true | None => false end.

(** The two formulas of the point-load case, each as the script writes it. *)
Definition reactions_moment_balance (L P a P2 : Qc) (a2 : option Qc) : outcome (Qc * Qc) :=
  let total_load := P + P2 in
  second <- (if truthy P2
             then match a2 with
                  | Some a2 => Ok (P2 * a2)
                  | None => Raise TypeError
                  end
             else Ok 0) ;;
  let moment_about_left := P * a + second in
  R2 <- pydiv moment_about_left L ;;
  let R1 := total_load - R2 in
  Ok (R1, R2).

Definition reactions_single (L P a : Qc) : outcome (Qc * Qc) :=
  R1 <- pydiv (P * (L - a)) L ;;
  let R2 := P - R1 in
  Ok (R1, R2).

(** [(P2 and a2 is not None) or (P2 == 0.0)] *)
Definition general_branch (P2 : Qc) (a2 : option Qc) : bool :=
  (truthy P2 && is_some a2) || eqb P2 0.

Definition solve_reactions (cfg : LoadConfiguration) : outcome (Qc * Qc) :=
  match load_case cfg with
  | PointLoad P a P2 a2 =>
      if general_branch P2 a2
      then reactions_moment_balance (L cfg) P a P2 a2
      else reactions_single (L cfg) P a
  | UDL w =>
      let R := w * L cfg / two in
      Ok (R, R)
  end.

(** ** Shear and moment (lines 55, 56, 70-80 and 85, 86) *)

Definition shear (cfg : LoadConfiguration) (R1 : Qc) (x : list Qc) : outcome (list Qc) :=
  match load_case cfg with
  | PointLoad P a P2 a2 =>
      let V := map (fun v => v + R1) (zeros_like x) in
      if truthy P2 then
        let V := where_lt x a V (map (fun v => v - P) V) in
        match a2 with
        | Some a2 => Ok (where_lt x a2 V (map (fun v => v - P2) V))
        | None => Raise TypeError
        end
      else Ok (where_lt x a V (map (fun v => v - P) V))
  | UDL w => Ok (map (fun xi => R1 - w * xi) x)
  end.

Definition build_profile (cfg : LoadConfiguration) (R1 : Qc) (x : list Qc)
  : outcome ForceProfile :=
  V <- shear cfg R1 x ;;
  M <- cumtrapz V x ;;
  Ok {| V := V; M := M |}.

(** ** Deflection (lines 93-101) *)

(** The divisions of this part are numpy divisions: they never raise.  By
    zero they give inf or nan, which the exact scalars do not have ([v / 0]
    is [0] here); the properties that depend on the value of a quotient
    assume a valid configuration, where [L] and [E * I] are not zero. *)

Definition solve_deflection (cfg : LoadConfiguration) (M x : list Qc)
  : outcome (list Qc) :=
  slope <- cumtrapz (map (fun m => m / (E cfg * I cfg)) M) x ;;
  y_unnormalized <- cumtrapz slope x ;;
  y_last <- last_item y_unnormalized ;;
  let C1 := - y_last / L cfg in
  Ok (map2 Qcplus y_unnormalized (map (fun xi => C1 * xi) x)).

(** ** Extrema (lines 104, 105, 116, 117) *)

Definition find_extremes (y x : list Qc) : outcome Extremes :=
  lowest <- np_min y ;;
  max_deflection <- (if ltb lowest 0 then np_min y else np_max y) ;;
  max_deflection_abs <- np_max (np_abs y) ;;
  imax <- argmax (np_abs y) ;;
  x_imax <- getitem x imax ;;
  Ok {| max_deflection := max_deflection;
        max_deflection_abs := max_deflection_abs;
        imax := imax;
        x_imax := x_imax |}.

(** ** The whole run (lines 50-117) *)

Definition analyze (cfg : LoadConfiguration) : outcome Analysis :=
  let x := linspace 0 (L cfg) (npts cfg) in
  '(R1, R2) <- solve_reactions cfg ;;
  prof <- build_profile cfg R1 x ;;
  y <- solve_deflection cfg (M prof) x ;;
  ex <- find_extremes y x ;;
  Ok {| x := x; R1 := R1; R2 := R2; profile := prof; y := y; extremes := ex |}.

(** ** Reference definitions used to state the properties *)

(** The script can only be run with [a2 = None] when [P2 = 0.0]; a
    load case in which every position the script reads is known. *)
Definition positions_known (lc : LoadCase) : Prop :=
  match lc with
  | PointLoad _ _ P2 None => P2 = 0
  | _ => True
  end.

(** A valid configuration in the words of the data model: positive length,
    modulus and inertia, at least two samples, non-negative magnitudes and
    positions on the span; a second load without a position has magnitude
    zero. *)
Definition loads_valid (L : Qc) (lc : LoadCase) : Prop :=
  match lc with
  | PointLoad P a P2 a2 =>
      0 <= P /\ (0 <= a /\ a <= L) /\ 0 <= P2 /\
      match a2 with
      | Some a2 => 0 <= a2 /\ a2 <= L
      | None => P2 = 0
      end
  | UDL w => 0 <= w
  end.

Definition valid (cfg : LoadConfiguration) : Prop :=
  0 < L cfg /\ 0 < E cfg /\ 0 < I cfg /\ (2 <= npts cfg)%nat /\
  loads_valid (L cfg) (load_case cfg).

(** The point loads of a load case, as (magnitude, position) pairs. *)
Definition point_loads (lc : LoadCase) : list (Qc * Qc) :=
  match lc with
  | PointLoad P a P2 a2 =>
      (P, a) :: match a2 with
                | Some a2 => (P2, a2) :: nil
                | None => nil
                end
  | UDL _ => nil
  end.

(** The sum of every point load whose position is [<= xi]. *)
Definition load_up_to (loads : list (Qc * Qc)) (xi : Qc) : Qc :=
  fold_right (fun pa acc => (if leb (snd pa) xi then fst pa else 0) + acc) 0 loads.

(** The sum of all load magnitudes of a list of point loads. *)
Definition total_magnitude (loads : list (Qc * Qc)) : Qc :=
  fold_right (fun pa acc => fst pa + acc) 0 loads.

(** The moment of a list of point loads about the left support. *)
Definition moment_about_left_support (loads : list (Qc * Qc)) : Qc :=
  fold_right (fun pa acc => fst pa * snd pa + acc) 0 loads.

(** [m] is the least (greatest) element of [l]. *)
Definition is_min_of (m : Qc) (l : list Qc) : Prop :=
  In m l /\ forall v, In v l -> m <= v.

Definition is_max_of (m : Qc) (l : list Qc) : Prop :=
  In m l /\ forall v, In v l -> v <= m.





(** ** The scenarios of the specification *)

(** Scenario A: L = 6 m, E = 200 GPa, I = 5e-5 m^4, one point load of
    10 kN at midspan, 500 samples. *)
Definition scenario_A_sidebar : Sidebar :=
  {| sb_L := of_Z 6; sb_E_gpa := of_Z 200; sb_I := Q2Qc (5 # 100000);
     sb_loading := PointLoadInput (of_Z 10) (of_Z 3) None; sb_npts := 500 |}.

Definition scenario_A : LoadConfiguration :=
  {| L := of_Z 6; E := of_Z 200 * giga; I := Q2Qc (5 # 100000);
     load_case := PointLoad (of_Z 10 * thousand) (of_Z 3) 0 None; npts := 500 |}.

(** Scenario B: the same beam under a distributed load of 5 kN/m. *)
Definition scenario_B : LoadConfiguration :=
  {| L := of_Z 6; E := of_Z 200 * giga; I := Q2Qc (5 # 100000);
     load_case := UDL (of_Z 5 * thousand); npts := 500 |}.

(** Scenario C: the point load directly over the left support. *)
Definition scenario_C : LoadConfiguration :=
  {| L := of_Z 6; E := of_Z 200 * giga; I := Q2Qc (5 # 100000);
     load_case := PointLoad (of_Z 10 * thousand) 0 0 None; npts := 500 |}.

(** Scenario D: two equal point loads placed symmetrically about midspan. *)
Definition scenario_D : LoadConfiguration :=
  {| L := of_Z 6; E := of_Z 200 * giga; I := Q2Qc (5 # 100000);
     load_case := PointLoad (of_Z 10 * thousand) (of_Z 2)
                            (of_Z 10 * thousand) (Some (of_Z 4));
     npts := 500 |}.

(** A beam of 3 m sampled at 0, 1, 2 and 3 m, with a load of 6 N on the
    sample at 2 m. *)
Definition four_samples : LoadConfiguration :=
  {| L := of_Z 3; E := of_Z 1; I := of_Z 1;
     load_case := PointLoad (of_Z 6) (of_Z 2) 0 None; npts := 4 |}.

(** The numerators and denominators of a sequence, to read a result. *)
Definition values (l : list Qc) : list Q := map this l.

(** Scenario A sampled at 189 points: sample 94 sits on the load. *)
Definition coarse_midspan : LoadConfiguration :=
  {| L := of_Z 6; E := of_Z 200 * giga; I := Q2Qc (5 # 100000);
     load_case := PointLoad (of_Z 10 * thousand) (of_Z 3) 0 None; npts := 189 |}.

(** The point load directly over the right support. *)
Definition right_support_scenario : LoadConfiguration :=
  {| L := of_Z 6; E := of_Z 200 * giga; I := Q2Qc (5 # 100000);
     load_case := PointLoad (of_Z 10 * thousand) (of_Z 6) 0 None; npts := 500 |}.

(** The beam of scenario A with the load taken off. *)
Definition unloaded_scenario : LoadConfiguration :=
  {| L := of_Z 6; E := of_Z 200 * giga; I := Q2Qc (5 # 100000);
     load_case := PointLoad 0 (of_Z 3) 0 None; npts := 500 |}.

(** No load carries a magnitude. *)
Definition unloaded (lc : LoadCase) : Prop :=
  match lc with
  | PointLoad P _ P2 _ => P = 0 /\ P2 = 0
  | UDL w => w = 0
  end.

(** A deflection sequence whose absolute maximum is attained twice. *)
Definition tied_deflection : list Qc := map of_Z (0 :: -3 :: 3 :: 0 :: nil)%Z.
Definition tied_positions : list Qc := map of_Z (0 :: 1 :: 2 :: 3 :: nil)%Z.

(** The sample positions of a configuration (line 50). *)
Definition positions (cfg : LoadConfiguration) : list Qc :=
  linspace 0 (L cfg) (npts cfg).

(** ** The numeric extremes of the profile (lines 119-122) *)

Record ProfileExtremes : Type := {
  M_max : Qc;
  M_min : Qc;
  V_max : Qc;
  V_min : Qc
}.

(** What the block under [if show_values] evaluates, in its order:
    [np.max(M)], [np.min(M)], [np.max(V)], [np.min(V)]. *)
Definition profile_extremes (prof : ForceProfile) : outcome ProfileExtremes :=
  M_max <- np_max (M prof) ;;
  M_min <- np_min (M prof) ;;
  V_max <- np_max (V prof) ;;
  V_min <- np_min (V prof) ;;
  Ok {| M_max := M_max; M_min := M_min; V_max := V_max; V_min := V_min |}.

(** ** Configurations derived from a configuration *)

(** The same beam under another load case. *)
Definition with_loads (cfg : LoadConfiguration) (lc : LoadCase) : LoadConfiguration :=
  {| L := L cfg; E := E cfg; I := I cfg; load_case := lc; npts := npts cfg |}.

(** The same beam and loads with another section. *)
Definition with_section (cfg : LoadConfiguration) (E' I' : Qc) : LoadConfiguration :=
  {| L := L cfg; E := E'; I := I'; load_case := load_case cfg; npts := npts cfg |}.

(** Every load position [a] moved to [L - a]. *)
Definition mirror_loads (len : Qc) (lc : LoadCase) : LoadCase :=
  match lc with
  | PointLoad P a P2 a2 =>
      PointLoad P (len - a) P2
                (match a2 with Some v => Some (len - v) | None => None end)
  | UDL w => UDL w
  end.

(** Every load magnitude multiplied by [k]. *)
Definition scale_loads (k : Qc) (lc : LoadCase) : LoadCase :=
  match lc with
  | PointLoad P a P2 a2 => PointLoad (k * P) a (k * P2) a2
  | UDL w => UDL (k * w)
  end.

(** The sum of the load magnitudes, the distributed load taken as w * L. *)
Definition total_load_of (cfg : LoadConfiguration) : Qc :=
  match load_case cfg with
  | PointLoad P _ P2 _ => P + P2
  | UDL w => w * L cfg
  end.

(** The load cases the script can run: a second load of non-zero magnitude
    has a position, and the point-load reactions divide by a non-zero L. *)
Definition runnable (cfg : LoadConfiguration) : Prop :=
  (1 <= npts cfg)%nat /\
  match load_case cfg with
  | PointLoad _ _ P2 a2 => L cfg <> 0 /\ (a2 = None -> P2 = 0)
  | UDL _ => True
  end.

(** The spacing of the samples. *)
Definition spacing (cfg : LoadConfiguration) : Qc :=
  L cfg / of_nat (npts cfg - 1).

(** * The script in binary64

    The same operations on the primitive binary64 floats: what the script
    computes, to the last bit.  The definitions follow those above one by
    one; only the arithmetic differs. *)

#[local] Set Warnings "-inexact-float".

Module Binary64.

Import PrimFloat.
Local Open Scope float_scope.

(** *** Scalars *)

(** [float(n)] of a Python int, and the entries of [np.arange]. *)
Definition of_nat (n : nat) : float := of_uint63 (Uint63.of_Z (Z.of_nat n)).

(** Python truth value of a float: everything but zero (nan is true). *)
Definition truthy (v : float) : bool := negb (v =? 0).

(** [n / d] on Python floats. *)
Definition pydiv (n d : float) : outcome float :=
  if d =? 0 then Raise ZeroDivisionError else Ok (n / d).

(** *** The numpy and scipy operations, as in [Np] *)

Definition arange (num : nat) : list float := map of_nat (seq 0 num).

Definition set_last (y : list float) (v : float) : list float :=
  match y with
  | [] => []
  | _ :: _ => removelast y ++ [v]
  end.

Definition linspace (start stop : float) (num : nat) : list float :=
  let div := (num - 1)%nat in
  let delta := stop - start in
  let y := arange num in
  let y :=
    if (0 <? div)%nat then
      let step := delta / of_nat div in
      if step =? 0
      then map (fun v => v / of_nat div * delta) y
      else map (fun v => v * step) y
    else map (fun v => v * delta) y in
  let y := map (fun v => v + start) y in
  if (1 <? num)%nat then set_last y stop else y.

Fixpoint map2 (f : float -> float -> float) (u v : list float) : list float :=
  match u, v with
  | a :: u', b :: v' => f a b :: map2 f u' v'
  | _, _ => []
  end.

Definition diff (x : list float) : list float := map2 sub (tl x) x.

Fixpoint cumsum_from (acc : float) (l : list float) : list float :=
  match l with
  | [] => []
  | v :: l' => let s := acc + v in s :: cumsum_from s l'
  end.

Definition cumsum (l : list float) : list float :=
  match l with
  | [] => []
  | v :: l' => v :: cumsum_from v l'
  end.

(** [cumsum(d * (y[1:] + y[:-1]) / 2.0)] with [initial] in front: every
    product, sum and quotient rounded. *)
Definition cumtrapz (y x : list float) : outcome (list float) :=
  match y with
  | [] => Raise ValueError
  | _ :: _ =>
      if (length x =? length y)%nat then
        let d := diff x in
        let res := cumsum (map2 (fun di s => di * s / 2) d (map2 add (tl y) y)) in
        Ok (0 :: res)
      else Raise ValueError
  end.

Fixpoint where_lt (x : list float) (a : float) (V W : list float) : list float :=
  match x, V, W with
  | xi :: x', v :: V', w :: W' =>
      (if xi <? a then v else w) :: where_lt x' a V' W'
  | _, _, _ => []
  end.

Definition zeros_like (x : list float) : list float := map (fun _ => 0) x.

Definition last_item (y : list float) : outcome float :=
  match y with
  | [] => Raise IndexError
  | v :: y' => Ok (last y' v)
  end.

Definition getitem (x : list float) (i : nat) : outcome float :=
  match nth_error x i with
  | Some v => Ok v
  | None => Raise IndexError
  end.

(** The reductions of [np.min] and [np.max] keep the running value when it
    compares as the extreme or is nan. *)
Definition minimum (u v : float) : float := if (u <=? v) || is_nan u then u else v.
Definition maximum (u v : float) : float := if (v <=? u) || is_nan u then u else v.

Definition np_min (y : list float) : outcome float :=
  match y with
  | [] => Raise ValueError
  | v :: y' => Ok (fold_left minimum y' v)
  end.

Definition np_max (y : list float) : outcome float :=
  match y with
  | [] => Raise ValueError
  | v :: y' => Ok (fold_left maximum y' v)
  end.

(** [np.argmax]: the first index of the maximum; a nan counts as the
    maximum and ends the scan. *)
Fixpoint argmax_from (best : float) (ibest i : nat) (y : list float) : nat :=
  match y with
  | [] => ibest
  | v :: y' =>
      if v <=? best then argmax_from best ibest (S i) y'
      else if is_nan v then i
      else argmax_from v i (S i) y'
  end.

Definition argmax (y : list float) : outcome nat :=
  match y with
  | [] => Raise ValueError
  | v :: y' => Ok (if is_nan v then 0%nat else argmax_from v 0%nat 1%nat y')
  end.

Definition np_abs (y : list float) : list float := map abs y.

(** *** Data model *)

Inductive Loading : Type :=
| PointLoadInput (P_kn a : float) (second : option (float * float))
| UDLInput (w_knm : float).

Record Sidebar : Type := {
  sb_L : float;
  sb_E_gpa : float;
  sb_I : float;
  sb_loading : Loading;
  sb_npts : nat
}.

Inductive LoadCase : Type :=
| PointLoad (P a P2 : float) (a2 : option float)
| UDL (w : float).

Record LoadConfiguration : Type := {
  L : float;
  E : float;
  I : float;
  load_case : LoadCase;
  npts : nat
}.

Record ForceProfile : Type := { V : list float; M : list float }.

Record Extremes : Type := {
  max_deflection : float;
  max_deflection_abs : float;
  imax : nat;
  x_imax : float
}.

Record Analysis : Type := {
  x : list float;
  R1 : float;
  R2 : float;
  profile : ForceProfile;
  y : list float;
  extremes : Extremes
}.

(** *** The sidebar (lines 19-44) *)

(** The values the widgets can return, by their bounds as above; a
    comparison with nan is false, so nan is not among them. *)
Definition number_input (min_value v : float) : bool := min_value <=? v.
Definition slider (min_value max_value v : float) : bool :=
  (min_value <=? v) && (v <=? max_value).
Definition slider_int (min_value max_value v : nat) : bool :=
  (min_value <=? v)%nat && (v <=? max_value)%nat.

Definition loads_delivered (len : float) (l : Loading) : bool :=
  match l with
  | PointLoadInput P_kn a second =>
      number_input 0 P_kn && slider 0 len a &&
      match second with
      | Some (P2_kn, a2) => number_input 0 P2_kn && slider 0 len a2
      | None => true
      end
  | UDLInput w_knm => number_input 0 w_knm
  end.

Definition delivered (s : Sidebar) : bool :=
  number_input 0.1 (sb_L s) && number_input 0.1 (sb_E_gpa s) &&
  number_input 1e-9 (sb_I s) && loads_delivered (sb_L s) (sb_loading s) &&
  slider_int 100 2000 (sb_npts s).

Definition build_loads (l : Loading) : LoadCase :=
  match l with
  | PointLoadInput P_kn a (Some (P2_kn, a2)) =>
      PointLoad (P_kn * 1000) a (P2_kn * 1000) (Some a2)
  | PointLoadInput P_kn a None => PointLoad (P_kn * 1000) a 0 None
  | UDLInput w_knm => UDL (w_knm * 1000)
  end.

Definition build (s : Sidebar) : outcome LoadConfiguration :=
  Ok {| L := sb_L s; E := sb_E_gpa s * 1e9; I := sb_I s;
        load_case := build_loads (sb_loading s); npts := sb_npts s |}.

(** *** Reactions, shear, moment, deflection and extrema (lines 50-117) *)

Definition reactions_moment_balance (L P a P2 : float) (a2 : option float)
  : outcome (float * float) :=
  let total_load := P + P2 in
  second <- (if truthy P2
             then match a2 with
                  | Some a2 => Ok (P2 * a2)
                  | None => Raise TypeError
                  end
             else Ok 0) ;;
  let moment_about_left := P * a + second in
  R2 <- pydiv moment_about_left L ;;
  let R1 := total_load - R2 in
  Ok (R1, R2).

Definition reactions_single (L P a : float) : outcome (float * float) :=
  R1 <- pydiv (P * (L - a)) L ;;
  let R2 := P - R1 in
  Ok (R1, R2).

Definition general_branch (P2 : float) (a2 : option float) : bool :=
  (truthy P2 && is_some a2) || (P2 =? 0).

Definition solve_reactions (cfg : LoadConfiguration) : outcome (float * float) :=
  match load_case cfg with
  | PointLoad P a P2 a2 =>
      if general_branch P2 a2
      then reactions_moment_balance (L cfg) P a P2 a2
      else reactions_single (L cfg) P a
  | UDL w =>
      let R := w * L cfg / 2 in
      Ok (R, R)
  end.

Definition shear (cfg : LoadConfiguration) (R1 : float) (x : list float)
  : outcome (list float) :=
  match load_case cfg with
  | PointLoad P a P2 a2 =>
      let V := map (fun v => v + R1) (zeros_like x) in
      if truthy P2 then
        let V := where_lt x a V (map (fun v => v - P) V) in
        match a2 with
        | Some a2 => Ok (where_lt x a2 V (map (fun v => v - P2) V))
        | None => Raise TypeError
        end
      else Ok (where_lt x a V (map (fun v => v - P) V))
  | UDL w => Ok (map (fun xi => R1 - w * xi) x)
  end.

Definition build_profile (cfg : LoadConfiguration) (R1 : float) (x : list float)
  : outcome ForceProfile :=
  V <- shear cfg R1 x ;;
  M <- cumtrapz V x ;;
  Ok {| V := V; M := M |}.

(** [C1 = -y_unnormalized[-1] / L], a numpy division: by zero it gives an
    infinity or nan and does not raise. *)
Definition correction (len : float) (y_unnormalized : list float) : outcome float :=
  y_last <- last_item y_unnormalized ;;
  Ok (- y_last / len).

Definition solve_deflection (cfg : LoadConfiguration) (M x : list float)
  : outcome (list float) :=
  slope <- cumtrapz (map (fun m => m / (E cfg * I cfg)) M) x ;;
  y_unnormalized <- cumtrapz slope x ;;
  C1 <- correction (L cfg) y_unnormalized ;;
  Ok (map2 add y_unnormalized (map (fun xi => C1 * xi) x)).

Definition find_extremes (y x : list float) : outcome Extremes :=
  lowest <- np_min y ;;
  max_deflection <- (if lowest <? 0 then np_min y else np_max y) ;;
  max_deflection_abs <- np_max (np_abs y) ;;
  imax <- argmax (np_abs y) ;;
  x_imax <- getitem x imax ;;
  Ok {| max_deflection := max_deflection;
        max_deflection_abs := max_deflection_abs;
        imax := imax;
        x_imax := x_imax |}.

Definition analyze (cfg : LoadConfiguration) : outcome Analysis :=
  let x := linspace 0 (L cfg) (npts cfg) in
  '(R1, R2) <- solve_reactions cfg ;;
  prof <- build_profile cfg R1 x ;;
  y <- solve_deflection cfg (M prof) x ;;
  ex <- find_extremes y x ;;
  Ok {| x := x; R1 := R1; R2 := R2; profile := prof; y := y; extremes := ex |}.

Record ProfileExtremes : Type := {
  M_max : float;
  M_min : float;
  V_max : float;
  V_min : float
}.

Definition profile_extremes (prof : ForceProfile) : outcome ProfileExtremes :=
  M_max <- np_max (M prof) ;;
  M_min <- np_min (M prof) ;;
  V_max <- np_max (V prof) ;;
  V_min <- np_min (V prof) ;;
  Ok {| M_max := M_max; M_min := M_min; V_max := V_max; V_min := V_min |}.

(** The script from the sidebar to the extrema. *)
Definition run (s : Sidebar) : outcome Analysis :=
  cfg <- build s ;;
  analyze cfg.

(** *** Reference definitions and sidebar states *)


(** Not negative: a zero of either sign, a positive number, the positive
    infinity or nan. *)
Definition not_negative (v : float) : Prop :=
  match FloatOps.Prim2SF v with
  | SpecFloat.S754_finite true _ _ | SpecFloat.S754_infinity true => False
  | _ => True
  end.

(** A positive number or the positive infinity. *)
Definition positive (v : float) : Prop :=
  match FloatOps.Prim2SF v with
  | SpecFloat.S754_finite false _ _ | SpecFloat.S754_infinity false => True
  | _ => False
  end.

(** The default section (E = 200 GPa, I = 5e-5 m^4) with a length, a
    loading and a sample count. *)
Definition beam (len : float) (l : Loading) (n : nat) : Sidebar :=
  {| sb_L := len; sb_E_gpa := 200; sb_I := 5e-5; sb_loading := l; sb_npts := n |}.

(** The default beam of 6 m under the default distributed load of 5 kN/m,
    sampled at 501 and at 122 points. *)
Definition udl_501 : Sidebar := beam 6 (UDLInput 5) 501.
Definition udl_122 : Sidebar := beam 6 (UDLInput 5) 122.

(** A beam of 6.1 m with 1 kN over its right support. *)
Definition right_support_61 : Sidebar := beam 6.1 (PointLoadInput 1 6.1 None) 500.

(** The default beam and load (10 kN at midspan) at the default 500
    samples and at 189 samples. *)
Definition midspan_500 : Sidebar := beam 6 (PointLoadInput 10 3 None) 500.
Definition midspan_189 : Sidebar := beam 6 (PointLoadInput 10 3 None) 189.


End Binary64.

(** * Properties *)

(** ** Scalars *)

Section ScalarFacts.

Lemma ltb_lt (u v : Qc) : ltb u v = true <-> u < v.
Proof.
  unfold ltb. rewrite Qclt_alt.
  destruct (u ?= v); split; congruence.
Qed.

Lemma ltb_ge (u v : Qc) : ltb u v = false <-> v <= u.
Proof.
  split; intro H.
  - apply Qcnot_lt_le. intro Hlt. apply ltb_lt in Hlt. congruence.
  - destruct (ltb u v) eqn:Hb; [| reflexivity].
    apply ltb_lt in Hb. exfalso. exact (Qcle_not_lt _ _ H Hb).
Qed.

Lemma eqb_eq (u v : Qc) : eqb u v = true <-> u = v.
Proof.
  unfold eqb. rewrite Qceq_alt.
  destruct (u ?= v); split; congruence.
Qed.

Lemma eqb_neq (u v : Qc) : eqb u v = false <-> u <> v.
Proof.
  split; intro H.
  - intro Heq. apply eqb_eq in Heq. congruence.
  - destruct (eqb u v) eqn:Hb; [| reflexivity].
    apply eqb_eq in Hb. contradiction.
Qed.

Lemma truthy_false (u : Qc) : truthy u = false <-> u = 0.
Proof.
  unfold truthy. rewrite negb_false_iff. apply eqb_eq.
Qed.

Lemma truthy_true (u : Qc) : truthy u = true <-> u <> 0.
Proof.
  unfold truthy. rewrite negb_true_iff. apply eqb_neq.
Qed.

Lemma two_neq_0 : two <> 0.
Proof. unfold two. intro H. discriminate H. Qed.

Lemma pos_neq_0 (u : Qc) : 0 < u -> u <> 0.
Proof. intros H Heq. subst u. discriminate H. Qed.

Lemma pydiv_ok (n d : Qc) : d <> 0 -> pydiv n d = Ok (n / d).
Proof.
  intro H. unfold pydiv. apply eqb_neq in H. rewrite H. reflexivity.
Qed.

Lemma of_nat_0 : of_nat 0 = 0.
Proof. reflexivity. Qed.

End ScalarFacts.

(** ** Arrays *)

Section ArrayFacts.

Lemma map2_length (f : Qc -> Qc -> Qc) (u v : list Qc) :
  length (map2 f u v) = Nat.min (length u) (length v).
Proof.
  revert v. induction u as [| a u IH]; intros [| b v]; simpl; auto.
Qed.

Lemma nth_map2 (f : Qc -> Qc -> Qc) (u v : list Qc) (i : nat) (d du dv : Qc) :
  (i < length u)%nat -> (i < length v)%nat ->
  nth i (map2 f u v) d = f (nth i u du) (nth i v dv).
Proof.
  revert v i. induction u as [| a u IH]; intros [| b v] [| i]; simpl; intros Hu Hv;
    try lia; auto.
  apply IH; lia.
Qed.

Lemma nth_tl (l : list Qc) (i : nat) (d : Qc) : nth i (tl l) d = nth (S i) l d.
Proof. destruct l; simpl; [destruct i |]; reflexivity. Qed.

Lemma tl_length (l : list Qc) : length (tl l) = (length l - 1)%nat.
Proof. destruct l; simpl; lia. Qed.

Lemma diff_length (xs : list Qc) : length (diff xs) = (length xs - 1)%nat.
Proof. unfold diff. rewrite map2_length, tl_length. lia. Qed.

Lemma nth_diff (xs : list Qc) (i : nat) :
  (S i < length xs)%nat -> nth i (diff xs) 0 = nth (S i) xs 0 - nth i xs 0.
Proof.
  intro H. unfold diff.
  rewrite (nth_map2 _ _ _ _ _ 0 0); [| rewrite tl_length; lia | lia].
  rewrite nth_tl. reflexivity.
Qed.

Lemma cumsum_from_length (acc : Qc) (l : list Qc) :
  length (cumsum_from acc l) = length l.
Proof. revert acc. induction l; intro acc; simpl; auto. Qed.

Lemma cumsum_length (l : list Qc) : length (cumsum l) = length l.
Proof. destruct l; simpl; [| rewrite cumsum_from_length]; reflexivity. Qed.

Lemma nth_cumsum_from_S (acc : Qc) (l : list Qc) (i : nat) :
  (S i < length l)%nat ->
  nth (S i) (cumsum_from acc l) 0 = nth i (cumsum_from acc l) 0 + nth (S i) l 0.
Proof.
  revert acc l. induction i as [| i IH]; intros acc l H.
  - destruct l as [| a [| b l]]; simpl in *; try lia. reflexivity.
  - destruct l as [| a l]; simpl in H; [lia |].
    change (cumsum_from acc (a :: l)) with ((acc + a) :: cumsum_from (acc + a) l).
    change (nth (S (S i)) (a :: l) 0) with (nth (S i) l 0).
    change (nth (S (S i)) ((acc + a) :: cumsum_from (acc + a) l) 0)
      with (nth (S i) (cumsum_from (acc + a) l) 0).
    change (nth (S i) ((acc + a) :: cumsum_from (acc + a) l) 0)
      with (nth i (cumsum_from (acc + a) l) 0).
    apply IH. lia.
Qed.

Lemma nth_cumsum_0 (l : list Qc) : nth 0 (cumsum l) 0 = nth 0 l 0.
Proof. destruct l; reflexivity. Qed.

Lemma nth_cumsum_S (l : list Qc) (i : nat) :
  (S i < length l)%nat ->
  nth (S i) (cumsum l) 0 = nth i (cumsum l) 0 + nth (S i) l 0.
Proof.
  intro H. destruct l as [| a l]; simpl in H; [lia |].
  destruct i as [| i].
  - destruct l as [| b l]; simpl in *; [lia | reflexivity].
  - change (nth (S (S i)) (cumsum (a :: l)) 0) with (nth (S i) (cumsum_from a l) 0).
    change (nth (S i) (cumsum (a :: l)) 0) with (nth i (cumsum_from a l) 0).
    change (nth (S (S i)) (a :: l) 0) with (nth (S i) l 0).
    apply nth_cumsum_from_S. lia.
Qed.

Lemma cumtrapz_ok (ys xs : list Qc) :
  ys <> [] -> length xs = length ys ->
  exists m, cumtrapz ys xs = Ok m /\
            length m = length ys /\
            nth 0 m 0 = 0 /\
            forall i, (S i < length ys)%nat ->
                      nth (S i) m 0 = nth i m 0 + trapezoid xs ys i.
Proof.
  intros Hne Hlen. unfold cumtrapz.
  destruct ys as [| y0 ys']; [congruence |].
  rewrite Hlen, Nat.eqb_refl.
  set (ys := y0 :: ys') in *.
  set (terms := map2 (fun di s => di * s / two) (diff xs) (map2 Qcplus (tl ys) ys)).
  assert (Hterms : length terms = (length ys - 1)%nat).
  { unfold terms. rewrite !map2_length, diff_length, tl_length. lia. }
  assert (Hnth : forall i, (S i < length ys)%nat -> nth i terms 0 = trapezoid xs ys i).
  { intros i Hi. unfold terms, trapezoid.
    rewrite (nth_map2 _ _ _ _ _ 0 0).
    - rewrite nth_diff by lia.
      rewrite (nth_map2 _ _ _ _ _ 0 0); [| rewrite tl_length; lia | lia].
      rewrite nth_tl. reflexivity.
    - rewrite diff_length. lia.
    - rewrite map2_length, tl_length. lia. }
  exists (0 :: cumsum terms). split; [reflexivity |].
  split; [simpl; rewrite cumsum_length, Hterms; simpl; lia |].
  split; [reflexivity |].
  intros i Hi.
  change (nth (S i) (0 :: cumsum terms) 0) with (nth i (cumsum terms) 0).
  destruct i as [| i].
  - rewrite nth_cumsum_0, Hnth by lia. simpl. ring.
  - change (nth (S i) (0 :: cumsum terms) 0) with (nth i (cumsum terms) 0).
    rewrite nth_cumsum_S by lia. rewrite Hnth by lia. reflexivity.
Qed.

End ArrayFacts.

(** ** Sample positions *)

Section Positions.

Lemma set_last_cons (a : Qc) (l : list Qc) (v : Qc) :
  set_last (a :: l) v = match l with [] => (v :: nil) | _ :: _ => a :: set_last l v end.
Proof. destruct l; reflexivity. Qed.

Lemma set_last_length (l : list Qc) (v : Qc) : length (set_last l v) = length l.
Proof.
  induction l as [| a l IH]; [reflexivity |].
  rewrite set_last_cons. destruct l; [reflexivity |].
  cbn [length]. rewrite IH. reflexivity.
Qed.

Lemma nth_set_last_end (l : list Qc) (v d : Qc) :
  l <> [] -> nth (length l - 1) (set_last l v) d = v.
Proof.
  induction l as [| a l IH]; intro H; [congruence |].
  rewrite set_last_cons. destruct l as [| b l]; [reflexivity |].
  replace (length (a :: b :: l) - 1)%nat with (S (length (b :: l) - 1)) by (simpl; lia).
  change (nth (S (length (b :: l) - 1)) (a :: set_last (b :: l) v) d)
    with (nth (length (b :: l) - 1) (set_last (b :: l) v) d).
  apply IH. discriminate.
Qed.

Lemma nth_set_last_before (l : list Qc) (v d : Qc) (i : nat) :
  (S i < length l)%nat -> nth i (set_last l v) d = nth i l d.
Proof.
  revert i. induction l as [| a l IH]; intros i H; [simpl in H; lia |].
  rewrite set_last_cons. destruct l as [| b l]; [simpl in H; lia |].
  destruct i as [| i]; [reflexivity |].
  change (nth (S i) (a :: set_last (b :: l) v) d) with (nth i (set_last (b :: l) v) d).
  change (nth (S i) (a :: b :: l) d) with (nth i (b :: l) d).
  apply IH. simpl in *. lia.
Qed.

Lemma arange_length (n : nat) : length (arange n) = n.
Proof. unfold arange. rewrite length_map, length_seq. reflexivity. Qed.

Lemma linspace_length (start stop : Qc) (n : nat) : length (linspace start stop n) = n.
Proof.
  unfold linspace.
  assert (H : forall f g : Qc -> Qc, length (map g (map f (arange n))) = n).
  { intros f g. rewrite !length_map. apply arange_length. }
  destruct (1 <? n)%nat; [rewrite set_last_length |];
    destruct (0 <? n - 1)%nat; try destruct (eqb _ 0); apply H.
Qed.

Lemma linspace_first (start stop : Qc) (n : nat) (d : Qc) :
  (1 <= n)%nat -> nth 0 (linspace start stop n) d = start.
Proof.
  intro Hn. unfold linspace.
  assert (H : forall f : Qc -> Qc, f 0 = 0 ->
            nth 0 (map (fun v => v + start) (map f (arange n))) d = start).
  { intros f Hf. destruct n as [| n]; [lia |].
    simpl. change (of_nat 0) with 0. rewrite Hf. ring. }
  assert (Hlen : forall f : Qc -> Qc,
            length (map (fun v => v + start) (map f (arange n))) = n).
  { intro f. rewrite !length_map. apply arange_length. }
  destruct (1 <? n)%nat eqn:H1.
  - apply Nat.ltb_lt in H1.
    rewrite nth_set_last_before.
    + destruct (0 <? n - 1)%nat; [destruct (eqb _ 0) |]; apply H;
        unfold Qcdiv; ring.
    + destruct (0 <? n - 1)%nat; [destruct (eqb _ 0) |]; rewrite Hlen; lia.
  - destruct (0 <? n - 1)%nat; [destruct (eqb _ 0) |]; apply H;
      unfold Qcdiv; ring.
Qed.

Lemma linspace_last (start stop : Qc) (n : nat) (d : Qc) :
  (2 <= n)%nat -> nth (n - 1) (linspace start stop n) d = stop.
Proof.
  intro Hn. unfold linspace.
  assert (H1 : (1 <? n)%nat = true) by (apply Nat.ltb_lt; lia).
  rewrite H1.
  assert (Hlen : forall f : Qc -> Qc,
            length (map (fun v => v + start) (map f (arange n))) = n).
  { intro f. rewrite !length_map. apply arange_length. }
  assert (H : forall l : list Qc, length l = n -> nth (n - 1) (set_last l stop) d = stop).
  { intros l Hl. rewrite <- Hl. apply nth_set_last_end.
    destruct l; [simpl in Hl; lia | discriminate]. }
  destruct (0 <? n - 1)%nat; [destruct (eqb _ 0) |]; apply H, Hlen.
Qed.

End Positions.

(** ** Shear and moment *)

Section Profile.

Lemma where_lt_length (xs : list Qc) (a : Qc) (u w : list Qc) :
  length u = length xs -> length w = length xs ->
  length (where_lt xs a u w) = length xs.
Proof.
  revert u w. induction xs as [| xi xs IH]; intros [| v u] [| v' w]; simpl;
    intros Hu Hw; try lia; auto.
Qed.

Lemma nth_where_lt (xs : list Qc) (a : Qc) (u w : list Qc) (i : nat) :
  length u = length xs -> length w = length xs -> (i < length xs)%nat ->
  nth i (where_lt xs a u w) 0 = if ltb (nth i xs 0) a then nth i u 0 else nth i w 0.
Proof.
  revert u w i. induction xs as [| xi xs IH]; intros [| v u] [| v' w] [| i]; simpl;
    intros Hu Hw Hi; try lia; auto.
  apply IH; lia.
Qed.

Lemma nth_map_in (f : Qc -> Qc) (l : list Qc) (i : nat) :
  (i < length l)%nat -> nth i (map f l) 0 = f (nth i l 0).
Proof.
  intro H. rewrite (nth_indep _ 0 (f 0)) by (rewrite length_map; exact H).
  apply map_nth.
Qed.

Lemma shear_ok (cfg : LoadConfiguration) (R1 : Qc) (xs : list Qc) :
  positions_known (load_case cfg) ->
  exists v, shear cfg R1 xs = Ok v /\ length v = length xs.
Proof.
  intro Hk. unfold shear.
  destruct (load_case cfg) as [P a P2 a2 | w].
  - set (v0 := map (fun v => v + R1) (zeros_like xs)).
    assert (H0 : length v0 = length xs)
      by (unfold v0, zeros_like; rewrite !length_map; reflexivity).
    assert (H1 : length (where_lt xs a v0 (map (fun v => v - P) v0)) = length xs)
      by (apply where_lt_length; [| rewrite length_map]; exact H0).
    destruct (truthy P2) eqn:Ht.
    + destruct a2 as [a2 |].
      * eexists. split; [reflexivity |].
        apply where_lt_length; [| rewrite length_map]; exact H1.
      * simpl in Hk. apply truthy_true in Ht. contradiction.
    + eexists. split; [reflexivity | exact H1].
  - eexists. split; [reflexivity | apply length_map].
Qed.

Lemma build_profile_ok (cfg : LoadConfiguration) (R1 : Qc) (xs : list Qc) :
  positions_known (load_case cfg) -> xs <> [] ->
  exists v m, shear cfg R1 xs = Ok v /\ cumtrapz v xs = Ok m /\
              build_profile cfg R1 xs = Ok {| V := v; M := m |} /\
              length v = length xs /\ length m = length xs.
Proof.
  intros Hk Hne.
  destruct (shear_ok cfg R1 xs Hk) as [v [Hv Hlen]].
  assert (Hvne : v <> []) by (destruct v, xs; simpl in *; congruence).
  destruct (cumtrapz_ok v xs Hvne (eq_sym Hlen)) as [m [Hm [Hml _]]].
  exists v, m. unfold build_profile. rewrite Hv. simpl. rewrite Hm. simpl.
  repeat split; congruence.
Qed.

End Profile.

(** C6: for every load case the moment sequence of build_profile starts at
    M[0] = 0 and every later sample adds the trapezoid of the shear over the
    last interval: M[i] = M[i-1] + (V[i-1] + V[i]) / 2 * (x[i] - x[i-1]). *)
Theorem C6_moment_is_cumulative_trapezoid
  (cfg : LoadConfiguration) (R1 : Qc) (xs : list Qc) :
  positions_known (load_case cfg) -> xs <> [] ->
  exists prof,
    build_profile cfg R1 xs = Ok prof /\
    length (M prof) = length xs /\
    nth 0 (M prof) 0 = 0 /\
    forall i, (1 <= i < length xs)%nat ->
      nth i (M prof) 0 =
      nth (i - 1) (M prof) 0 +
      (nth (i - 1) (V prof) 0 + nth i (V prof) 0) / two * (nth i xs 0 - nth (i - 1) xs 0).
Proof.
  intros Hk Hne.
  destruct (build_profile_ok cfg R1 xs Hk Hne) as [v [m [_ [Hm [Hp [Hlv Hlm]]]]]].
  assert (Hvne : v <> []) by (destruct v, xs; simpl in *; congruence).
  destruct (cumtrapz_ok v xs Hvne (eq_sym Hlv)) as [m' [Hm' [_ [H0 Hstep]]]].
  assert (m' = m) by congruence. subst m'.
  exists {| V := v; M := m |}. cbn [V M].
  repeat split; try assumption.
  intros i [Hi1 Hi2].
  destruct i as [| i]; [lia |].
  replace (S i - 1)%nat with i by lia.
  rewrite Hstep by lia. unfold trapezoid.
  field. exact two_neq_0.
Qed.

Lemma positions_nonempty (cfg : LoadConfiguration) :
  (1 <= npts cfg)%nat -> positions cfg <> [].
Proof.
  intros Hn Heq. apply (f_equal (@length Qc)) in Heq.
  unfold positions in Heq. rewrite linspace_length in Heq. simpl in Heq. lia.
Qed.

Lemma C6_moment_is_cumulative_trapezoid_witness :
  exists prof,
    build_profile scenario_D (of_Z 10000) (positions scenario_D) = Ok prof /\
    length (M prof) = length (positions scenario_D) /\
    nth 0 (M prof) 0 = 0 /\
    forall i, (1 <= i < length (positions scenario_D))%nat ->
      nth i (M prof) 0 =
      nth (i - 1) (M prof) 0 +
      (nth (i - 1) (V prof) 0 + nth i (V prof) 0) / two *
      (nth i (positions scenario_D) 0 - nth (i - 1) (positions scenario_D) 0).
Proof.
  apply (C6_moment_is_cumulative_trapezoid scenario_D (of_Z 10000) (positions scenario_D)).
  - exact Logic.I.
  - apply positions_nonempty. simpl. lia.
Defined.

(** ** Point-load shear *)

Lemma leb_negb_ltb (u v : Qc) : leb u v = negb (ltb v u).
Proof. reflexivity. Qed.

(** C4: in the point-load case the shear at every sample is R1 minus the sum
    of the point loads whose position is <= x_i; a sample exactly at the
    position of the load already carries the jump. *)
Theorem C4_point_load_shear_right_closed
  (cfg : LoadConfiguration) (P a P2 : Qc) (a2 : option Qc) (R1 : Qc) (xs : list Qc) :
  load_case cfg = PointLoad P a P2 a2 ->
  positions_known (load_case cfg) -> xs <> [] ->
  exists prof,
    build_profile cfg R1 xs = Ok prof /\
    length (V prof) = length xs /\
    (forall i, (i < length xs)%nat ->
       nth i (V prof) 0 = R1 - load_up_to (point_loads (load_case cfg)) (nth i xs 0)) /\
    (a2 = None ->
     forall i, (i < length xs)%nat -> nth i xs 0 = a -> nth i (V prof) 0 = R1 - P).
Proof.
  intros Hlc Hk Hne.
  destruct (build_profile_ok cfg R1 xs Hk Hne) as [v [m [Hv [_ [Hp [Hlv _]]]]]].
  exists {| V := v; M := m |}. cbn [V M].
  split; [exact Hp |]. split; [exact Hlv |].
  assert (Hshear : forall i, (i < length xs)%nat ->
            nth i v 0 = R1 - load_up_to (point_loads (load_case cfg)) (nth i xs 0)).
  { intros i Hi. rewrite Hlc in *. unfold shear in Hv. rewrite Hlc in Hv.
    set (v0 := map (fun v => v + R1) (zeros_like xs)) in *.
    assert (H0 : length v0 = length xs)
      by (unfold v0, zeros_like; rewrite !length_map; reflexivity).
    assert (Hv0 : nth i v0 0 = 0 + R1).
    { unfold v0. rewrite nth_map_in by (unfold zeros_like; rewrite length_map; exact Hi).
      unfold zeros_like. rewrite nth_map_in by exact Hi. reflexivity. }
    set (v1 := where_lt xs a v0 (map (fun v => v - P) v0)) in *.
    assert (H1 : length v1 = length xs)
      by (apply where_lt_length; [| rewrite length_map]; exact H0).
    assert (Hv1 : nth i v1 0 = if ltb (nth i xs 0) a then 0 + R1 else 0 + R1 - P).
    { unfold v1. rewrite nth_where_lt; [| exact H0 | rewrite length_map; exact H0 | exact Hi].
      rewrite nth_map_in by (rewrite H0; exact Hi). rewrite Hv0. reflexivity. }
    destruct (truthy P2) eqn:Ht.
    - destruct a2 as [a2 |]; [| discriminate Hv].
      injection Hv as Hv. subst v.
      rewrite nth_where_lt; [| exact H1 | rewrite length_map; exact H1 | exact Hi].
      rewrite nth_map_in by (rewrite H1; exact Hi). rewrite Hv1.
      simpl. rewrite !leb_negb_ltb.
      destruct (ltb (nth i xs 0) a), (ltb (nth i xs 0) a2); simpl; ring.
    - injection Hv as Hv. subst v. rewrite Hv1.
      apply truthy_false in Ht. subst P2.
      destruct a2 as [a2 |]; simpl; rewrite !leb_negb_ltb;
        destruct (ltb (nth i xs 0) a); try destruct (ltb (nth i xs 0) a2); simpl; ring. }
  split; [exact Hshear |].
  intros Ha2 i Hi Hxa.
  rewrite (Hshear i Hi), Hlc. subst a2. simpl. rewrite leb_negb_ltb, Hxa.
  assert (Hlt : ltb a a = false) by (apply ltb_ge, Qcle_refl).
  rewrite Hlt. simpl. ring.
Qed.

Lemma C4_point_load_shear_right_closed_witness :
  exists prof,
    build_profile scenario_A (of_Z 5000) (positions scenario_A) = Ok prof /\
    length (V prof) = length (positions scenario_A) /\
    (forall i, (i < length (positions scenario_A))%nat ->
       nth i (V prof) 0 =
       of_Z 5000 -
       load_up_to (point_loads (load_case scenario_A)) (nth i (positions scenario_A) 0)) /\
    (@None Qc = None ->
     forall i, (i < length (positions scenario_A))%nat ->
       nth i (positions scenario_A) 0 = of_Z 3 ->
       nth i (V prof) 0 = of_Z 5000 - of_Z 10 * thousand).
Proof.
  apply (C4_point_load_shear_right_closed scenario_A
           (of_Z 10 * thousand) (of_Z 3) 0 None
           (of_Z 5000) (positions scenario_A)).
  - reflexivity.
  - reflexivity.
  - apply positions_nonempty. simpl. lia.
Defined.

(** ** Distributed load *)

(** C5: under a distributed load w the reactions are R1 = R2 = w * L / 2
    whatever the sample count, the shear is V(x_i) = R1 - w * x_i at every
    sample, and the shear at the last sample is exactly -R2. *)
Theorem C5_distributed_reactions_and_shear (cfg : LoadConfiguration) (w : Qc) :
  load_case cfg = UDL w -> (2 <= npts cfg)%nat ->
  let R := w * L cfg / two in
  solve_reactions cfg = Ok (R, R) /\
  exists prof,
    build_profile cfg R (positions cfg) = Ok prof /\
    length (V prof) = npts cfg /\
    (forall i, (i < npts cfg)%nat ->
       nth i (V prof) 0 = R - w * nth i (positions cfg) 0) /\
    nth (npts cfg - 1) (V prof) 0 = - R.
Proof.
  intros Hlc Hn R.
  split; [unfold solve_reactions; rewrite Hlc; reflexivity |].
  assert (Hk : positions_known (load_case cfg)) by (rewrite Hlc; exact Logic.I).
  assert (Hne : positions cfg <> []) by (apply positions_nonempty; lia).
  assert (Hlen : length (positions cfg) = npts cfg) by apply linspace_length.
  destruct (build_profile_ok cfg R (positions cfg) Hk Hne) as [v [m [Hv [_ [Hp [Hlv _]]]]]].
  exists {| V := v; M := m |}. cbn [V M].
  split; [exact Hp |]. split; [congruence |].
  unfold shear in Hv. rewrite Hlc in Hv. injection Hv as Hv. subst v.
  assert (Hall : forall i, (i < npts cfg)%nat ->
            nth i (map (fun xi => R - w * xi) (positions cfg)) 0
            = R - w * nth i (positions cfg) 0).
  { intros i Hi. apply nth_map_in. rewrite Hlen. exact Hi. }
  split; [exact Hall |].
  rewrite Hall by lia.
  unfold positions. rewrite linspace_last by exact Hn.
  unfold R, two. field. exact two_neq_0.
Qed.

Lemma C5_distributed_reactions_and_shear_witness :
  let R := of_Z 5 * thousand * L scenario_B / two in
  solve_reactions scenario_B = Ok (R, R) /\
  exists prof,
    build_profile scenario_B R (positions scenario_B) = Ok prof /\
    length (V prof) = npts scenario_B /\
    (forall i, (i < npts scenario_B)%nat ->
       nth i (V prof) 0 = R - of_Z 5 * thousand * nth i (positions scenario_B) 0) /\
    nth (npts scenario_B - 1) (V prof) 0 = - R.
Proof.
  apply (C5_distributed_reactions_and_shear scenario_B (of_Z 5 * thousand)).
  - reflexivity.
  - simpl. lia.
Defined.

(** C10: the shear of a distributed load is affine in x, so the cumulative
    trapezoidal rule integrates it without error: at every sample
    M[i] = R1 * x_i - w * x_i^2 / 2, for any sample count N >= 2. *)
Theorem C10_distributed_moment_exact (cfg : LoadConfiguration) (w R1 : Qc) :
  load_case cfg = UDL w -> (2 <= npts cfg)%nat ->
  exists prof,
    build_profile cfg R1 (positions cfg) = Ok prof /\
    length (M prof) = npts cfg /\
    forall i, (i < npts cfg)%nat ->
      nth i (M prof) 0 =
      R1 * nth i (positions cfg) 0
      - w * (nth i (positions cfg) 0 * nth i (positions cfg) 0) / two.
Proof.
  intros Hlc Hn.
  assert (Hk : positions_known (load_case cfg)) by (rewrite Hlc; exact Logic.I).
  assert (Hne : positions cfg <> []) by (apply positions_nonempty; lia).
  assert (Hlen : length (positions cfg) = npts cfg) by apply linspace_length.
  destruct (build_profile_ok cfg R1 (positions cfg) Hk Hne)
    as [v [m [Hv [Hm [Hp [Hlv Hlm]]]]]].
  assert (Hvne : v <> []) by (destruct v, (positions cfg); simpl in *; congruence).
  destruct (cumtrapz_ok v (positions cfg) Hvne (eq_sym Hlv)) as [m' [Hm' [_ [H0 Hstep]]]].
  assert (m' = m) by congruence. subst m'.
  exists {| V := v; M := m |}. cbn [V M].
  split; [exact Hp |]. split; [congruence |].
  unfold shear in Hv. rewrite Hlc in Hv. injection Hv as Hv.
  assert (Hvi : forall i, (i < npts cfg)%nat ->
            nth i v 0 = R1 - w * nth i (positions cfg) 0).
  { intros i Hi. subst v. apply nth_map_in. rewrite Hlen. exact Hi. }
  induction i as [| i IH]; intro Hi.
  - rewrite H0. unfold positions. rewrite linspace_first by lia.
    unfold Qcdiv. ring.
  - rewrite Hstep by (rewrite Hlv, Hlen; exact Hi).
    rewrite IH by lia. unfold trapezoid.
    rewrite (Hvi i) by lia. rewrite (Hvi (S i)) by exact Hi.
    unfold two. field. exact two_neq_0.
Qed.

Lemma C10_distributed_moment_exact_witness :
  exists prof,
    build_profile scenario_B (of_Z 15000) (positions scenario_B) = Ok prof /\
    length (M prof) = npts scenario_B /\
    forall i, (i < npts scenario_B)%nat ->
      nth i (M prof) 0 =
      of_Z 15000 * nth i (positions scenario_B) 0
      - of_Z 5 * thousand
        * (nth i (positions scenario_B) 0 * nth i (positions scenario_B) 0) / two.
Proof.
  apply (C10_distributed_moment_exact scenario_B (of_Z 5 * thousand) (of_Z 15000)).
  - reflexivity.
  - simpl. lia.
Defined.

(** ** Reactions *)

Section Reactions.

Lemma general_branch_known (lc : LoadCase) (P a P2 : Qc) (a2 : option Qc) :
  lc = PointLoad P a P2 a2 -> positions_known lc -> general_branch P2 a2 = true.
Proof.
  intros -> Hk. unfold general_branch, truthy.
  destruct a2 as [a2 |]; simpl in *.
  - destruct (eqb P2 0); reflexivity.
  - subst P2. reflexivity.
Qed.

Lemma solve_reactions_ok (cfg : LoadConfiguration) :
  L cfg <> 0 -> positions_known (load_case cfg) ->
  exists r1 r2, solve_reactions cfg = Ok (r1, r2).
Proof.
  intros HL Hk. unfold solve_reactions.
  destruct (load_case cfg) as [P a P2 a2 | w] eqn:Hlc; [| eauto].
  rewrite (general_branch_known _ P a P2 a2 eq_refl Hk).
  unfold reactions_moment_balance.
  destruct (truthy P2) eqn:Ht.
  - destruct a2 as [a2 |].
    + simpl. rewrite pydiv_ok by exact HL. simpl. eauto.
    + simpl in Hk. apply truthy_true in Ht. contradiction.
  - simpl. rewrite pydiv_ok by exact HL. simpl. eauto.
Qed.

End Reactions.

(** C2: in the point-load case solve_reactions returns
    R2 = (P1 * a1 + P2 * a2) / L and R1 = (P1 + P2) - R2 (a2 being irrelevant
    when there is no second load), so that R1 + R2 is the sum of the load
    magnitudes and R2 * L balances the moment of the loads about the left
    support. *)
Theorem C2_point_load_reactions
  (cfg : LoadConfiguration) (P a P2 : Qc) (a2 : option Qc) (a2_any : Qc) :
  load_case cfg = PointLoad P a P2 a2 ->
  positions_known (load_case cfg) -> L cfg <> 0 ->
  let a2_used := match a2 with Some v => v | None => a2_any end in
  exists r1 r2,
    solve_reactions cfg = Ok (r1, r2) /\
    r2 = (P * a + P2 * a2_used) / L cfg /\
    r1 = (P + P2) - r2 /\
    r1 + r2 = total_magnitude (point_loads (load_case cfg)) /\
    r1 + r2 = P + P2 /\
    r2 * L cfg = P * a + P2 * a2_used /\
    r2 * L cfg = moment_about_left_support (point_loads (load_case cfg)).
Proof.
  intros Hlc Hk HL a2_used.
  unfold solve_reactions. rewrite Hlc in *.
  rewrite (general_branch_known _ P a P2 a2 eq_refl Hk).
  unfold reactions_moment_balance.
  destruct (truthy P2) eqn:Ht.
  - destruct a2 as [a2 |]; [| simpl in Hk; apply truthy_true in Ht; contradiction].
    simpl. rewrite pydiv_ok by exact HL. simpl.
    eexists. eexists. split; [reflexivity |].
    subst a2_used. repeat split; try reflexivity; try ring; field; exact HL.
  - apply truthy_false in Ht. subst P2.
    simpl. rewrite pydiv_ok by exact HL. simpl.
    eexists. eexists. split; [reflexivity |].
    subst a2_used. destruct a2 as [a2 |]; simpl;
      repeat split; try reflexivity; try ring; field; exact HL.
Qed.

Lemma C2_point_load_reactions_witness :
  exists r1 r2,
    solve_reactions scenario_D = Ok (r1, r2) /\
    r2 = (of_Z 10 * thousand * of_Z 2 + of_Z 10 * thousand * of_Z 4) / L scenario_D /\
    r1 = (of_Z 10 * thousand + of_Z 10 * thousand) - r2 /\
    r1 + r2 = total_magnitude (point_loads (load_case scenario_D)) /\
    r1 + r2 = of_Z 10 * thousand + of_Z 10 * thousand /\
    r2 * L scenario_D = of_Z 10 * thousand * of_Z 2 + of_Z 10 * thousand * of_Z 4 /\
    r2 * L scenario_D = moment_about_left_support (point_loads (load_case scenario_D)).
Proof.
  apply (C2_point_load_reactions scenario_D
           (of_Z 10 * thousand) (of_Z 2) (of_Z 10 * thousand) (Some (of_Z 4)) 0).
  - reflexivity.
  - exact Logic.I.
  - intro H. discriminate H.
Defined.

(** ** Construction of the configuration *)

Section Construction.






Lemma scale_pos (u k : Qc) : 0 < u -> 0 < k -> 0 < u * k.
Proof.
  intros Hu Hk. rewrite <- (Qcmult_0_l k).
  apply Qcmult_lt_compat_r; assumption.
Qed.


(** What the sidebar block builds never has a second magnitude without a
    position, whatever the widgets return: the position is missing only
    where the block itself sets [P2 = 0.0]. *)
Lemma built_positions_known (l : Loading) : positions_known (build_loads l).
Proof.
  destruct l as [P_kn a [[P2_kn a2] |] | w]; simpl; auto.
Qed.




End Construction.

(** ** Deflection *)

Section Deflection.

Lemma last_nth (l : list Qc) (v : Qc) : last l v = nth (length l) (v :: l) 0.
Proof.
  revert v. induction l as [| a l IH]; intro v; [reflexivity |].
  change (last (a :: l) v) with (match l with [] => a | _ :: _ => last l v end).
  destruct l as [| b l]; [reflexivity |].
  rewrite (IH v).
  change (nth (length (a :: b :: l)) (v :: a :: b :: l) 0)
    with (nth (length (b :: l)) (a :: b :: l) 0).
  cbn [length nth]. destruct l; reflexivity.
Qed.

Lemma last_item_ok (l : list Qc) :
  l <> [] -> last_item l = Ok (nth (length l - 1) l 0).
Proof.
  destruct l as [| v l]; intro H; [congruence |].
  unfold last_item. rewrite last_nth.
  replace (length (v :: l) - 1)%nat with (length l) by (simpl; lia).
  reflexivity.
Qed.

Lemma solve_deflection_ok (cfg : LoadConfiguration) (m xs : list Qc) :
  xs <> [] -> length m = length xs ->
  exists slope y0 ys,
    cumtrapz (map (fun v => v / (E cfg * I cfg)) m) xs = Ok slope /\
    cumtrapz slope xs = Ok y0 /\
    solve_deflection cfg m xs = Ok ys /\
    length slope = length xs /\ length y0 = length xs /\ length ys = length xs /\
    nth 0 y0 0 = 0 /\
    forall i, (i < length xs)%nat ->
      nth i ys 0 =
      nth i y0 0 + (- nth (length xs - 1) y0 0 / L cfg) * nth i xs 0.
Proof.
  intros Hne Hlen.
  set (k := map (fun v => v / (E cfg * I cfg)) m).
  assert (Hk : length k = length xs) by (unfold k; rewrite length_map; exact Hlen).
  assert (Hkne : k <> []) by (destruct k, xs; simpl in *; congruence).
  destruct (cumtrapz_ok k xs Hkne (eq_sym Hk)) as [slope [Hs [Hsl _]]].
  assert (Hsne : slope <> []) by (destruct slope, k; simpl in *; congruence).
  assert (Hsx : length xs = length slope) by congruence.
  destruct (cumtrapz_ok slope xs Hsne Hsx) as [y0 [Hy [Hyl [Hy0 _]]]].
  assert (Hyne : y0 <> []) by (destruct y0, slope; simpl in *; congruence).
  assert (Hyx : length y0 = length xs) by congruence.
  eexists slope, y0, _.
  split; [exact Hs |]. split; [exact Hy |].
  split.
  { unfold solve_deflection. fold k. rewrite Hs. simpl. rewrite Hy. simpl.
    rewrite (last_item_ok y0 Hyne). simpl. reflexivity. }
  split; [congruence |]. split; [exact Hyx |].
  split; [rewrite map2_length, length_map, Hyx; apply Nat.min_id |].
  split; [exact Hy0 |].
  intros i Hi.
  rewrite (nth_map2 _ _ _ _ _ 0 0); [| lia | rewrite length_map; exact Hi].
  rewrite nth_map_in by exact Hi. rewrite Hyx. reflexivity.
Qed.

End Deflection.


(** ** Extrema *)

Section ExtremeValues.

Lemma minimum_cases (u v : Qc) :
  (minimum u v = u \/ minimum u v = v) /\ minimum u v <= u /\ minimum u v <= v.
Proof.
  unfold minimum. destruct (ltb v u) eqn:H.
  - apply ltb_lt in H. repeat split; [right; reflexivity | | apply Qcle_refl].
    apply Qclt_le_weak. exact H.
  - apply ltb_ge in H. repeat split; [left; reflexivity | apply Qcle_refl | exact H].
Qed.

Lemma maximum_cases (u v : Qc) :
  (maximum u v = u \/ maximum u v = v) /\ u <= maximum u v /\ v <= maximum u v.
Proof.
  unfold maximum. destruct (ltb u v) eqn:H.
  - apply ltb_lt in H. repeat split; [right; reflexivity | | apply Qcle_refl].
    apply Qclt_le_weak. exact H.
  - apply ltb_ge in H. repeat split; [left; reflexivity | apply Qcle_refl | exact H].
Qed.

Lemma fold_minimum_spec (l : list Qc) (v : Qc) :
  is_min_of (fold_left minimum l v) (v :: l).
Proof.
  revert v. induction l as [| a l IH]; intro v.
  - split; [left; reflexivity |].
    intros w [<- | []]. apply Qcle_refl.
  - cbn [fold_left].
    destruct (IH (minimum v a)) as [Hin Hle].
    destruct (minimum_cases v a) as [Hc [H1 H2]].
    split.
    + destruct Hin as [Heq | Hin]; [| right; right; exact Hin].
      rewrite <- Heq. destruct Hc as [-> | ->]; [left | right; left]; reflexivity.
    + intros w [<- | [<- | Hw]].
      * apply (Qcle_trans _ (minimum v a)); [apply Hle; left; reflexivity | exact H1].
      * apply (Qcle_trans _ (minimum v a)); [apply Hle; left; reflexivity | exact H2].
      * apply Hle. right. exact Hw.
Qed.

Lemma fold_maximum_spec (l : list Qc) (v : Qc) :
  is_max_of (fold_left maximum l v) (v :: l).
Proof.
  revert v. induction l as [| a l IH]; intro v.
  - split; [left; reflexivity |].
    intros w [<- | []]. apply Qcle_refl.
  - cbn [fold_left].
    destruct (IH (maximum v a)) as [Hin Hle].
    destruct (maximum_cases v a) as [Hc [H1 H2]].
    split.
    + destruct Hin as [Heq | Hin]; [| right; right; exact Hin].
      rewrite <- Heq. destruct Hc as [-> | ->]; [left | right; left]; reflexivity.
    + intros w [<- | [<- | Hw]].
      * apply (Qcle_trans _ (maximum v a)); [exact H1 | apply Hle; left; reflexivity].
      * apply (Qcle_trans _ (maximum v a)); [exact H2 | apply Hle; left; reflexivity].
      * apply Hle. right. exact Hw.
Qed.

Lemma np_min_spec (l : list Qc) :
  l <> [] -> exists lo, np_min l = Ok lo /\ is_min_of lo l.
Proof.
  destruct l as [| v l]; intro H; [congruence |].
  eexists. split; [reflexivity | apply fold_minimum_spec].
Qed.

Lemma np_max_spec (l : list Qc) :
  l <> [] -> exists hi, np_max l = Ok hi /\ is_max_of hi l.
Proof.
  destruct l as [| v l]; intro H; [congruence |].
  eexists. split; [reflexivity | apply fold_maximum_spec].
Qed.

Lemma argmax_from_spec (w : list Qc) :
  forall (l : list Qc) (best : Qc) (ibest i : nat),
    length w = (i + length l)%nat ->
    (forall j, (j < length l)%nat -> nth j l 0 = nth (i + j) w 0) ->
    (ibest < i)%nat -> nth ibest w 0 = best ->
    (forall j, (j < i)%nat -> nth j w 0 <= best) ->
    (forall j, (j < ibest)%nat -> nth j w 0 < best) ->
    let k := argmax_from best ibest i l in
    (k < length w)%nat /\
    (forall j, (j < length w)%nat -> nth j w 0 <= nth k w 0) /\
    (forall j, (j < k)%nat -> nth j w 0 < nth k w 0).
Proof.
  induction l as [| v l IH]; intros best ibest i Hlen Hnth Hib Hbest Hle Hlt; cbn zeta.
  - simpl in *. rewrite Hbest. repeat split.
    + lia.
    + intros j Hj. apply Hle. lia.
    + exact Hlt.
  - assert (Hv : v = nth i w 0).
    { specialize (Hnth 0%nat). simpl in Hnth. rewrite Nat.add_0_r in Hnth.
      apply Hnth. lia. }
    assert (Hnth' : forall j, (j < length l)%nat -> nth j l 0 = nth (S i + j) w 0).
    { intros j Hj. specialize (Hnth (S j)). simpl in Hnth.
      rewrite Nat.add_succ_r in Hnth. apply Hnth. lia. }
    assert (Hlen' : length w = (S i + length l)%nat) by (simpl in Hlen; lia).
    cbn [argmax_from]. destruct (ltb best v) eqn:Hcmp.
    + apply ltb_lt in Hcmp.
      apply IH; [exact Hlen' | exact Hnth' | lia | congruence | |].
      * intros j Hj. destruct (Nat.eq_dec j i) as [-> | Hne].
        -- rewrite <- Hv. apply Qcle_refl.
        -- apply Qclt_le_weak. apply (Qcle_lt_trans _ best); [apply Hle; lia | exact Hcmp].
      * intros j Hj. apply (Qcle_lt_trans _ best); [apply Hle; lia | exact Hcmp].
    + apply ltb_ge in Hcmp.
      apply IH; [exact Hlen' | exact Hnth' | lia | exact Hbest | | exact Hlt].
      intros j Hj. destruct (Nat.eq_dec j i) as [-> | Hne].
      * rewrite <- Hv. exact Hcmp.
      * apply Hle. lia.
Qed.

Lemma argmax_spec (w : list Qc) :
  w <> [] ->
  exists k, argmax w = Ok k /\
            (k < length w)%nat /\
            (forall j, (j < length w)%nat -> nth j w 0 <= nth k w 0) /\
            (forall j, (j < k)%nat -> nth j w 0 < nth k w 0).
Proof.
  destruct w as [| v l] eqn:Hw; intro H; [congruence |].
  eexists. split; [reflexivity |].
  apply (argmax_from_spec (v :: l) l v 0%nat 1%nat).
  - reflexivity.
  - intros j Hj. reflexivity.
  - lia.
  - reflexivity.
  - intros j Hj. replace j with 0%nat by lia. apply Qcle_refl.
  - intros j Hj. lia.
Qed.

Lemma getitem_ok (l : list Qc) (i : nat) :
  (i < length l)%nat -> getitem l i = Ok (nth i l 0).
Proof.
  intro H. unfold getitem. rewrite (nth_error_nth' l 0 H). reflexivity.
Qed.

Lemma find_extremes_total (ys xs : list Qc) :
  ys <> [] -> length xs = length ys -> exists ex, find_extremes ys xs = Ok ex.
Proof.
  intros Hne Hlen.
  destruct (np_min_spec ys Hne) as [lo [Hlo _]].
  destruct (np_max_spec ys Hne) as [hi [Hhi _]].
  assert (Hane : np_abs ys <> []) by (destruct ys; simpl; congruence).
  destruct (np_max_spec (np_abs ys) Hane) as [top [Htop _]].
  destruct (argmax_spec (np_abs ys) Hane) as [k [Hk [Hkl _]]].
  unfold np_abs in Hkl. rewrite length_map in Hkl.
  unfold find_extremes. rewrite Hlo. cbn [bind].
  destruct (ltb lo 0); [| rewrite Hhi]; cbn [bind];
    rewrite Htop; cbn [bind]; rewrite Hk; cbn [bind];
    rewrite getitem_ok by lia; eexists; reflexivity.
Qed.

End ExtremeValues.

(** C7: the dominant-sign extreme deflection is min(y) when min(y) < 0 and
    max(y) otherwise; the absolute maximum is the greatest |y[i]|; the
    reported position is x at the first index that attains it. *)
Theorem C7_extreme_deflections (ys xs : list Qc) :
  ys <> [] -> length xs = length ys ->
  exists ex lo hi,
    find_extremes ys xs = Ok ex /\
    is_min_of lo ys /\ is_max_of hi ys /\
    (lo < 0 -> max_deflection ex = lo) /\
    (0 <= lo -> max_deflection ex = hi) /\
    is_max_of (max_deflection_abs ex) (map Qcabs ys) /\
    (imax ex < length ys)%nat /\
    Qcabs (nth (imax ex) ys 0) = max_deflection_abs ex /\
    (forall j, (j < imax ex)%nat -> Qcabs (nth j ys 0) < max_deflection_abs ex) /\
    x_imax ex = nth (imax ex) xs 0.
Proof.
  intros Hne Hlen.
  destruct (np_min_spec ys Hne) as [lo [Hlo Hmin]].
  destruct (np_max_spec ys Hne) as [hi [Hhi Hmax]].
  assert (Hane : np_abs ys <> []) by (destruct ys; simpl; congruence).
  assert (Halen : length (np_abs ys) = length ys) by apply length_map.
  destruct (np_max_spec (np_abs ys) Hane) as [top [Htop Habs]].
  destruct (argmax_spec (np_abs ys) Hane) as [k [Hk [Hkl [Hkge Hklt]]]].
  rewrite Halen in *.
  assert (Hnthabs : forall j, (j < length ys)%nat ->
            nth j (np_abs ys) 0 = Qcabs (nth j ys 0)).
  { intros j Hj. unfold np_abs. apply nth_map_in. exact Hj. }
  assert (Hktop : Qcabs (nth k ys 0) = top).
  { rewrite <- Hnthabs by exact Hkl. destruct Habs as [Hin Hge].
    apply Qcle_antisym.
    - apply Hge. apply nth_In. rewrite Halen. exact Hkl.
    - destruct (In_nth _ _ 0 Hin) as [j [Hj <-]]. apply Hkge. rewrite <- Halen. exact Hj. }
  exists {| max_deflection := if ltb lo 0 then lo else hi;
            max_deflection_abs := top; imax := k; x_imax := nth k xs 0 |}, lo, hi.
  cbn [max_deflection max_deflection_abs imax x_imax].
  split.
  { unfold find_extremes. rewrite Hlo. cbn [bind].
    destruct (ltb lo 0); [| rewrite Hhi]; cbn [bind];
      rewrite Htop; cbn [bind]; rewrite Hk; cbn [bind];
      rewrite getitem_ok by lia; reflexivity. }
  split; [exact Hmin |]. split; [exact Hmax |].
  split.
  { intro H. apply ltb_lt in H. rewrite H. reflexivity. }
  split.
  { intro H. apply ltb_ge in H. rewrite H. reflexivity. }
  split; [exact Habs |]. split; [exact Hkl |]. split; [exact Hktop |].
  split; [| reflexivity].
  intros j Hj. rewrite <- Hktop.
  rewrite <- (Hnthabs j) by lia. rewrite <- (Hnthabs k) by exact Hkl.
  apply Hklt. exact Hj.
Qed.

Lemma C7_extreme_deflections_witness :
  exists ex lo hi,
    find_extremes tied_deflection tied_positions = Ok ex /\
    is_min_of lo tied_deflection /\ is_max_of hi tied_deflection /\
    (lo < 0 -> max_deflection ex = lo) /\
    (0 <= lo -> max_deflection ex = hi) /\
    is_max_of (max_deflection_abs ex) (map Qcabs tied_deflection) /\
    (imax ex < length tied_deflection)%nat /\
    Qcabs (nth (imax ex) tied_deflection 0) = max_deflection_abs ex /\
    (forall j, (j < imax ex)%nat ->
       Qcabs (nth j tied_deflection 0) < max_deflection_abs ex) /\
    x_imax ex = nth (imax ex) tied_positions 0.
Proof.
  apply (C7_extreme_deflections tied_deflection tied_positions).
  - discriminate.
  - reflexivity.
Defined.

(** ** The whole run *)

Section WholeRun.

Lemma valid_positions_known (cfg : LoadConfiguration) :
  valid cfg -> positions_known (load_case cfg).
Proof.
  intros [_ [_ [_ [_ H]]]].
  destruct (load_case cfg) as [P a P2 [a2 |] | w]; simpl in *; tauto.
Qed.

Lemma analyze_ok (cfg : LoadConfiguration) :
  L cfg <> 0 -> (1 <= npts cfg)%nat -> positions_known (load_case cfg) ->
  exists r1 r2 v m ys ex,
    solve_reactions cfg = Ok (r1, r2) /\
    build_profile cfg r1 (positions cfg) = Ok {| V := v; M := m |} /\
    solve_deflection cfg m (positions cfg) = Ok ys /\
    find_extremes ys (positions cfg) = Ok ex /\
    analyze cfg =
    Ok {| x := positions cfg; R1 := r1; R2 := r2;
          profile := {| V := v; M := m |}; y := ys; extremes := ex |}.
Proof.
  intros HL Hn Hk.
  assert (Hne : positions cfg <> []) by (apply positions_nonempty; exact Hn).
  destruct (solve_reactions_ok cfg HL Hk) as [r1 [r2 Hr]].
  destruct (build_profile_ok cfg r1 (positions cfg) Hk Hne)
    as [v [m [_ [_ [Hp [_ Hlm]]]]]].
  destruct (solve_deflection_ok cfg m (positions cfg) Hne Hlm)
    as [slope [y0 [ys [_ [_ [Hys [_ [_ [Hly _]]]]]]]]].
  assert (Hyne : ys <> []) by (destruct ys, (positions cfg); simpl in *; congruence).
  destruct (find_extremes_total ys (positions cfg) Hyne (eq_sym Hly)) as [ex Hex].
  exists r1, r2, v, m, ys, ex.
  repeat split; try assumption.
  unfold analyze. fold (positions cfg).
  rewrite Hr. cbn [bind]. rewrite Hp. cbn [bind M]. rewrite Hys. cbn [bind].
  rewrite Hex. reflexivity.
Qed.

End WholeRun.

Lemma valid_scenario_A : valid scenario_A.
Proof.
  unfold valid, scenario_A; simpl.
  repeat split; try reflexivity; try discriminate; lia.
Qed.

(** ** A load over the left support *)

Section LeftSupport.

Lemma mul_nonneg (u v : Qc) : 0 <= u -> 0 <= v -> 0 <= u * v.
Proof.
  intros Hu Hv. rewrite <- (Qcmult_0_l v).
  apply Qcmult_le_compat_r; assumption.
Qed.

Lemma inv_nonneg (u : Qc) : 0 <= u -> 0 <= / u.
Proof.
  intro Hu. unfold Qcle in *.
  change (this (/ u)) with (Qred (/ this u)).
  rewrite Qred_correct. apply Qinv_le_0_compat. exact Hu.
Qed.

Lemma of_nat_nonneg (k : nat) : 0 <= of_nat k.
Proof.
  unfold Qcle, of_nat, of_Z.
  change (this (Q2Qc (inject_Z (Z.of_nat k)))) with (Qred (inject_Z (Z.of_nat k))).
  rewrite (Qred_correct (inject_Z (Z.of_nat k))).
  unfold Qle. simpl. lia.
Qed.

Lemma nth_arange (n i : nat) : (i < n)%nat -> nth i (arange n) 0 = of_nat i.
Proof.
  intro H. unfold arange.
  change 0 with (of_nat 0). rewrite map_nth, seq_nth by exact H. reflexivity.
Qed.

Lemma linspace_nonneg (stop : Qc) (n i : nat) :
  0 <= stop -> (i < n)%nat -> 0 <= nth i (linspace 0 stop n) 0.
Proof.
  intros Hs Hi.
  assert (Hd : 0 <= stop - 0) by (replace (stop - 0) with stop by ring; exact Hs).
  assert (Hbody : forall f : Qc -> Qc, (forall v, 0 <= v -> 0 <= f v) ->
            0 <= nth i (map (fun v => v + 0) (map f (arange n))) 0).
  { intros f Hf.
    rewrite nth_map_in by (rewrite length_map, arange_length; exact Hi).
    rewrite nth_map_in by (rewrite arange_length; exact Hi).
    rewrite nth_arange by exact Hi. rewrite Qcplus_0_r.
    apply Hf, of_nat_nonneg. }
  assert (Hlenb : forall f : Qc -> Qc,
            length (map (fun v => v + 0) (map f (arange n))) = n).
  { intro f. rewrite !length_map. apply arange_length. }
  assert (Hlast : forall l : list Qc, length l = n ->
            0 <= nth i l 0 -> 0 <= nth i (set_last l stop) 0).
  { intros l Hl Hnth.
    destruct (Nat.eq_dec i (n - 1)) as [-> | Hne].
    - rewrite <- Hl. rewrite nth_set_last_end; [exact Hs |].
      destruct l; [simpl in Hl; lia | discriminate].
    - rewrite nth_set_last_before by lia. exact Hnth. }
  unfold linspace.
  destruct (1 <? n)%nat; [apply Hlast; [| ] |];
    destruct (0 <? n - 1)%nat; try destruct (eqb _ 0);
    try apply Hlenb; apply Hbody; intros v Hv; unfold Qcdiv;
    repeat apply mul_nonneg; try apply inv_nonneg; try apply of_nat_nonneg; assumption.
Qed.

Lemma cumtrapz_zero (ys xs m : list Qc) :
  ys <> [] -> length xs = length ys ->
  (forall i, (i < length ys)%nat -> nth i ys 0 = 0) ->
  cumtrapz ys xs = Ok m ->
  forall i, (i < length ys)%nat -> nth i m 0 = 0.
Proof.
  intros Hne Hlen Hz Hm.
  destruct (cumtrapz_ok ys xs Hne Hlen) as [m' [Hm' [_ [H0 Hstep]]]].
  assert (m' = m) by congruence. subst m'.
  induction i as [| i IH]; intro Hi; [exact H0 |].
  rewrite Hstep by exact Hi. rewrite IH by lia.
  unfold trapezoid. rewrite (Hz i) by lia. rewrite (Hz (S i)) by exact Hi.
  unfold Qcdiv. ring.
Qed.

Lemma all_zero_Forall (l : list Qc) :
  (forall i, (i < length l)%nat -> nth i l 0 = 0) -> Forall (fun v => v = 0) l.
Proof.
  intro H. apply Forall_forall. intros v Hv.
  destruct (In_nth _ _ 0 Hv) as [i [Hi <-]]. apply H. exact Hi.
Qed.

End LeftSupport.

(** C8: with the single point load over the left support (a = 0, P2 = 0)
    the run yields R1 = P and R2 = 0, and the moment and the deflection are
    zero at every sample. *)
Theorem C8_load_over_left_support
  (cfg : LoadConfiguration) (P : Qc) (a2 : option Qc) :
  valid cfg -> load_case cfg = PointLoad P 0 0 a2 ->
  exists r,
    analyze cfg = Ok r /\
    R1 r = P /\ R2 r = 0 /\
    length (M (profile r)) = npts cfg /\ length (y r) = npts cfg /\
    Forall (fun v => v = 0) (M (profile r)) /\
    Forall (fun v => v = 0) (y r).
Proof.
  intros Hvalid Hlc. pose proof Hvalid as [HL [_ [_ [Hn _]]]].
  assert (HL0 : L cfg <> 0) by (apply pos_neq_0; exact HL).
  assert (Hk : positions_known (load_case cfg)) by (apply valid_positions_known; exact Hvalid).
  assert (Hne : positions cfg <> []) by (apply positions_nonempty; lia).
  assert (Hlen : length (positions cfg) = npts cfg) by apply linspace_length.
  destruct (analyze_ok cfg HL0) as [r1 [r2 [v [m [ys [ex [Hr [Hp [Hys [_ Hrun]]]]]]]]]];
    [lia | exact Hk |].
  eexists. split; [exact Hrun |]. cbn [R1 R2 profile M y].
  (* reactions *)
  assert (Hr12 : r1 = P /\ r2 = 0).
  { unfold solve_reactions in Hr. rewrite Hlc in Hr.
    rewrite (general_branch_known _ P 0 0 a2 eq_refl) in Hr
      by (rewrite <- Hlc; exact Hk).
    unfold reactions_moment_balance in Hr.
    change (truthy 0) with false in Hr. cbn [bind] in Hr.
    rewrite pydiv_ok in Hr by exact HL0. cbn [bind] in Hr.
    injection Hr as <- <-. split; field; exact HL0. }
  destruct Hr12 as [-> ->].
  (* shear and moment *)
  destruct (build_profile_ok cfg P (positions cfg) Hk Hne)
    as [v' [m' [Hv [Hm [Hp' [Hlv Hlm]]]]]].
  rewrite Hp in Hp'. injection Hp' as <- <-.
  assert (Hvz : forall i, (i < length v)%nat -> nth i v 0 = 0).
  { intros i Hi. rewrite Hlv in Hi.
    unfold shear in Hv. rewrite Hlc in Hv. change (truthy 0) with false in Hv.
    injection Hv as <-.
    set (v0 := map (fun u => u + P) (zeros_like (positions cfg))).
    assert (H0 : length v0 = length (positions cfg))
      by (unfold v0, zeros_like; rewrite !length_map; reflexivity).
    rewrite nth_where_lt; [| exact H0 | rewrite length_map; exact H0 | exact Hi].
    assert (Hge : ltb (nth i (positions cfg) 0) 0 = false).
    { apply ltb_ge. apply linspace_nonneg; [apply Qclt_le_weak; exact HL | lia]. }
    rewrite Hge. rewrite nth_map_in by (rewrite H0; exact Hi).
    unfold v0. rewrite nth_map_in by (unfold zeros_like; rewrite length_map; exact Hi).
    unfold zeros_like. rewrite nth_map_in by exact Hi. ring. }
  assert (Hvne : v <> []) by (destruct v, (positions cfg); simpl in *; congruence).
  assert (Hmz : forall i, (i < length m)%nat -> nth i m 0 = 0).
  { intros i Hi.
    apply (cumtrapz_zero v (positions cfg) m Hvne);
      [congruence | exact Hvz | exact Hm | congruence]. }
  (* deflection *)
  destruct (solve_deflection_ok cfg m (positions cfg) Hne Hlm)
    as [slope [y0 [ys' [Hs [Hy0 [Hys' [Hls [Hly0 [Hly [_ Hform]]]]]]]]]].
  assert (ys' = ys) by congruence. subst ys'.
  set (k := map (fun u => u / (E cfg * I cfg)) m) in *.
  assert (Hlk : length k = length m) by (unfold k; apply length_map).
  assert (Hkz : forall i, (i < length k)%nat -> nth i k 0 = 0).
  { intros i Hi. unfold k. rewrite nth_map_in by congruence.
    rewrite Hmz by congruence. unfold Qcdiv. ring. }
  assert (Hkne : k <> []) by (destruct k, m, (positions cfg); simpl in *; congruence).
  assert (Hsz : forall i, (i < length slope)%nat -> nth i slope 0 = 0).
  { intros i Hi.
    apply (cumtrapz_zero k (positions cfg) slope Hkne);
      [congruence | exact Hkz | exact Hs | congruence]. }
  assert (Hsne : slope <> []) by (destruct slope, (positions cfg); simpl in *; congruence).
  assert (Hyz : forall i, (i < length y0)%nat -> nth i y0 0 = 0).
  { intros i Hi.
    apply (cumtrapz_zero slope (positions cfg) y0 Hsne);
      [congruence | exact Hsz | exact Hy0 | congruence]. }
  split; [reflexivity |]. split; [reflexivity |].
  split; [congruence |]. split; [congruence |].
  split; [apply all_zero_Forall; exact Hmz |].
  apply all_zero_Forall. intros i Hi.
  rewrite Hform by congruence.
  rewrite (Hyz i) by congruence.
  rewrite (Hyz (length (positions cfg) - 1)%nat) by (rewrite Hly0, Hlen; lia).
  unfold Qcdiv. ring.
Qed.

Lemma valid_scenario_C : valid scenario_C.
Proof.
  unfold valid, scenario_C; simpl.
  repeat split; try reflexivity; try discriminate; lia.
Qed.

Lemma C8_load_over_left_support_witness :
  exists r,
    analyze scenario_C = Ok r /\
    R1 r = of_Z 10 * thousand /\ R2 r = 0 /\
    length (M (profile r)) = npts scenario_C /\ length (y r) = npts scenario_C /\
    Forall (fun v => v = 0) (M (profile r)) /\
    Forall (fun v => v = 0) (y r).
Proof.
  apply (C8_load_over_left_support scenario_C (of_Z 10 * thousand) None).
  - exact valid_scenario_C.
  - reflexivity.
Defined.

(** ** The branches of the point-load reactions *)

(** C9: with P2 = 0 the single-load formula of the else branch gives the
    same reactions as the moment balance of the general branch; and for
    every configuration the sidebar can deliver (a2 is None only when
    P2 = 0), the branch condition holds, so the general branch is the one
    that runs. *)
Theorem C9_else_branch_equivalent_and_unreachable :
  (forall len P a a2,
     reactions_single len P a = reactions_moment_balance len P a 0 a2) /\
  (forall s cfg P a P2 a2,
     build s = Ok cfg -> load_case cfg = PointLoad P a P2 a2 ->
     (a2 = None -> P2 = 0) /\
     general_branch P2 a2 = true /\
     solve_reactions cfg = reactions_moment_balance (L cfg) P a P2 a2).
Proof.
  split.
  - intros len P a a2.
    unfold reactions_single, reactions_moment_balance.
    change (truthy 0) with false. cbn [bind]. unfold pydiv.
    destruct (eqb len 0) eqn:Hlen; [reflexivity |].
    apply eqb_neq in Hlen. cbn [bind].
    f_equal. f_equal; field; exact Hlen.
  - intros s cfg P a P2 a2 Hb Hlc.
    assert (Hk : positions_known (load_case cfg)).
    { unfold build in Hb. injection Hb as <-. apply built_positions_known. }
    assert (Hg : general_branch P2 a2 = true)
      by (apply (general_branch_known _ P a P2 a2 Hlc Hk)).
    split; [| split].
    + intros ->. rewrite Hlc in Hk. exact Hk.
    + exact Hg.
    + unfold solve_reactions. rewrite Hlc, Hg. reflexivity.
Qed.

(** ** The scenarios, run *)

Section Scenarios.

Example scenario_A_is_built : build scenario_A_sidebar = Ok scenario_A.
Proof. reflexivity. Qed.

Example scenario_A_reactions :
  exists r1 r2, solve_reactions scenario_A = Ok (r1, r2) /\
                r1 = of_Z 5000 /\ r2 = of_Z 5000.
Proof.
  eexists. eexists. split; [reflexivity |].
  split; apply Qc_is_canon; reflexivity.
Qed.

Example scenario_B_reactions :
  exists r1 r2, solve_reactions scenario_B = Ok (r1, r2) /\
                r1 = of_Z 15000 /\ r2 = of_Z 15000.
Proof.
  eexists. eexists. split; [reflexivity |].
  split; apply Qc_is_canon; reflexivity.
Qed.

Example scenario_D_reactions :
  exists r1 r2, solve_reactions scenario_D = Ok (r1, r2) /\
                r1 = of_Z 10000 /\ r2 = of_Z 10000.
Proof.
  eexists. eexists. split; [reflexivity |].
  split; apply Qc_is_canon; reflexivity.
Qed.

(** With the two extreme values -3 and 3 of equal size, the reported
    extreme is the negative one and the position is that of the first. *)
Example tied_extremes :
  exists ex, find_extremes tied_deflection tied_positions = Ok ex /\
             max_deflection ex = of_Z (-3) /\
             max_deflection_abs ex = of_Z 3 /\
             imax ex = 1%nat /\ x_imax ex = of_Z 1.
Proof.
  eexists. split; [vm_compute; reflexivity |].
  repeat split; apply Qc_is_canon; reflexivity.
Qed.

(** Four samples: the shear jumps on the sample that carries the load, and
    the moment is the running trapezoid sum of the shear. *)
Example four_samples_run :
  exists r, analyze four_samples = Ok r /\
            values (x r) = (0 :: 1 :: 2 :: 3 :: nil)%Q /\
            this (R1 r) = 2%Q /\ this (R2 r) = 4%Q /\
            values (V (profile r)) = (2 :: 2 :: -4 # 1 :: -4 # 1 :: nil)%Q /\
            values (M (profile r)) = (0 :: 2 :: 1 :: -3 # 1 :: nil)%Q /\
            values (y r) = (0 :: -11 # 12 :: -7 # 12 :: 0 :: nil)%Q /\
            this (max_deflection (extremes r)) = (-11 # 12)%Q /\
            this (max_deflection_abs (extremes r)) = (11 # 12)%Q /\
            imax (extremes r) = 1%nat.
Proof.
  eexists. split; [vm_compute; reflexivity |].
  repeat split.
Qed.

(** A zero length is the division by zero of the point-load reactions. *)
Example zero_length_raises :
  solve_reactions
    {| L := 0; E := giga; I := nano;
       load_case := PointLoad thousand 0 0 None; npts := 100 |}
  = Raise ZeroDivisionError.
Proof. reflexivity. Qed.

(** The else branch and the TypeError behind it are met only with a second
    load that has no position, which the sidebar never delivers. *)
Example second_load_without_position :
  general_branch thousand None = false /\
  shear {| L := of_Z 6; E := giga; I := nano;
           load_case := PointLoad thousand (of_Z 3) thousand None; npts := 100 |}
        0 (0 :: nil)
  = Raise TypeError.
Proof. split; reflexivity. Qed.

End Scenarios.

(** * Further properties of the script *)

(** ** Order reasoning through the underlying fractions *)

Section Fractions.

Lemma this_plus (u v : Qc) : (this (u + v) == this u + this v)%Q.
Proof. apply Qred_correct. Qed.

Lemma this_mult (u v : Qc) : (this (u * v) == this u * this v)%Q.
Proof. apply Qred_correct. Qed.

Lemma this_opp (u : Qc) : (this (- u) == - this u)%Q.
Proof. apply Qred_correct. Qed.

Lemma this_minus (u v : Qc) : (this (u - v) == this u - this v)%Q.
Proof. unfold Qcminus. rewrite this_plus, this_opp. reflexivity. Qed.

Lemma this_inv (u : Qc) : (this (/ u) == / this u)%Q.
Proof. apply Qred_correct. Qed.

Lemma this_div (u v : Qc) : (this (u / v) == this u / this v)%Q.
Proof. unfold Qcdiv. rewrite this_mult, this_inv. reflexivity. Qed.

Lemma this_0 : (this 0 == 0)%Q.
Proof. reflexivity. Qed.

Lemma this_1 : (this 1 == 1)%Q.
Proof. reflexivity. Qed.

Lemma this_two : (this two == 2)%Q.
Proof. reflexivity. Qed.

Lemma this_of_nat (k : nat) : (this (of_nat k) == inject_Z (Z.of_nat k))%Q.
Proof. apply Qred_correct. Qed.

Lemma Qc_eq_this (u v : Qc) : u = v <-> (this u == this v)%Q.
Proof. split; [intros ->; reflexivity | apply Qc_is_canon]. Qed.

End Fractions.

Ltac to_Q :=
  repeat match goal with
         | H : @eq Qc _ _ |- _ => apply Qc_eq_this in H
         | H : ~ @eq Qc _ _ |- _ => rewrite Qc_eq_this in H
         end;
  try apply Qc_eq_this;
  unfold Qcle, Qclt in *;
  repeat (rewrite ?this_plus, ?this_mult, ?this_opp, ?this_minus,
            ?this_inv, ?this_div, ?this_0, ?this_1, ?this_two in * ).

Ltac const_div :=
  unfold Qdiv in *;
  change (/ 2)%Q with (1 # 2)%Q in *;
  change (/ (2 * 2 * 2))%Q with (1 # 8)%Q in *.

Section OrderFacts.

Lemma square_nonneg (u : Q) : (0 <= u * u)%Q.
Proof. destruct (Qlt_le_dec u 0); nra. Qed.

Lemma square_pos (u : Q) : (~ u == 0)%Q -> (0 < u * u)%Q.
Proof.
  intro H. destruct (Q_dec u 0) as [[H1 | H1] | H1]; [nra | nra | contradiction].
Qed.

Lemma of_nat_lt (i j : nat) : (i < j)%nat -> of_nat i < of_nat j.
Proof.
  intro H. unfold Qclt. rewrite !this_of_nat.
  rewrite <- Zlt_Qlt. lia.
Qed.

Lemma of_nat_pos (k : nat) : (1 <= k)%nat -> 0 < of_nat k.
Proof. intro H. change 0 with (of_nat 0). apply of_nat_lt. lia. Qed.

Lemma of_nat_neq_0 (k : nat) : (1 <= k)%nat -> of_nat k <> 0.
Proof. intro H. apply pos_neq_0, of_nat_pos, H. Qed.

Lemma of_nat_S (k : nat) : of_nat (S k) = of_nat k + 1.
Proof.
  apply Qc_eq_this. rewrite this_plus, !this_of_nat, this_1.
  rewrite Nat2Z.inj_succ. unfold Z.succ. rewrite inject_Z_plus. reflexivity.
Qed.

Lemma inv_pos (u : Qc) : 0 < u -> 0 < / u.
Proof.
  intro H. unfold Qclt in *. rewrite this_inv.
  apply Qinv_lt_0_compat. exact H.
Qed.

Lemma div_pos (u v : Qc) : 0 < u -> 0 < v -> 0 < u / v.
Proof.
  intros Hu Hv. unfold Qcdiv. rewrite <- (Qcmult_0_l (/ v)).
  apply Qcmult_lt_compat_r; [apply inv_pos; exact Hv | exact Hu].
Qed.

End OrderFacts.

(** ** The sample positions (line 50) *)

Section Grid.

Lemma linspace_nth (stop : Qc) (n i : nat) :
  (2 <= n)%nat -> (i < n)%nat ->
  nth i (linspace 0 stop n) 0 = of_nat i * (stop / of_nat (n - 1)).
Proof.
  intros Hn Hi.
  assert (Hd : of_nat (n - 1) <> 0) by (apply of_nat_neq_0; lia).
  destruct (Nat.eq_dec i (n - 1)) as [-> | Hne].
  - rewrite linspace_last by exact Hn. field. exact Hd.
  - unfold linspace.
    assert (H1 : (1 <? n)%nat = true) by (apply Nat.ltb_lt; lia).
    assert (H0 : (0 <? n - 1)%nat = true) by (apply Nat.ltb_lt; lia).
    rewrite H1, H0.
    assert (Hbody : forall f : Qc -> Qc,
              (forall v, f v + 0 = v * (stop / of_nat (n - 1))) ->
              nth i (set_last (map (fun v => v + 0) (map f (arange n))) stop) 0
              = of_nat i * (stop / of_nat (n - 1))).
    { intros f Hf.
      rewrite nth_set_last_before by (rewrite !length_map, arange_length; lia).
      rewrite nth_map_in by (rewrite length_map, arange_length; exact Hi).
      rewrite nth_map_in by (rewrite arange_length; exact Hi).
      rewrite nth_arange by exact Hi. apply Hf. }
    destruct (eqb ((stop - 0) / of_nat (n - 1)) 0); apply Hbody; intro v;
      field; exact Hd.
Qed.

End Grid.

Section GridFacts.

Lemma positions_nth (cfg : LoadConfiguration) (i : nat) :
  (2 <= npts cfg)%nat -> (i < npts cfg)%nat ->
  nth i (positions cfg) 0 = of_nat i * spacing cfg.
Proof. intros Hn Hi. unfold positions, spacing. apply linspace_nth; assumption. Qed.

Lemma spacing_pos (cfg : LoadConfiguration) :
  (2 <= npts cfg)%nat -> 0 < L cfg -> 0 < spacing cfg.
Proof.
  intros Hn HL. unfold spacing. apply div_pos; [exact HL | apply of_nat_pos; lia].
Qed.

Lemma positions_lt (cfg : LoadConfiguration) (i j : nat) :
  (2 <= npts cfg)%nat -> 0 < L cfg -> (i < j < npts cfg)%nat ->
  nth i (positions cfg) 0 < nth j (positions cfg) 0.
Proof.
  intros Hn HL [Hij Hj]. rewrite !positions_nth by lia.
  apply Qcmult_lt_compat_r; [apply spacing_pos; assumption | apply of_nat_lt; exact Hij].
Qed.

Lemma positions_last (cfg : LoadConfiguration) :
  (2 <= npts cfg)%nat -> nth (npts cfg - 1) (positions cfg) 0 = L cfg.
Proof. intro Hn. unfold positions. apply linspace_last. exact Hn. Qed.

Lemma positions_first (cfg : LoadConfiguration) :
  (1 <= npts cfg)%nat -> nth 0 (positions cfg) 0 = 0.
Proof. intro Hn. unfold positions. apply linspace_first. exact Hn. Qed.

Lemma positions_length (cfg : LoadConfiguration) :
  length (positions cfg) = npts cfg.
Proof. apply linspace_length. Qed.

Lemma positions_within (cfg : LoadConfiguration) (i : nat) :
  (2 <= npts cfg)%nat -> 0 < L cfg -> (i < npts cfg)%nat ->
  0 <= nth i (positions cfg) 0 /\ nth i (positions cfg) 0 <= L cfg.
Proof.
  intros Hn HL Hi. split.
  - apply linspace_nonneg; [apply Qclt_le_weak; exact HL | exact Hi].
  - destruct (Nat.eq_dec i (npts cfg - 1)) as [-> | Hne].
    + rewrite positions_last by exact Hn. apply Qcle_refl.
    + apply Qclt_le_weak.
      apply (Qclt_le_trans _ (nth (npts cfg - 1) (positions cfg) 0)).
      * apply positions_lt; [exact Hn | exact HL | lia].
      * rewrite positions_last by exact Hn. apply Qcle_refl.
Qed.

End GridFacts.

(** X1: for N >= 2 the script works on N samples x_i = i * L / (N - 1):
    they start at 0, end at L, are evenly spaced, and for L > 0 they increase
    strictly and stay on the span. *)
Theorem X1_positions_evenly_spaced (cfg : LoadConfiguration) :
  (2 <= npts cfg)%nat ->
  length (positions cfg) = npts cfg /\
  (forall i, (i < npts cfg)%nat ->
     nth i (positions cfg) 0 = of_nat i * spacing cfg) /\
  (forall i, (S i < npts cfg)%nat ->
     nth (S i) (positions cfg) 0 - nth i (positions cfg) 0 = spacing cfg) /\
  (0 < L cfg ->
   forall i j, (i < j < npts cfg)%nat ->
     nth i (positions cfg) 0 < nth j (positions cfg) 0) /\
  (0 < L cfg ->
   forall i, (i < npts cfg)%nat ->
     0 <= nth i (positions cfg) 0 /\ nth i (positions cfg) 0 <= L cfg).
Proof.
  intro Hn.
  split; [apply positions_length |].
  split; [intros i Hi; apply positions_nth; assumption |].
  split.
  { intros i Hi. rewrite !positions_nth by lia. rewrite of_nat_S. ring. }
  split.
  - intros HL i j Hij. apply positions_lt; assumption.
  - intros HL i Hi. apply positions_within; assumption.
Qed.

Lemma X1_positions_evenly_spaced_witness :
  length (positions four_samples) = npts four_samples /\
  (forall i, (i < npts four_samples)%nat ->
     nth i (positions four_samples) 0 = of_nat i * spacing four_samples) /\
  (forall i, (S i < npts four_samples)%nat ->
     nth (S i) (positions four_samples) 0 - nth i (positions four_samples) 0
     = spacing four_samples) /\
  (0 < L four_samples ->
   forall i j, (i < j < npts four_samples)%nat ->
     nth i (positions four_samples) 0 < nth j (positions four_samples) 0) /\
  (0 < L four_samples ->
   forall i, (i < npts four_samples)%nat ->
     0 <= nth i (positions four_samples) 0 /\
     nth i (positions four_samples) 0 <= L four_samples).
Proof.
  apply (X1_positions_evenly_spaced four_samples). simpl. lia.
Defined.

(** ** Reactions (lines 61-68 and 84) *)

Section ReactionBounds.

Lemma div_bounds (n m len : Qc) :
  0 < len -> 0 <= n -> n <= m * len -> 0 <= n / len /\ n / len <= m.
Proof.
  intros Hlen Hn Hm. to_Q.
  assert (Hq : (0 < / this len)%Q) by (apply Qinv_lt_0_compat; exact Hlen).
  assert (H1 : (this len * / this len == 1)%Q) by (apply Qmult_inv_r; lra).
  unfold Qdiv. split; nra.
Qed.

Lemma valid_point_reactions (cfg : LoadConfiguration) (P a P2 : Qc) (a2 : option Qc) :
  L cfg <> 0 -> positions_known (load_case cfg) ->
  load_case cfg = PointLoad P a P2 a2 ->
  solve_reactions cfg =
  Ok (P + P2 - (P * a + P2 * match a2 with Some v => v | None => 0 end) / L cfg,
      (P * a + P2 * match a2 with Some v => v | None => 0 end) / L cfg).
Proof.
  intros HL Hk Hlc. unfold solve_reactions. rewrite Hlc in *.
  rewrite (general_branch_known _ P a P2 a2 eq_refl Hk).
  unfold reactions_moment_balance.
  destruct (truthy P2) eqn:Ht.
  - destruct a2 as [a2 |]; [| simpl in Hk; apply truthy_true in Ht; contradiction].
    cbn [bind]. rewrite pydiv_ok by exact HL. reflexivity.
  - apply truthy_false in Ht. subst P2.
    cbn [bind]. rewrite pydiv_ok by exact HL. cbn [bind].
    replace (P * a + 0 * match a2 with Some v => v | None => 0 end) with (P * a + 0)
      by ring.
    reflexivity.
Qed.

End ReactionBounds.

Lemma valid_scenario_D : valid scenario_D.
Proof.
  unfold valid, scenario_D; simpl.
  repeat split; try reflexivity; try discriminate; lia.
Qed.

(** X3: moving every load from a to L - a exchanges the two reactions; a
    load case that is its own mirror image, and two equal loads at a and
    L - a, have R1 = R2. *)
Theorem X3_mirrored_loads_swap_reactions (cfg : LoadConfiguration) :
  L cfg <> 0 -> positions_known (load_case cfg) ->
  exists r1 r2,
    solve_reactions cfg = Ok (r1, r2) /\
    solve_reactions (with_loads cfg (mirror_loads (L cfg) (load_case cfg))) = Ok (r2, r1) /\
    (mirror_loads (L cfg) (load_case cfg) = load_case cfg -> r1 = r2) /\
    (forall P a, load_case cfg = PointLoad P a P (Some (L cfg - a)) -> r1 = r2).
Proof.
  intros HL Hk.
  assert (Hswap : exists r1 r2,
            solve_reactions cfg = Ok (r1, r2) /\
            solve_reactions (with_loads cfg (mirror_loads (L cfg) (load_case cfg)))
            = Ok (r2, r1)).
  { destruct (load_case cfg) as [P a P2 a2 | w] eqn:Hlc.
    - rewrite <- Hlc in Hk.
      rewrite (valid_point_reactions cfg P a P2 a2 HL Hk Hlc).
      set (mir := with_loads cfg (mirror_loads (L cfg) (PointLoad P a P2 a2))).
      assert (Hmk : positions_known (load_case mir)).
      { rewrite Hlc in Hk. unfold mir. simpl in *. destruct a2; exact Hk. }
      rewrite (valid_point_reactions mir P (L cfg - a) P2
                 (match a2 with Some v => Some (L cfg - v) | None => None end)
                 HL Hmk eq_refl).
      eexists. eexists. split; [reflexivity |].
      change (L mir) with (L cfg).
      rewrite Hlc in Hk. simpl in Hk.
      destruct a2 as [v |]; [| subst P2]; f_equal; f_equal; field; exact HL.
    - unfold solve_reactions. simpl. rewrite Hlc.
      eexists. eexists. split; reflexivity. }
  destruct Hswap as [r1 [r2 [H1 H2]]].
  exists r1, r2. split; [exact H1 |]. split; [exact H2 |]. split.
  - intro Hsym. rewrite Hsym in H2.
    assert (Heq : with_loads cfg (load_case cfg) = cfg) by (destruct cfg; reflexivity).
    rewrite Heq in H2. congruence.
  - intros P a Hlc.
    rewrite (valid_point_reactions cfg P a P (Some (L cfg - a)) HL Hk Hlc) in H1.
    injection H1 as <- <-. field. exact HL.
Qed.

Lemma X3_mirrored_loads_swap_reactions_witness :
  exists r1 r2,
    solve_reactions scenario_D = Ok (r1, r2) /\
    solve_reactions
      (with_loads scenario_D (mirror_loads (L scenario_D) (load_case scenario_D)))
    = Ok (r2, r1) /\
    (mirror_loads (L scenario_D) (load_case scenario_D) = load_case scenario_D ->
     r1 = r2) /\
    (forall P a,
       load_case scenario_D = PointLoad P a P (Some (L scenario_D - a)) -> r1 = r2).
Proof.
  apply (X3_mirrored_loads_swap_reactions scenario_D).
  - intro H. discriminate H.
  - exact Logic.I.
Defined.

(** ** When the run returns (lines 50-117) *)

Section RunOutcome.

Lemma runnable_positions_known (cfg : LoadConfiguration) :
  runnable cfg -> positions_known (load_case cfg).
Proof.
  intros [_ H]. destruct (load_case cfg) as [P a P2 [a2 |] | w]; simpl in *;
    try exact Logic.I.
  destruct H as [_ H]. apply H. reflexivity.
Qed.

Lemma runnable_reactions (cfg : LoadConfiguration) :
  runnable cfg -> exists r1 r2, solve_reactions cfg = Ok (r1, r2).
Proof.
  intro Hrun. pose proof (runnable_positions_known cfg Hrun) as Hk.
  destruct Hrun as [_ H].
  destruct (load_case cfg) as [P a P2 a2 | w] eqn:Hlc.
  - apply solve_reactions_ok; [tauto | rewrite Hlc; exact Hk].
  - unfold solve_reactions. rewrite Hlc. eauto.
Qed.

Lemma runnable_analyze (cfg : LoadConfiguration) :
  runnable cfg ->
  exists r1 r2 v m ys ex,
    solve_reactions cfg = Ok (r1, r2) /\
    build_profile cfg r1 (positions cfg) = Ok {| V := v; M := m |} /\
    solve_deflection cfg m (positions cfg) = Ok ys /\
    find_extremes ys (positions cfg) = Ok ex /\
    analyze cfg =
    Ok {| x := positions cfg; R1 := r1; R2 := r2;
          profile := {| V := v; M := m |}; y := ys; extremes := ex |}.
Proof.
  intro Hrun. pose proof (runnable_positions_known cfg Hrun) as Hk.
  assert (Hne : positions cfg <> []) by (apply positions_nonempty; apply Hrun).
  destruct (runnable_reactions cfg Hrun) as [r1 [r2 Hr]].
  destruct (build_profile_ok cfg r1 (positions cfg) Hk Hne)
    as [v [m [_ [_ [Hp [_ Hlm]]]]]].
  destruct (solve_deflection_ok cfg m (positions cfg) Hne Hlm)
    as [slope [y0 [ys [_ [_ [Hys [_ [_ [Hly _]]]]]]]]].
  assert (Hyne : ys <> []) by (destruct ys, (positions cfg); simpl in *; congruence).
  destruct (find_extremes_total ys (positions cfg) Hyne (eq_sym Hly)) as [ex Hex].
  exists r1, r2, v, m, ys, ex.
  repeat split; try assumption.
  unfold analyze. fold (positions cfg).
  rewrite Hr. cbn [bind]. rewrite Hp. cbn [bind M]. rewrite Hys. cbn [bind].
  rewrite Hex. reflexivity.
Qed.

Lemma zero_length_run (cfg : LoadConfiguration) (P a P2 : Qc) (a2 : option Qc) :
  load_case cfg = PointLoad P a P2 a2 -> L cfg = 0 ->
  analyze cfg = Raise ZeroDivisionError.
Proof.
  intros Hlc HL. unfold analyze, solve_reactions. rewrite Hlc, HL.
  unfold general_branch, reactions_moment_balance, reactions_single, truthy.
  destruct (eqb P2 0) eqn:He; simpl; [reflexivity |].
  destruct a2 as [v |]; reflexivity.
Qed.

Lemma unplaced_load_run (cfg : LoadConfiguration) (P a P2 : Qc) :
  load_case cfg = PointLoad P a P2 None -> L cfg <> 0 -> P2 <> 0 ->
  solve_reactions cfg = Ok (P * (L cfg - a) / L cfg, P - P * (L cfg - a) / L cfg) /\
  analyze cfg = Raise TypeError.
Proof.
  intros Hlc HL HP2.
  assert (Ht : truthy P2 = true) by (apply truthy_true; exact HP2).
  assert (He : eqb P2 0 = false) by (apply eqb_neq; exact HP2).
  assert (Hr : solve_reactions cfg
               = Ok (P * (L cfg - a) / L cfg, P - P * (L cfg - a) / L cfg)).
  { unfold solve_reactions. rewrite Hlc.
    unfold general_branch. rewrite Ht, He. simpl.
    unfold reactions_single. rewrite pydiv_ok by exact HL. reflexivity. }
  split; [exact Hr |].
  unfold analyze. rewrite Hr. cbn [bind].
  unfold build_profile, shear. rewrite Hlc, Ht. reflexivity.
Qed.

Lemma no_samples_run (cfg : LoadConfiguration) :
  npts cfg = 0%nat -> forall r, analyze cfg <> Ok r.
Proof.
  intros Hn r Hr. unfold analyze in Hr. rewrite Hn in Hr.
  change (linspace 0 (L cfg) 0) with (@nil Qc) in Hr.
  destruct (solve_reactions cfg) as [[r1 r2] | e]; [| discriminate Hr].
  cbn [bind] in Hr. unfold build_profile, shear in Hr.
  destruct (load_case cfg) as [P a P2 a2 | w].
  - destruct (truthy P2); [destruct a2 |]; discriminate Hr.
  - discriminate Hr.
Qed.

Lemma no_samples_error (cfg : LoadConfiguration) :
  npts cfg = 0%nat -> positions_known (load_case cfg) ->
  forall e, analyze cfg = Raise e -> e = ZeroDivisionError \/ e = ValueError.
Proof.
  intros Hn Hk e He. unfold analyze in He. rewrite Hn in He.
  change (linspace 0 (L cfg) 0) with (@nil Qc) in He.
  destruct (solve_reactions cfg) as [[r1 r2] | e'] eqn:Hr.
  - cbn [bind] in He. unfold build_profile, shear in He.
    destruct (load_case cfg) as [P a P2 a2 | w].
    + destruct (truthy P2) eqn:Ht.
      * destruct a2 as [v |].
        -- injection He as <-. right. reflexivity.
        -- simpl in Hk. apply truthy_true in Ht. contradiction.
      * injection He as <-. right. reflexivity.
    + injection He as <-. right. reflexivity.
  - cbn [bind] in He. injection He as <-.
    unfold solve_reactions in Hr.
    destruct (load_case cfg) as [P a P2 a2 | w] eqn:Hlc; [| discriminate Hr].
    rewrite (general_branch_known _ P a P2 a2 eq_refl Hk) in Hr.
    unfold reactions_moment_balance in Hr.
    destruct (truthy P2) eqn:Ht.
    + destruct a2 as [v |];
        [| simpl in Hk; apply truthy_true in Ht; contradiction].
      cbn [bind] in Hr. unfold pydiv in Hr.
      destruct (eqb (L cfg) 0); [| discriminate Hr].
      injection Hr as <-. left. reflexivity.
    + cbn [bind] in Hr. unfold pydiv in Hr.
      destruct (eqb (L cfg) 0); [| discriminate Hr].
      injection Hr as <-. left. reflexivity.
Qed.

End RunOutcome.

(** X4: the run returns a result exactly when there is at least one
    sample and, for point loads, L is not zero and a second load of non-zero
    magnitude has a position.  Otherwise it raises ZeroDivisionError (point
    loads on a beam of length zero), TypeError (with samples, a second load
    without a position, whose reactions were computed from the first load
    alone) or ValueError (no sample); it never raises IndexError. *)
Theorem X4_run_returns_iff_runnable (cfg : LoadConfiguration) :
  ((exists r, analyze cfg = Ok r) <-> runnable cfg) /\
  (forall e, analyze cfg = Raise e ->
     e = ZeroDivisionError \/ e = TypeError \/ e = ValueError) /\
  (forall P a P2 a2,
     load_case cfg = PointLoad P a P2 a2 -> L cfg = 0 ->
     analyze cfg = Raise ZeroDivisionError) /\
  (forall P a P2,
     load_case cfg = PointLoad P a P2 None -> (1 <= npts cfg)%nat ->
     L cfg <> 0 -> P2 <> 0 ->
     solve_reactions cfg = Ok (P * (L cfg - a) / L cfg, P - P * (L cfg - a) / L cfg) /\
     analyze cfg = Raise TypeError).
Proof.
  assert (Hiff : (exists r, analyze cfg = Ok r) <-> runnable cfg).
  { split.
    - intros [r Hr]. unfold runnable.
      split.
      + destruct (npts cfg) as [| n] eqn:Hn; [| lia].
        exfalso. exact (no_samples_run cfg Hn r Hr).
      + destruct (load_case cfg) as [P a P2 a2 | w] eqn:Hlc; [| exact Logic.I].
        split.
        * intro HL. rewrite (zero_length_run cfg P a P2 a2 Hlc HL) in Hr. discriminate Hr.
        * intros ->. destruct (Qc_eq_dec P2 0) as [H0 | H0]; [exact H0 |].
          destruct (Qc_eq_dec (L cfg) 0) as [HL | HL].
          -- rewrite (zero_length_run cfg P a P2 None Hlc HL) in Hr. discriminate Hr.
          -- destruct (unplaced_load_run cfg P a P2 Hlc HL H0) as [_ Ht].
             rewrite Ht in Hr. discriminate Hr.
    - intro Hrun.
      destruct (runnable_analyze cfg Hrun) as [r1 [r2 [v [m [ys [ex [_ [_ [_ [_ H]]]]]]]]]].
      eexists. exact H. }
  split; [exact Hiff |].
  split.
  { intros e He.
    destruct (load_case cfg) as [P a P2 a2 | w] eqn:Hlc.
    - destruct (Qc_eq_dec (L cfg) 0) as [HL | HL].
      + rewrite (zero_length_run cfg P a P2 a2 Hlc HL) in He.
        injection He as <-. left. reflexivity.
      + destruct a2 as [v |].
        * destruct (npts cfg) as [| n] eqn:Hn.
          -- destruct (no_samples_error cfg Hn) with (e := e) as [-> | ->];
               [rewrite Hlc; exact Logic.I | exact He | tauto | tauto].
          -- assert (Hrun : runnable cfg).
             { unfold runnable. rewrite Hlc, Hn. split; [lia |].
               split; [exact HL | discriminate]. }
             apply Hiff in Hrun. destruct Hrun as [r Hr]. congruence.
        * destruct (Qc_eq_dec P2 0) as [H0 | H0].
          -- destruct (npts cfg) as [| n] eqn:Hn.
             ++ destruct (no_samples_error cfg Hn) with (e := e) as [-> | ->];
                  [rewrite Hlc; exact H0 | exact He | tauto | tauto].
             ++ assert (Hrun : runnable cfg).
                { unfold runnable. rewrite Hlc, Hn. split; [lia |].
                  split; [exact HL | intros _; exact H0]. }
                apply Hiff in Hrun. destruct Hrun as [r Hr]. congruence.
          -- destruct (unplaced_load_run cfg P a P2 Hlc HL H0) as [_ Ht].
             rewrite Ht in He. injection He as <-. right; left. reflexivity.
    - destruct (npts cfg) as [| n] eqn:Hn.
      + destruct (no_samples_error cfg Hn) with (e := e) as [-> | ->];
          [rewrite Hlc; exact Logic.I | exact He | tauto | tauto].
      + assert (Hrun : runnable cfg).
        { unfold runnable. rewrite Hlc, Hn. split; [lia | exact Logic.I]. }
        apply Hiff in Hrun. destruct Hrun as [r Hr]. congruence. }
  split.
  - intros P a P2 a2 Hlc HL. exact (zero_length_run cfg P a P2 a2 Hlc HL).
  - intros P a P2 Hlc _ HL H0. exact (unplaced_load_run cfg P a P2 Hlc HL H0).
Qed.

(** ** The parts of a run *)

Section RunParts.

Lemma run_parts (cfg : LoadConfiguration) :
  runnable cfg ->
  exists r1 r2 v m slope y0 ys ex,
    solve_reactions cfg = Ok (r1, r2) /\
    shear cfg r1 (positions cfg) = Ok v /\
    cumtrapz v (positions cfg) = Ok m /\
    cumtrapz (map (fun u => u / (E cfg * I cfg)) m) (positions cfg) = Ok slope /\
    cumtrapz slope (positions cfg) = Ok y0 /\
    solve_deflection cfg m (positions cfg) = Ok ys /\
    (forall i, (i < npts cfg)%nat ->
       nth i ys 0 =
       nth i y0 0 + (- nth (npts cfg - 1) y0 0 / L cfg) * nth i (positions cfg) 0) /\
    find_extremes ys (positions cfg) = Ok ex /\
    (length v = npts cfg /\ length m = npts cfg /\ length slope = npts cfg /\
     length y0 = npts cfg /\ length ys = npts cfg) /\
    analyze cfg =
    Ok {| x := positions cfg; R1 := r1; R2 := r2;
          profile := {| V := v; M := m |}; y := ys; extremes := ex |}.
Proof.
  intro Hrun. pose proof (runnable_positions_known cfg Hrun) as Hk.
  assert (Hne : positions cfg <> []) by (apply positions_nonempty; apply Hrun).
  pose proof (positions_length cfg) as Hlen.
  destruct (runnable_reactions cfg Hrun) as [r1 [r2 Hr]].
  destruct (build_profile_ok cfg r1 (positions cfg) Hk Hne)
    as [v [m [Hv [Hm [Hp [Hlv Hlm]]]]]].
  destruct (solve_deflection_ok cfg m (positions cfg) Hne Hlm)
    as [slope [y0 [ys [Hs [Hy0 [Hys [Hls [Hly0 [Hly [_ Hform]]]]]]]]]].
  assert (Hyne : ys <> []) by (destruct ys, (positions cfg); simpl in *; congruence).
  destruct (find_extremes_total ys (positions cfg) Hyne (eq_sym Hly)) as [ex Hex].
  exists r1, r2, v, m, slope, y0, ys, ex.
  split; [exact Hr |]. split; [exact Hv |]. split; [exact Hm |].
  split; [exact Hs |]. split; [exact Hy0 |]. split; [exact Hys |].
  split; [intros i Hi; rewrite <- Hlen; apply Hform; rewrite Hlen; exact Hi |].
  split; [exact Hex |].
  split; [repeat split; congruence |].
  unfold analyze. fold (positions cfg).
  rewrite Hr. cbn [bind]. rewrite Hp. cbn [bind M]. rewrite Hys. cbn [bind].
  rewrite Hex. reflexivity.
Qed.

Lemma valid_runnable (cfg : LoadConfiguration) : valid cfg -> runnable cfg.
Proof.
  intros [HL [_ [_ [Hn Hloads]]]]. unfold runnable. split; [lia |].
  destruct (load_case cfg) as [P a P2 a2 | w]; [| exact Logic.I].
  split; [apply pos_neq_0; exact HL |].
  intros ->. simpl in Hloads. tauto.
Qed.

Lemma point_shear_nth
  (cfg : LoadConfiguration) (P a P2 : Qc) (a2 : option Qc)
  (r1 : Qc) (xs v : list Qc) (i : nat) :
  load_case cfg = PointLoad P a P2 a2 -> shear cfg r1 xs = Ok v ->
  (i < length xs)%nat ->
  nth i v 0 = r1 - load_up_to (point_loads (load_case cfg)) (nth i xs 0).
Proof.
  intros Hlc Hv Hi. unfold shear in Hv. rewrite Hlc in *.
  set (v0 := map (fun u => u + r1) (zeros_like xs)) in *.
  assert (H0 : length v0 = length xs)
    by (unfold v0, zeros_like; rewrite !length_map; reflexivity).
  assert (Hv0 : nth i v0 0 = 0 + r1).
  { unfold v0. rewrite nth_map_in by (unfold zeros_like; rewrite length_map; exact Hi).
    unfold zeros_like. rewrite nth_map_in by exact Hi. reflexivity. }
  set (v1 := where_lt xs a v0 (map (fun u => u - P) v0)) in *.
  assert (H1 : length v1 = length xs)
    by (apply where_lt_length; [| rewrite length_map]; exact H0).
  assert (Hv1 : nth i v1 0 = if ltb (nth i xs 0) a then 0 + r1 else 0 + r1 - P).
  { unfold v1. rewrite nth_where_lt; [| exact H0 | rewrite length_map; exact H0 | exact Hi].
    rewrite nth_map_in by (rewrite H0; exact Hi). rewrite Hv0. reflexivity. }
  destruct (truthy P2) eqn:Ht.
  - destruct a2 as [a2 |]; [| discriminate Hv].
    injection Hv as <-.
    rewrite nth_where_lt; [| exact H1 | rewrite length_map; exact H1 | exact Hi].
    rewrite nth_map_in by (rewrite H1; exact Hi). rewrite Hv1.
    simpl. rewrite !leb_negb_ltb.
    destruct (ltb (nth i xs 0) a), (ltb (nth i xs 0) a2); simpl; ring.
  - injection Hv as <-. rewrite Hv1.
    apply truthy_false in Ht. subst P2.
    destruct a2 as [a2 |]; simpl; rewrite !leb_negb_ltb;
      destruct (ltb (nth i xs 0) a); try destruct (ltb (nth i xs 0) a2); simpl; ring.
Qed.

Lemma udl_shear_nth
  (cfg : LoadConfiguration) (w r1 : Qc) (xs v : list Qc) (i : nat) :
  load_case cfg = UDL w -> shear cfg r1 xs = Ok v -> (i < length xs)%nat ->
  nth i v 0 = r1 - w * nth i xs 0.
Proof.
  intros Hlc Hv Hi. unfold shear in Hv. rewrite Hlc in Hv.
  injection Hv as <-. apply nth_map_in. exact Hi.
Qed.

Lemma leb_le (u v : Qc) : leb u v = true <-> u <= v.
Proof.
  rewrite leb_negb_ltb, negb_true_iff. apply ltb_ge.
Qed.

Lemma leb_gt (u v : Qc) : leb u v = false <-> v < u.
Proof.
  rewrite leb_negb_ltb, negb_false_iff. apply ltb_lt.
Qed.

Lemma load_up_to_bounds (len : Qc) (P a P2 : Qc) (a2 : option Qc) (xi : Qc) :
  loads_valid len (PointLoad P a P2 a2) ->
  0 <= load_up_to (point_loads (PointLoad P a P2 a2)) xi /\
  load_up_to (point_loads (PointLoad P a P2 a2)) xi <= P + P2.
Proof.
  intros [HP [_ [HP2 Ha2]]].
  destruct a2 as [v |]; simpl.
  - destruct (leb a xi), (leb v xi); split; to_Q; lra.
  - subst P2. destruct (leb a xi); split; to_Q; lra.
Qed.

Lemma max_is (l : list Qc) (top : Qc) (k : nat) :
  (k < length l)%nat -> nth k l 0 = top ->
  (forall i, (i < length l)%nat -> nth i l 0 <= top) ->
  np_max l = Ok top.
Proof.
  intros Hk Hnth Hle.
  assert (Hne : l <> []) by (destruct l; [simpl in Hk; lia | discriminate]).
  destruct (np_max_spec l Hne) as [hi [Hhi [Hin Hge]]].
  rewrite Hhi. f_equal. apply Qcle_antisym.
  - destruct (In_nth _ _ 0 Hin) as [j [Hj <-]]. apply Hle. exact Hj.
  - apply Hge. rewrite <- Hnth. apply nth_In. exact Hk.
Qed.

Lemma min_is (l : list Qc) (bot : Qc) (k : nat) :
  (k < length l)%nat -> nth k l 0 = bot ->
  (forall i, (i < length l)%nat -> bot <= nth i l 0) ->
  np_min l = Ok bot.
Proof.
  intros Hk Hnth Hle.
  assert (Hne : l <> []) by (destruct l; [simpl in Hk; lia | discriminate]).
  destruct (np_min_spec l Hne) as [lo [Hlo [Hin Hge]]].
  rewrite Hlo. f_equal. apply Qcle_antisym.
  - apply Hge. rewrite <- Hnth. apply nth_In. exact Hk.
  - destruct (In_nth _ _ 0 Hin) as [j [Hj <-]]. apply Hle. exact Hj.
Qed.

End RunParts.

(** ** The extremes of the shear (lines 70-76, 85 and 122) *)

(** X6: on a valid configuration whose point loads sit to the right of the
    left support (any distributed load qualifies), the shear starts at R1,
    ends at -R2 and stays between the two; so the displayed maximum shear is
    R1 and the displayed minimum shear is -R2. *)
Theorem X6_shear_between_reactions (cfg : LoadConfiguration) :
  valid cfg ->
  match load_case cfg with
  | PointLoad _ a _ a2 => 0 < a /\ (forall v, a2 = Some v -> 0 < v)
  | UDL _ => True
  end ->
  exists r pe,
    analyze cfg = Ok r /\
    profile_extremes (profile r) = Ok pe /\
    nth 0 (V (profile r)) 0 = R1 r /\
    nth (npts cfg - 1) (V (profile r)) 0 = - R2 r /\
    (forall i, (i < npts cfg)%nat ->
       - R2 r <= nth i (V (profile r)) 0 /\ nth i (V (profile r)) 0 <= R1 r) /\
    V_max pe = R1 r /\ V_min pe = - R2 r.
Proof.
  intros Hvalid Hoff. pose proof Hvalid as [HL [_ [_ [Hn Hloads]]]].
  assert (HL0 : L cfg <> 0) by (apply pos_neq_0; exact HL).
  pose proof (valid_positions_known cfg Hvalid) as Hk.
  pose proof (positions_length cfg) as Hlen.
  destruct (run_parts cfg (valid_runnable cfg Hvalid))
    as [r1 [r2 [v [m [slope [y0 [ys [ex [Hr [Hv [Hm [_ [_ [_ [_ [_ [Hls Hrun]]]]]]]]]]]]]]]]].
  destruct Hls as [Hlv [Hlm _]].
  assert (Hfacts :
            nth 0 v 0 = r1 /\ nth (npts cfg - 1) v 0 = - r2 /\
            forall i, (i < npts cfg)%nat -> - r2 <= nth i v 0 /\ nth i v 0 <= r1).
  { destruct (load_case cfg) as [P a P2 a2 | w] eqn:Hlc.
    - destruct Hoff as [Ha Ha2].
      rewrite <- Hlc in Hk.
      rewrite (valid_point_reactions cfg P a P2 a2 HL0 Hk Hlc) in Hr.
      injection Hr as Hr1 Hr2.
      assert (Hnth : forall i, (i < npts cfg)%nat ->
                nth i v 0 = r1 - load_up_to (point_loads (PointLoad P a P2 a2))
                                            (nth i (positions cfg) 0)).
      { intros i Hi. rewrite <- Hlc.
        apply (point_shear_nth cfg P a P2 a2 r1 (positions cfg) v i Hlc Hv).
        rewrite Hlen. exact Hi. }
      pose proof Hloads as [HP [[_ HaL] [HP2 Hv2]]].
      split; [| split].
      + rewrite Hnth by lia. rewrite positions_first by lia.
        assert (H1 : leb a 0 = false) by (apply leb_gt; exact Ha).
        simpl. rewrite H1.
        destruct a2 as [u |]; simpl.
        * assert (H2 : leb u 0 = false) by (apply leb_gt; apply Ha2; reflexivity).
          rewrite H2. ring.
        * ring.
      + rewrite Hnth by lia. rewrite positions_last by exact Hn.
        assert (H1 : leb a (L cfg) = true) by (apply leb_le; exact HaL).
        simpl. rewrite H1.
        destruct a2 as [u |]; simpl.
        * assert (H2 : leb u (L cfg) = true) by (apply leb_le; tauto).
          rewrite H2. rewrite <- Hr1, <- Hr2. ring.
        * subst P2. rewrite <- Hr1, <- Hr2. ring.
      + intros i Hi. rewrite Hnth by exact Hi.
        destruct (load_up_to_bounds (L cfg) P a P2 a2 (nth i (positions cfg) 0) Hloads)
          as [Hlo Hhi].
        assert (Hsum : r1 + r2 = P + P2) by (rewrite <- Hr1, <- Hr2; ring).
        split; to_Q; lra.
    - unfold solve_reactions in Hr. rewrite Hlc in Hr. injection Hr as Hr1 Hr2.
      assert (Hnth : forall i, (i < npts cfg)%nat ->
                nth i v 0 = r1 - w * nth i (positions cfg) 0).
      { intros i Hi. apply (udl_shear_nth cfg w r1 (positions cfg) v i Hlc Hv).
        rewrite Hlen. exact Hi. }
      assert (Hhalf : r1 + r2 = w * L cfg /\ r1 = r2).
      { rewrite <- Hr1, <- Hr2. split; [| reflexivity].
        unfold two. field. exact two_neq_0. }
      destruct Hhalf as [Hsum Heq].
      simpl in Hloads.
      split; [| split].
      + rewrite Hnth by lia. rewrite positions_first by lia. ring.
      + rewrite Hnth by lia. rewrite positions_last by exact Hn.
        to_Q. lra.
      + intros i Hi. rewrite Hnth by exact Hi.
        destruct (positions_within cfg i Hn HL Hi) as [Hx0 HxL].
        split; to_Q; nra. }
  destruct Hfacts as [Hfirst [Hlast Hbetween]].
  assert (Hmax : np_max v = Ok r1).
  { apply (max_is v r1 0%nat); [lia | exact Hfirst |].
    intros i Hi. apply Hbetween. lia. }
  assert (Hmin : np_min v = Ok (- r2)).
  { apply (min_is v (- r2) (npts cfg - 1)%nat); [lia | exact Hlast |].
    intros i Hi. apply Hbetween. lia. }
  assert (Hmne : m <> []) by (destruct m; [simpl in Hlm; lia | discriminate]).
  destruct (np_max_spec m Hmne) as [mhi [Hmhi _]].
  destruct (np_min_spec m Hmne) as [mlo [Hmlo _]].
  eexists. eexists. split; [exact Hrun |]. cbn [profile R1 R2 V].
  split.
  { unfold profile_extremes. cbn [M V].
    rewrite Hmhi. cbn [bind]. rewrite Hmlo. cbn [bind].
    rewrite Hmax. cbn [bind]. rewrite Hmin. cbn [bind]. reflexivity. }
  cbn [V_max V_min]. auto.
Qed.

Lemma X6_shear_between_reactions_witness :
  exists r pe,
    analyze scenario_D = Ok r /\
    profile_extremes (profile r) = Ok pe /\
    nth 0 (V (profile r)) 0 = R1 r /\
    nth (npts scenario_D - 1) (V (profile r)) 0 = - R2 r /\
    (forall i, (i < npts scenario_D)%nat ->
       - R2 r <= nth i (V (profile r)) 0 /\ nth i (V (profile r)) 0 <= R1 r) /\
    V_max pe = R1 r /\ V_min pe = - R2 r.
Proof.
  apply (X6_shear_between_reactions scenario_D valid_scenario_D).
  split; [reflexivity |].
  intros v Hv. injection Hv as <-. reflexivity.
Defined.

(** ** The moment of the distributed load (lines 84-86 and 121) *)

Section DistributedMoment.

Lemma cumtrapz_affine (xs v m : list Qc) (c0 c1 : Qc) :
  xs <> [] -> length v = length xs ->
  (forall i, (i < length xs)%nat -> nth i v 0 = c0 - c1 * nth i xs 0) ->
  nth 0 xs 0 = 0 ->
  cumtrapz v xs = Ok m ->
  forall i, (i < length xs)%nat ->
    nth i m 0 = c0 * nth i xs 0 - c1 * (nth i xs 0 * nth i xs 0) / two.
Proof.
  intros Hne Hlv Hv Hx0 Hm.
  assert (Hvne : v <> []) by (destruct v, xs; simpl in *; congruence).
  destruct (cumtrapz_ok v xs Hvne (eq_sym Hlv)) as [m' [Hm' [_ [H0 Hstep]]]].
  assert (m' = m) by congruence. subst m'.
  induction i as [| i IH]; intro Hi.
  - rewrite H0, Hx0. unfold Qcdiv. ring.
  - rewrite Hstep by (rewrite Hlv; exact Hi).
    rewrite IH by lia. unfold trapezoid.
    rewrite (Hv i) by lia. rewrite (Hv (S i)) by exact Hi.
    unfold two. field. exact two_neq_0.
Qed.

Lemma of_nat_inj (i j : nat) : of_nat i = of_nat j -> i = j.
Proof.
  intro H.
  destruct (Nat.lt_trichotomy i j) as [Hlt | [Heq | Hgt]]; [| exact Heq |].
  - apply of_nat_lt in Hlt. rewrite H in Hlt.
    exfalso. exact (Qclt_not_eq _ _ Hlt eq_refl).
  - apply of_nat_lt in Hgt. rewrite H in Hgt.
    exfalso. exact (Qclt_not_eq _ _ Hgt eq_refl).
Qed.

Lemma of_nat_add (i j : nat) : of_nat (i + j) = of_nat i + of_nat j.
Proof.
  induction i as [| i IH]; simpl.
  - change (of_nat 0) with 0. ring.
  - rewrite !of_nat_S, IH. ring.
Qed.

End DistributedMoment.

Lemma valid_scenario_B : valid scenario_B.
Proof.
  unfold valid, scenario_B; simpl.
  repeat split; try reflexivity; try discriminate; lia.
Qed.

(** ** The integrals are linear in what they integrate *)

Section Linearity.

Lemma cumtrapz_lincomb (xs a b c ma mb mc : list Qc) (al be : Qc) :
  a <> [] -> length xs = length a -> length b = length a -> length c = length a ->
  (forall i, (i < length a)%nat -> nth i c 0 = al * nth i a 0 + be * nth i b 0) ->
  cumtrapz a xs = Ok ma -> cumtrapz b xs = Ok mb -> cumtrapz c xs = Ok mc ->
  forall i, (i < length a)%nat -> nth i mc 0 = al * nth i ma 0 + be * nth i mb 0.
Proof.
  intros Hne Hlx Hlb Hlc Hc Ha Hb Hcc.
  assert (Hbne : b <> []) by (destruct b, a; simpl in *; congruence).
  assert (Hcne : c <> []) by (destruct c, a; simpl in *; congruence).
  destruct (cumtrapz_ok a xs Hne Hlx) as [ma' [Ha' [_ [Ha0 Hastep]]]].
  destruct (cumtrapz_ok b xs Hbne) as [mb' [Hb' [_ [Hb0 Hbstep]]]]; [congruence |].
  destruct (cumtrapz_ok c xs Hcne) as [mc' [Hc' [_ [Hc0 Hcstep]]]]; [congruence |].
  assert (ma' = ma) by congruence. assert (mb' = mb) by congruence.
  assert (mc' = mc) by congruence. subst ma' mb' mc'.
  induction i as [| i IH]; intro Hi.
  - rewrite Ha0, Hb0, Hc0. ring.
  - rewrite Hastep by exact Hi.
    rewrite Hbstep by (rewrite Hlb; exact Hi).
    rewrite Hcstep by (rewrite Hlc; exact Hi).
    rewrite IH by lia. unfold trapezoid.
    rewrite (Hc i) by lia. rewrite (Hc (S i)) by exact Hi.
    unfold Qcdiv. ring.
Qed.

Lemma cumtrapz_prefix_zero (xs a ma : list Qc) (k : nat) :
  a <> [] -> length xs = length a -> (k <= length a)%nat ->
  (forall i, (i < k)%nat -> nth i a 0 = 0) ->
  cumtrapz a xs = Ok ma ->
  forall i, (i < k)%nat -> nth i ma 0 = 0.
Proof.
  intros Hne Hlx Hk Hz Ha.
  destruct (cumtrapz_ok a xs Hne Hlx) as [ma' [Ha' [_ [H0 Hstep]]]].
  assert (ma' = ma) by congruence. subst ma'.
  induction i as [| i IH]; intro Hi; [exact H0 |].
  rewrite Hstep by lia. rewrite IH by lia.
  unfold trapezoid. rewrite (Hz i) by lia. rewrite (Hz (S i)) by exact Hi.
  unfold Qcdiv. ring.
Qed.

Lemma cumtrapz_step (xs a ma : list Qc) (i : nat) :
  a <> [] -> length xs = length a -> cumtrapz a xs = Ok ma ->
  (S i < length a)%nat ->
  nth (S i) ma 0 = nth i ma 0 + trapezoid xs a i.
Proof.
  intros Hne Hlx Ha Hi.
  destruct (cumtrapz_ok a xs Hne Hlx) as [ma' [Ha' [_ [_ Hstep]]]].
  assert (ma' = ma) by congruence. subst ma'. apply Hstep. exact Hi.
Qed.

Lemma nonempty_of_length (l : list Qc) (n : nat) :
  length l = n -> (1 <= n)%nat -> l <> [].
Proof. intros Hl Hn ->. simpl in Hl. lia. Qed.

End Linearity.

Section DeflectionLinearity.

Lemma deflection_lincomb
  (cfgA cfgB cfgC : LoadConfiguration) (al be : Qc)
  (mA mB mC ysA ysB ysC : list Qc) :
  L cfgA = L cfgC -> L cfgB = L cfgC ->
  npts cfgA = npts cfgC -> npts cfgB = npts cfgC ->
  E cfgA * I cfgA = E cfgC * I cfgC -> E cfgB * I cfgB = E cfgC * I cfgC ->
  (1 <= npts cfgC)%nat ->
  length mA = npts cfgC -> length mB = npts cfgC -> length mC = npts cfgC ->
  (forall i, (i < npts cfgC)%nat -> nth i mC 0 = al * nth i mA 0 + be * nth i mB 0) ->
  solve_deflection cfgA mA (positions cfgA) = Ok ysA ->
  solve_deflection cfgB mB (positions cfgB) = Ok ysB ->
  solve_deflection cfgC mC (positions cfgC) = Ok ysC ->
  forall i, (i < npts cfgC)%nat -> nth i ysC 0 = al * nth i ysA 0 + be * nth i ysB 0.
Proof.
  intros HLA HLB HnA HnB HEA HEB Hn HlA HlB HlC Hm HA HB HC.
  assert (HpA : positions cfgA = positions cfgC)
    by (unfold positions; rewrite HLA, HnA; reflexivity).
  assert (HpB : positions cfgB = positions cfgC)
    by (unfold positions; rewrite HLB, HnB; reflexivity).
  rewrite HpA in HA. rewrite HpB in HB.
  set (xs := positions cfgC) in *.
  assert (Hlen : length xs = npts cfgC) by apply positions_length.
  assert (Hne : xs <> []) by (apply positions_nonempty; exact Hn).
  destruct (solve_deflection_ok cfgA mA xs Hne)
    as [sA [yA [ysA' [HsA [HyA [HysA [HlsA [HlyA [_ [_ HfA]]]]]]]]]]; [congruence |].
  destruct (solve_deflection_ok cfgB mB xs Hne)
    as [sB [yB [ysB' [HsB [HyB [HysB [HlsB [HlyB [_ [_ HfB]]]]]]]]]]; [congruence |].
  destruct (solve_deflection_ok cfgC mC xs Hne)
    as [sC [yC [ysC' [HsC [HyC [HysC [HlsC [HlyC [_ [_ HfC]]]]]]]]]]; [congruence |].
  assert (ysA' = ysA) by congruence. assert (ysB' = ysB) by congruence.
  assert (ysC' = ysC) by congruence. subst ysA' ysB' ysC'.
  rewrite HEA in HsA. rewrite HEB in HsB.
  set (ei := E cfgC * I cfgC) in *.
  set (kA := map (fun v => v / ei) mA) in *.
  set (kB := map (fun v => v / ei) mB) in *.
  set (kC := map (fun v => v / ei) mC) in *.
  assert (HlkA : length kA = npts cfgC) by (unfold kA; rewrite length_map; exact HlA).
  assert (HlkB : length kB = npts cfgC) by (unfold kB; rewrite length_map; exact HlB).
  assert (HlkC : length kC = npts cfgC) by (unfold kC; rewrite length_map; exact HlC).
  assert (Hk : forall i, (i < length kA)%nat ->
            nth i kC 0 = al * nth i kA 0 + be * nth i kB 0).
  { intros i Hi. rewrite HlkA in Hi. unfold kA, kB, kC.
    rewrite !nth_map_in by lia. rewrite Hm by lia. unfold Qcdiv. ring. }
  assert (Hs : forall i, (i < length kA)%nat ->
            nth i sC 0 = al * nth i sA 0 + be * nth i sB 0).
  { apply (cumtrapz_lincomb xs kA kB kC sA sB sC al be); try assumption;
      try congruence.
    apply (nonempty_of_length _ (npts cfgC)); [exact HlkA | exact Hn]. }
  rewrite HlkA in Hs.
  assert (Hy : forall i, (i < length sA)%nat ->
            nth i yC 0 = al * nth i yA 0 + be * nth i yB 0).
  { apply (cumtrapz_lincomb xs sA sB sC yA yB yC al be); try assumption; try congruence.
    - apply (nonempty_of_length _ (npts cfgC)); [congruence | exact Hn].
    - intros i Hi. apply Hs. congruence. }
  intros i Hi.
  rewrite HfA, HfB, HfC by (rewrite Hlen; exact Hi).
  rewrite (Hy i) by congruence.
  rewrite (Hy (length xs - 1)%nat) by (rewrite HlsA; lia).
  rewrite HLA, HLB. unfold Qcdiv. ring.
Qed.

End DeflectionLinearity.

Ltac run_parts_of cfg Hrun r1 r2 v m ys Hr Hv Hm Hys Hlv Hlm Hly Hana :=
  destruct (run_parts cfg Hrun)
    as [r1 [r2 [v [m [? [? [ys [? [Hr [Hv [Hm [_ [_ [Hys [_ [_
         [[Hlv [Hlm [_ [_ Hly]]]] Hana]]]]]]]]]]]]]]]]].

(** ** Superposition and proportionality *)

(** X9: the run with two point loads is the sum of the two runs with one
    load each: reactions, shear, moment and deflection add up sample by
    sample. *)
Theorem X9_two_loads_superpose
  (cfg : LoadConfiguration) (P a P2 a2 : Qc) :
  runnable cfg -> load_case cfg = PointLoad P a P2 (Some a2) ->
  let one := with_loads cfg (PointLoad P a 0 None) in
  let other := with_loads cfg (PointLoad P2 a2 0 None) in
  exists r ra rb,
    analyze cfg = Ok r /\ analyze one = Ok ra /\ analyze other = Ok rb /\
    R1 r = R1 ra + R1 rb /\ R2 r = R2 ra + R2 rb /\
    forall i, (i < npts cfg)%nat ->
      nth i (V (profile r)) 0 = nth i (V (profile ra)) 0 + nth i (V (profile rb)) 0 /\
      nth i (M (profile r)) 0 = nth i (M (profile ra)) 0 + nth i (M (profile rb)) 0 /\
      nth i (y r) 0 = nth i (y ra) 0 + nth i (y rb) 0.
Proof.
  intros Hrun Hlc one other.
  pose proof Hrun as [Hn Hpt]. rewrite Hlc in Hpt. destruct Hpt as [HL _].
  assert (Hrun1 : runnable one).
  { unfold runnable, one. simpl. split; [exact Hn | split; [exact HL | reflexivity]]. }
  assert (Hrun2 : runnable other).
  { unfold runnable, other. simpl. split; [exact Hn | split; [exact HL | reflexivity]]. }
  run_parts_of cfg Hrun r1 r2 v m ys Hr Hv Hm Hys Hlv Hlm Hly Hana.
  run_parts_of one Hrun1 r1a r2a va ma ysa Hra Hva Hma Hysa Hlva Hlma Hlya Hanaa.
  run_parts_of other Hrun2 r1b r2b vb mb ysb Hrb Hvb Hmb Hysb Hlvb Hlmb Hlyb Hanab.
  change (positions one) with (positions cfg) in *.
  change (positions other) with (positions cfg) in *.
  change (npts one) with (npts cfg) in *.
  change (npts other) with (npts cfg) in *.
  pose proof (positions_length cfg) as Hlen.
  rewrite (valid_point_reactions cfg P a P2 (Some a2) HL) in Hr;
    [| rewrite Hlc; exact Logic.I | exact Hlc].
  rewrite (valid_point_reactions one P a 0 None HL) in Hra;
    [| reflexivity | reflexivity].
  rewrite (valid_point_reactions other P2 a2 0 None HL) in Hrb;
    [| reflexivity | reflexivity].
  change (L one) with (L cfg) in *. change (L other) with (L cfg) in *.
  injection Hr as Hr1 Hr2. injection Hra as Hr1a Hr2a. injection Hrb as Hr1b Hr2b.
  assert (HR1 : r1 = r1a + r1b)
    by (rewrite <- Hr1, <- Hr1a, <- Hr1b; field; exact HL).
  assert (HR2 : r2 = r2a + r2b)
    by (rewrite <- Hr2, <- Hr2a, <- Hr2b; field; exact HL).
  assert (HV : forall i, (i < npts cfg)%nat -> nth i v 0 = nth i va 0 + nth i vb 0).
  { intros i Hi.
    rewrite (point_shear_nth cfg P a P2 (Some a2) r1 (positions cfg) v i Hlc Hv)
      by (rewrite Hlen; exact Hi).
    rewrite (point_shear_nth one P a 0 None r1a (positions cfg) va i eq_refl Hva)
      by (rewrite Hlen; exact Hi).
    rewrite (point_shear_nth other P2 a2 0 None r1b (positions cfg) vb i eq_refl Hvb)
      by (rewrite Hlen; exact Hi).
    rewrite Hlc, HR1. simpl. ring. }
  assert (HM : forall i, (i < npts cfg)%nat -> nth i m 0 = nth i ma 0 + nth i mb 0).
  { intros i Hi.
    rewrite (cumtrapz_lincomb (positions cfg) va vb v ma mb m 1 1); try assumption;
      try congruence; try ring.
    - apply (nonempty_of_length _ (npts cfg)); assumption.
    - intros j Hj. rewrite HV by congruence. ring. }
  assert (HY : forall i, (i < npts cfg)%nat -> nth i ys 0 = nth i ysa 0 + nth i ysb 0).
  { intros i Hi.
    rewrite (deflection_lincomb one other cfg 1 1 ma mb m ysa ysb ys);
      try reflexivity; try assumption; try ring.
    intros j Hj. rewrite HM by exact Hj. ring. }
  eexists. eexists. eexists.
  split; [exact Hana |]. split; [exact Hanaa |]. split; [exact Hanab |].
  cbn [R1 R2 profile V M y].
  split; [exact HR1 |]. split; [exact HR2 |].
  intros i Hi. auto.
Qed.

Lemma X9_two_loads_superpose_witness :
  let one := with_loads scenario_D (PointLoad (of_Z 10 * thousand) (of_Z 2) 0 None) in
  let other := with_loads scenario_D (PointLoad (of_Z 10 * thousand) (of_Z 4) 0 None) in
  exists r ra rb,
    analyze scenario_D = Ok r /\ analyze one = Ok ra /\ analyze other = Ok rb /\
    R1 r = R1 ra + R1 rb /\ R2 r = R2 ra + R2 rb /\
    forall i, (i < npts scenario_D)%nat ->
      nth i (V (profile r)) 0 = nth i (V (profile ra)) 0 + nth i (V (profile rb)) 0 /\
      nth i (M (profile r)) 0 = nth i (M (profile ra)) 0 + nth i (M (profile rb)) 0 /\
      nth i (y r) 0 = nth i (y ra) 0 + nth i (y rb) 0.
Proof.
  apply (X9_two_loads_superpose scenario_D
           (of_Z 10 * thousand) (of_Z 2) (of_Z 10 * thousand) (of_Z 4)).
  - apply valid_runnable. exact valid_scenario_D.
  - reflexivity.
Defined.

Section Proportionality.

Lemma scaled_runnable (cfg : LoadConfiguration) (k : Qc) :
  runnable cfg -> runnable (with_loads cfg (scale_loads k (load_case cfg))).
Proof.
  intros [Hn H]. unfold runnable. simpl. split; [exact Hn |].
  destruct (load_case cfg) as [P a P2 a2 | w]; simpl; [| exact Logic.I].
  destruct H as [HL H0]. split; [exact HL |].
  intro Ha2. rewrite (H0 Ha2). ring.
Qed.

Lemma scaled_load_up_to (k P a P2 : Qc) (a2 : option Qc) (xi : Qc) :
  load_up_to (point_loads (PointLoad (k * P) a (k * P2) a2)) xi
  = k * load_up_to (point_loads (PointLoad P a P2 a2)) xi.
Proof.
  destruct a2 as [v |]; simpl.
  - destruct (leb a xi), (leb v xi); ring.
  - destruct (leb a xi); ring.
Qed.

Lemma factors_nonzero (u v : Qc) : u * v <> 0 -> u <> 0 /\ v <> 0.
Proof.
  intro H. split; intro Hz; apply H; rewrite Hz; ring.
Qed.

End Proportionality.

(** X10: multiplying every load magnitude by k multiplies the reactions,
    the shear, the moment and the deflection by k, sample by sample. *)
Theorem X10_response_proportional_to_load (cfg : LoadConfiguration) (k : Qc) :
  runnable cfg ->
  exists r rk,
    analyze cfg = Ok r /\
    analyze (with_loads cfg (scale_loads k (load_case cfg))) = Ok rk /\
    R1 rk = k * R1 r /\ R2 rk = k * R2 r /\
    forall i, (i < npts cfg)%nat ->
      nth i (V (profile rk)) 0 = k * nth i (V (profile r)) 0 /\
      nth i (M (profile rk)) 0 = k * nth i (M (profile r)) 0 /\
      nth i (y rk) 0 = k * nth i (y r) 0.
Proof.
  intro Hrun.
  set (scaled := with_loads cfg (scale_loads k (load_case cfg))).
  pose proof (scaled_runnable cfg k Hrun) as Hrun'. fold scaled in Hrun'.
  pose proof Hrun as [Hn Hpt].
  pose proof (runnable_positions_known cfg Hrun) as Hk.
  pose proof (runnable_positions_known scaled Hrun') as Hk'.
  run_parts_of cfg Hrun r1 r2 v m ys Hr Hv Hm Hys Hlv Hlm Hly Hana.
  run_parts_of scaled Hrun' r1' r2' v' m' ys' Hr' Hv' Hm' Hys' Hlv' Hlm' Hly' Hana'.
  change (positions scaled) with (positions cfg) in *.
  change (npts scaled) with (npts cfg) in *.
  pose proof (positions_length cfg) as Hlen.
  assert (Hfacts : r1' = k * r1 /\ r2' = k * r2 /\
            forall i, (i < npts cfg)%nat -> nth i v' 0 = k * nth i v 0).
  { destruct (load_case cfg) as [P a P2 a2 | w] eqn:Hlc.
    - destruct Hpt as [HL _].
      rewrite <- Hlc in Hk.
      rewrite (valid_point_reactions cfg P a P2 a2 HL Hk Hlc) in Hr.
      assert (Hlc' : load_case scaled = PointLoad (k * P) a (k * P2) a2)
        by (unfold scaled; simpl; rewrite ?Hlc; reflexivity).
      rewrite (valid_point_reactions scaled (k * P) a (k * P2) a2 HL Hk' Hlc') in Hr'.
      change (L scaled) with (L cfg) in Hr'.
      injection Hr as Hr1 Hr2. injection Hr' as Hr1' Hr2'.
      assert (H1 : r1' = k * r1) by (rewrite <- Hr1, <- Hr1'; field; exact HL).
      split; [exact H1 |].
      split; [rewrite <- Hr2, <- Hr2'; field; exact HL |].
      intros i Hi.
      rewrite (point_shear_nth scaled (k * P) a (k * P2) a2 r1' (positions cfg) v' i
                 Hlc' Hv') by (rewrite Hlen; exact Hi).
      rewrite (point_shear_nth cfg P a P2 a2 r1 (positions cfg) v i Hlc Hv)
        by (rewrite Hlen; exact Hi).
      rewrite Hlc', Hlc, scaled_load_up_to, H1. ring.
    - assert (Hlc' : load_case scaled = UDL (k * w))
        by (unfold scaled; simpl; rewrite ?Hlc; reflexivity).
      unfold solve_reactions in Hr, Hr'. rewrite Hlc in Hr. rewrite Hlc' in Hr'.
      change (L scaled) with (L cfg) in Hr'.
      injection Hr as Hr1 Hr2. injection Hr' as Hr1' Hr2'.
      assert (H1 : r1' = k * r1)
        by (rewrite <- Hr1, <- Hr1'; unfold Qcdiv; ring).
      split; [exact H1 |].
      split; [rewrite <- Hr2, <- Hr2'; unfold Qcdiv; ring |].
      intros i Hi.
      rewrite (udl_shear_nth scaled (k * w) r1' (positions cfg) v' i Hlc' Hv')
        by (rewrite Hlen; exact Hi).
      rewrite (udl_shear_nth cfg w r1 (positions cfg) v i Hlc Hv)
        by (rewrite Hlen; exact Hi).
      rewrite H1. ring. }
  destruct Hfacts as [HR1 [HR2 HV]].
  assert (HM : forall i, (i < npts cfg)%nat -> nth i m' 0 = k * nth i m 0).
  { intros i Hi.
    rewrite (cumtrapz_lincomb (positions cfg) v v v' m m m' k 0); try assumption;
      try congruence; try ring.
    - apply (nonempty_of_length _ (npts cfg)); assumption.
    - intros j Hj. rewrite HV by congruence. ring. }
  assert (HY : forall i, (i < npts cfg)%nat -> nth i ys' 0 = k * nth i ys 0).
  { intros i Hi.
    rewrite (deflection_lincomb cfg cfg scaled k 0 m m m' ys ys ys');
      try reflexivity; try assumption; try ring.
    intros j Hj. rewrite HM by exact Hj. ring. }
  eexists. eexists.
  split; [exact Hana |]. split; [exact Hana' |].
  cbn [R1 R2 profile V M y].
  split; [exact HR1 |]. split; [exact HR2 |].
  intros i Hi. auto.
Qed.

Lemma X10_response_proportional_to_load_witness :
  exists r rk,
    analyze scenario_D = Ok r /\
    analyze (with_loads scenario_D (scale_loads two (load_case scenario_D))) = Ok rk /\
    R1 rk = two * R1 r /\ R2 rk = two * R2 r /\
    forall i, (i < npts scenario_D)%nat ->
      nth i (V (profile rk)) 0 = two * nth i (V (profile r)) 0 /\
      nth i (M (profile rk)) 0 = two * nth i (M (profile r)) 0 /\
      nth i (y rk) 0 = two * nth i (y r) 0.
Proof.
  apply (X10_response_proportional_to_load scenario_D two).
  apply valid_runnable. exact valid_scenario_D.
Defined.

(** X11: the section enters the run only through the product E * I, and
    only in the deflection: with another non-zero E' * I' the reactions, the
    shear and the moment are the same and every deflection sample is
    multiplied by (E * I) / (E' * I'). *)
Theorem X11_deflection_inverse_to_stiffness
  (cfg : LoadConfiguration) (E' I' : Qc) :
  runnable cfg -> E cfg * I cfg <> 0 -> E' * I' <> 0 ->
  exists r r',
    analyze cfg = Ok r /\
    analyze (with_section cfg E' I') = Ok r' /\
    R1 r' = R1 r /\ R2 r' = R2 r /\ profile r' = profile r /\
    forall i, (i < npts cfg)%nat ->
      nth i (y r') 0 = (E cfg * I cfg) / (E' * I') * nth i (y r) 0.
Proof.
  intros Hrun Hei Hei'.
  set (other := with_section cfg E' I').
  assert (Hrun' : runnable other) by exact Hrun.
  pose proof Hrun as [Hn _].
  destruct (run_parts cfg Hrun)
    as [r1 [r2 [v [m [s [y0 [ys [ex [Hr [Hv [Hm [Hs [Hy0 [Hys [Hf [_
         [[Hlv [Hlm [Hls [Hly0 Hly]]]] Hana]]]]]]]]]]]]]]]]].
  destruct (run_parts other Hrun')
    as [r1' [r2' [v' [m' [s' [y0' [ys' [ex' [Hr' [Hv' [Hm' [Hs' [Hy0' [Hys' [Hf' [_
         [[Hlv' [Hlm' [Hls' [Hly0' Hly']]]] Hana']]]]]]]]]]]]]]]]].
  change (positions other) with (positions cfg) in *.
  change (npts other) with (npts cfg) in *.
  change (L other) with (L cfg) in *.
  change (E other) with E' in *. change (I other) with I' in *.
  change (solve_reactions other) with (solve_reactions cfg) in Hr'.
  assert (r1' = r1 /\ r2' = r2) by (split; congruence).
  destruct H as [-> ->].
  change (shear other r1 (positions cfg)) with (shear cfg r1 (positions cfg)) in Hv'.
  assert (v' = v) by congruence. subst v'.
  assert (m' = m) by congruence. subst m'.
  pose proof (positions_length cfg) as Hlen.
  set (g := E cfg * I cfg / (E' * I')).
  set (kA := map (fun u => u / (E cfg * I cfg)) m) in *.
  set (kC := map (fun u => u / (E' * I')) m) in *.
  assert (HlkA : length kA = npts cfg) by (unfold kA; rewrite length_map; exact Hlm).
  assert (HlkC : length kC = npts cfg) by (unfold kC; rewrite length_map; exact Hlm).
  assert (HkAne : kA <> []) by (apply (nonempty_of_length _ (npts cfg)); assumption).
  assert (Hk : forall i, (i < length kA)%nat ->
            nth i kC 0 = g * nth i kA 0 + 0 * nth i kA 0).
  { intros i Hi. rewrite HlkA in Hi. unfold kA, kC, g.
    rewrite !nth_map_in by lia.
    destruct (factors_nonzero _ _ Hei) as [HE HI].
    destruct (factors_nonzero _ _ Hei') as [HE' HI'].
    field. repeat split; assumption. }
  assert (HS : forall i, (i < length kA)%nat ->
            nth i s' 0 = g * nth i s 0 + 0 * nth i s 0).
  { apply (cumtrapz_lincomb (positions cfg) kA kA kC s s s' g 0); try assumption;
      congruence. }
  rewrite HlkA in HS.
  assert (HY0 : forall i, (i < length s)%nat ->
            nth i y0' 0 = g * nth i y0 0 + 0 * nth i y0 0).
  { apply (cumtrapz_lincomb (positions cfg) s s s' y0 y0 y0' g 0); try assumption;
      try congruence.
    - apply (nonempty_of_length _ (npts cfg)); assumption.
    - intros i Hi. apply HS. congruence. }
  rewrite Hls in HY0.
  eexists. eexists.
  split; [exact Hana |]. split; [exact Hana' |].
  cbn [R1 R2 profile y].
  split; [reflexivity |]. split; [reflexivity |]. split; [reflexivity |].
  intros i Hi.
  rewrite Hf, Hf' by exact Hi.
  rewrite (HY0 i) by exact Hi. rewrite (HY0 (npts cfg - 1)%nat) by lia.
  unfold Qcdiv. ring.
Qed.

Lemma X11_deflection_inverse_to_stiffness_witness :
  exists r r',
    analyze scenario_A = Ok r /\
    analyze (with_section scenario_A (of_Z 70 * giga) (Q2Qc (5 # 100000))) = Ok r' /\
    R1 r' = R1 r /\ R2 r' = R2 r /\ profile r' = profile r /\
    forall i, (i < npts scenario_A)%nat ->
      nth i (y r') 0 =
      (E scenario_A * I scenario_A) / (of_Z 70 * giga * Q2Qc (5 # 100000))
      * nth i (y r) 0.
Proof.
  apply (X11_deflection_inverse_to_stiffness scenario_A
           (of_Z 70 * giga) (Q2Qc (5 # 100000))).
  - apply valid_runnable. exact valid_scenario_A.
  - intro H. discriminate H.
  - intro H. discriminate H.
Defined.

(** ** A load over the right support *)

Section RightSupport.

Lemma last_step (cfg : LoadConfiguration) (a ma : list Qc) (n2 : nat) (top : Qc) :
  npts cfg = S (S n2) -> length a = npts cfg ->
  (forall i, (i < S n2)%nat -> nth i a 0 = 0) ->
  nth (S n2) a 0 = top ->
  cumtrapz a (positions cfg) = Ok ma ->
  (forall i, (i < S n2)%nat -> nth i ma 0 = 0) /\
  nth (S n2) ma 0 = spacing cfg * top / two.
Proof.
  intros Hn Hla Hz Htop Ha.
  assert (Hne : a <> []) by (apply (nonempty_of_length _ (npts cfg)); [exact Hla | lia]).
  assert (Hlx : length (positions cfg) = length a)
    by (rewrite positions_length; congruence).
  assert (Hpre : forall i, (i < S n2)%nat -> nth i ma 0 = 0).
  { apply (cumtrapz_prefix_zero (positions cfg) a ma (S n2) Hne Hlx); [lia | exact Hz | exact Ha]. }
  split; [exact Hpre |].
  rewrite (cumtrapz_step (positions cfg) a ma n2 Hne Hlx Ha) by lia.
  rewrite Hpre by lia. unfold trapezoid.
  rewrite Htop, (Hz n2) by lia.
  rewrite !positions_nth by lia. rewrite of_nat_S.
  unfold Qcdiv. ring.
Qed.

End RightSupport.

Lemma valid_right_support_scenario : valid right_support_scenario.
Proof.
  unfold valid, right_support_scenario; simpl.
  repeat split; try reflexivity; try discriminate; lia.
Qed.

(** ** The reported extremes (lines 104, 105, 116 and 117) *)

Section ReportedExtremes.

Lemma find_extremes_parts (ys xs : list Qc) :
  ys <> [] -> length xs = length ys ->
  exists lo hi top k,
    is_min_of lo ys /\ is_max_of hi ys /\ is_max_of top (np_abs ys) /\
    (k < length ys)%nat /\ Qcabs (nth k ys 0) = top /\
    (forall j, (j < k)%nat -> Qcabs (nth j ys 0) < top) /\
    find_extremes ys xs =
    Ok {| max_deflection := if ltb lo 0 then lo else hi;
          max_deflection_abs := top; imax := k; x_imax := nth k xs 0 |}.
Proof.
  intros Hne Hlen.
  destruct (np_min_spec ys Hne) as [lo [Hlo Hmin]].
  destruct (np_max_spec ys Hne) as [hi [Hhi Hmax]].
  assert (Hane : np_abs ys <> []) by (destruct ys; simpl; congruence).
  assert (Halen : length (np_abs ys) = length ys) by apply length_map.
  destruct (np_max_spec (np_abs ys) Hane) as [top [Htop Habs]].
  destruct (argmax_spec (np_abs ys) Hane) as [k [Hk [Hkl [Hkge Hklt]]]].
  rewrite Halen in *.
  assert (Hnthabs : forall j, (j < length ys)%nat ->
            nth j (np_abs ys) 0 = Qcabs (nth j ys 0)).
  { intros j Hj. unfold np_abs. apply nth_map_in. exact Hj. }
  assert (Hktop : Qcabs (nth k ys 0) = top).
  { rewrite <- Hnthabs by exact Hkl. destruct Habs as [Hin Hge].
    apply Qcle_antisym.
    - apply Hge. apply nth_In. rewrite Halen. exact Hkl.
    - destruct (In_nth _ _ 0 Hin) as [j [Hj <-]]. apply Hkge. rewrite <- Halen. exact Hj. }
  exists lo, hi, top, k.
  split; [exact Hmin |]. split; [exact Hmax |]. split; [exact Habs |].
  split; [exact Hkl |]. split; [exact Hktop |].
  split.
  { intros j Hj. rewrite <- Hktop.
    rewrite <- (Hnthabs j) by lia. rewrite <- (Hnthabs k) by exact Hkl.
    apply Hklt. exact Hj. }
  unfold find_extremes. rewrite Hlo. cbn [bind].
  destruct (ltb lo 0); [| rewrite Hhi]; cbn [bind];
    rewrite Htop; cbn [bind]; rewrite Hk; cbn [bind];
    rewrite getitem_ok by lia; reflexivity.
Qed.

End ReportedExtremes.

(** X5: of the two extremes the script computes for a non-empty deflection
    sequence, the absolute maximum bounds every sample and the signed
    extreme is one of the samples; they have the same size when the
    deflection does not change sign.  When it does change sign the signed
    extreme is the most negative sample, even where the largest positive
    sample is larger in size; the reported position is one of the sample
    positions. *)
Theorem X5_signed_and_absolute_extremes (ys xs : list Qc) :
  ys <> [] -> length xs = length ys ->
  exists ex,
    find_extremes ys xs = Ok ex /\
    In (max_deflection ex) ys /\
    In (x_imax ex) xs /\
    (forall v, In v ys -> - max_deflection_abs ex <= v /\ v <= max_deflection_abs ex) /\
    Qcabs (max_deflection ex) <= max_deflection_abs ex /\
    ((forall v, In v ys -> 0 <= v) -> max_deflection ex = max_deflection_abs ex) /\
    ((forall v, In v ys -> v <= 0) -> max_deflection ex = - max_deflection_abs ex) /\
    (forall u v, In u ys -> In v ys -> u < 0 -> (forall t, In t ys -> - t < v) ->
       max_deflection ex < 0 /\ Qcabs (max_deflection ex) < max_deflection_abs ex).
Proof.
  intros Hne Hlen.
  destruct (find_extremes_parts ys xs Hne Hlen)
    as [lo [hi [top [k [[Hloin Hlole] [[Hhiin Hhige] [[Htopin Htopge]
         [Hk [Hktop [_ Hfind]]]]]]]]]].
  assert (Habs : forall v, In v ys -> Qcabs v <= top).
  { intros v Hv. apply Htopge. unfold np_abs. apply in_map. exact Hv. }
  assert (Hykin : In (nth k ys 0) ys) by (apply nth_In; exact Hk).
  eexists. split; [exact Hfind |].
  cbn [max_deflection max_deflection_abs x_imax].
  split; [destruct (ltb lo 0); assumption |].
  split; [apply nth_In; rewrite Hlen; exact Hk |].
  split; [intros v Hv; apply Qcabs_Qcle_condition, Habs, Hv |].
  split; [apply Habs; destruct (ltb lo 0); assumption |].
  split; [| split].
  - intro Hpos.
    assert (Hl : ltb lo 0 = false) by (apply ltb_ge, Hpos, Hloin).
    rewrite Hl. apply Qcle_antisym.
    + rewrite <- (Qcabs_pos hi) by (apply Hpos; exact Hhiin). apply Habs. exact Hhiin.
    + rewrite <- Hktop. rewrite Qcabs_pos by (apply Hpos; exact Hykin).
      apply Hhige. exact Hykin.
  - intro Hneg.
    assert (Htop : top = - lo).
    { apply Qcle_antisym.
      - rewrite <- Hktop. rewrite Qcabs_neg by (apply Hneg; exact Hykin).
        apply Qcopp_le_compat. apply Hlole. exact Hykin.
      - rewrite <- (Qcabs_neg lo) by (apply Hneg; exact Hloin). apply Habs. exact Hloin. }
    destruct (ltb lo 0) eqn:Hl.
    + rewrite Htop. ring.
    + apply ltb_ge in Hl.
      assert (Hlo0 : lo = 0) by (apply Qcle_antisym; [apply Hneg; exact Hloin | exact Hl]).
      assert (Hhi0 : hi = 0).
      { apply Qcle_antisym; [apply Hneg; exact Hhiin |].
        rewrite <- Hlo0. apply Hlole. exact Hhiin. }
      rewrite Htop, Hlo0, Hhi0. ring.
  - intros u v Hu Hv Hu0 Huv.
    assert (Hlo0 : lo < 0) by (apply (Qcle_lt_trans _ u); [apply Hlole; exact Hu | exact Hu0]).
    assert (Hl : ltb lo 0 = true) by (apply ltb_lt; exact Hlo0).
    rewrite Hl. split; [exact Hlo0 |].
    rewrite Qcabs_neg by (apply Qclt_le_weak; exact Hlo0).
    apply (Qclt_le_trans _ v).
    + apply Huv. exact Hloin.
    + apply (Qcle_trans _ (Qcabs v)); [apply Qcle_Qcabs | apply Habs; exact Hv].
Qed.

Lemma X5_signed_and_absolute_extremes_witness :
  exists ex,
    find_extremes tied_deflection tied_positions = Ok ex /\
    In (max_deflection ex) tied_deflection /\
    In (x_imax ex) tied_positions /\
    (forall v, In v tied_deflection ->
       - max_deflection_abs ex <= v /\ v <= max_deflection_abs ex) /\
    Qcabs (max_deflection ex) <= max_deflection_abs ex /\
    ((forall v, In v tied_deflection -> 0 <= v) ->
     max_deflection ex = max_deflection_abs ex) /\
    ((forall v, In v tied_deflection -> v <= 0) ->
     max_deflection ex = - max_deflection_abs ex) /\
    (forall u v, In u tied_deflection -> In v tied_deflection -> u < 0 ->
       (forall t, In t tied_deflection -> - t < v) ->
       max_deflection ex < 0 /\ Qcabs (max_deflection ex) < max_deflection_abs ex).
Proof.
  apply (X5_signed_and_absolute_extremes tied_deflection tied_positions).
  - discriminate.
  - reflexivity.
Defined.

(** ** A beam without load *)

(** X12: when every load magnitude is zero (the widgets allow it) the
    reactions, the shear, the moment and the deflection are zero at every
    sample, both reported extremes are 0, and the reported position of the
    maximum is the first sample, x = 0. *)
Theorem X12_unloaded_beam (cfg : LoadConfiguration) :
  valid cfg -> unloaded (load_case cfg) ->
  exists r,
    analyze cfg = Ok r /\
    R1 r = 0 /\ R2 r = 0 /\
    Forall (fun u => u = 0) (V (profile r)) /\
    Forall (fun u => u = 0) (M (profile r)) /\
    Forall (fun u => u = 0) (y r) /\
    max_deflection (extremes r) = 0 /\
    max_deflection_abs (extremes r) = 0 /\
    imax (extremes r) = 0%nat /\ x_imax (extremes r) = 0.
Proof.
  intros Hvalid Hun. pose proof Hvalid as [HL [_ [_ [Hn _]]]].
  assert (HL0 : L cfg <> 0) by (apply pos_neq_0; exact HL).
  pose proof (valid_positions_known cfg Hvalid) as Hk.
  pose proof (positions_length cfg) as Hlen.
  assert (Hne : positions cfg <> []) by (apply positions_nonempty; lia).
  destruct (run_parts cfg (valid_runnable cfg Hvalid))
    as [r1 [r2 [v [m [s [y0 [ys [ex [Hr [Hv [Hm [Hs [Hy0 [Hys [Hf [Hex
         [[Hlv [Hlm [Hls [Hly0 Hly]]]] Hana]]]]]]]]]]]]]]]]].
  assert (Hfacts : r1 = 0 /\ r2 = 0 /\
            forall i, (i < npts cfg)%nat -> nth i v 0 = 0).
  { destruct (load_case cfg) as [P a P2 a2 | w] eqn:Hlc.
    - destruct Hun as [-> ->]. rewrite <- Hlc in Hk.
      rewrite (valid_point_reactions cfg 0 a 0 a2 HL0 Hk Hlc) in Hr.
      injection Hr as Hr1 Hr2.
      assert (H1 : r1 = 0) by (rewrite <- Hr1; field; exact HL0).
      split; [exact H1 |]. split; [rewrite <- Hr2; field; exact HL0 |].
      intros i Hi.
      rewrite (point_shear_nth cfg 0 a 0 a2 r1 (positions cfg) v i Hlc Hv)
        by (rewrite Hlen; exact Hi).
      rewrite Hlc, H1. simpl.
      destruct (leb a (nth i (positions cfg) 0)); destruct a2 as [u |]; simpl;
        try destruct (leb u (nth i (positions cfg) 0)); ring.
    - simpl in Hun. subst w.
      unfold solve_reactions in Hr. rewrite Hlc in Hr. injection Hr as Hr1 Hr2.
      assert (H1 : r1 = 0) by (rewrite <- Hr1; unfold Qcdiv; ring).
      split; [exact H1 |]. split; [rewrite <- Hr2; unfold Qcdiv; ring |].
      intros i Hi.
      rewrite (udl_shear_nth cfg 0 r1 (positions cfg) v i Hlc Hv)
        by (rewrite Hlen; exact Hi).
      rewrite H1. ring. }
  destruct Hfacts as [HR1 [HR2 Hvz]].
  assert (Hmz : forall i, (i < npts cfg)%nat -> nth i m 0 = 0).
  { intros i Hi.
    apply (cumtrapz_prefix_zero (positions cfg) v m (npts cfg)); try assumption;
      try congruence; try lia.
    apply (nonempty_of_length _ (npts cfg)); [exact Hlv | lia]. }
  set (k := map (fun u => u / (E cfg * I cfg)) m) in *.
  assert (Hlk : length k = npts cfg) by (unfold k; rewrite length_map; exact Hlm).
  assert (Hkz : forall i, (i < npts cfg)%nat -> nth i k 0 = 0).
  { intros i Hi. unfold k. rewrite nth_map_in by lia. rewrite Hmz by exact Hi.
    unfold Qcdiv. ring. }
  assert (Hsz : forall i, (i < npts cfg)%nat -> nth i s 0 = 0).
  { intros i Hi.
    apply (cumtrapz_prefix_zero (positions cfg) k s (npts cfg)); try assumption;
      try congruence; try lia.
    apply (nonempty_of_length _ (npts cfg)); [exact Hlk | lia]. }
  assert (Hy0z : forall i, (i < npts cfg)%nat -> nth i y0 0 = 0).
  { intros i Hi.
    apply (cumtrapz_prefix_zero (positions cfg) s y0 (npts cfg)); try assumption;
      try congruence; try lia.
    apply (nonempty_of_length _ (npts cfg)); [exact Hls | lia]. }
  assert (Hyz : forall i, (i < npts cfg)%nat -> nth i ys 0 = 0).
  { intros i Hi. rewrite Hf by exact Hi.
    rewrite (Hy0z i) by exact Hi. rewrite (Hy0z (npts cfg - 1)%nat) by lia.
    unfold Qcdiv. ring. }
  assert (Hall : forall u, In u ys -> u = 0).
  { intros u Hu. destruct (In_nth _ _ 0 Hu) as [i [Hi <-]]. apply Hyz. congruence. }
  assert (Hyne : ys <> []) by (apply (nonempty_of_length _ (npts cfg)); [exact Hly | lia]).
  destruct (find_extremes_parts ys (positions cfg) Hyne)
    as [lo [hi [top [j [[Hloin _] [[Hhiin _] [_ [Hj [Hjtop [Hjlt Hfind]]]]]]]]]];
    [congruence |].
  assert (Hlo0 : lo = 0) by (apply Hall; exact Hloin).
  assert (Hhi0 : hi = 0) by (apply Hall; exact Hhiin).
  assert (Htop0 : top = 0).
  { rewrite <- Hjtop. rewrite (Hall (nth j ys 0)) by (apply nth_In; exact Hj).
    apply Qcabs_pos, Qcle_refl. }
  assert (Hj0 : j = 0%nat).
  { destruct j as [| j]; [reflexivity |].
    exfalso. specialize (Hjlt 0%nat). rewrite Htop0 in Hjlt.
    rewrite (Hyz 0%nat) in Hjlt by lia.
    assert (H00 : Qcabs 0 < 0) by (apply Hjlt; lia).
    rewrite Qcabs_pos in H00 by apply Qcle_refl.
    exact (Qclt_not_eq _ _ H00 eq_refl). }
  assert (ex = {| max_deflection := if ltb lo 0 then lo else hi;
                  max_deflection_abs := top; imax := j;
                  x_imax := nth j (positions cfg) 0 |}) by congruence.
  subst ex.
  eexists. split; [exact Hana |].
  cbn [R1 R2 profile V M y extremes max_deflection max_deflection_abs imax x_imax].
  split; [exact HR1 |]. split; [exact HR2 |].
  split; [apply all_zero_Forall; intros i Hi; apply Hvz; congruence |].
  split; [apply all_zero_Forall; intros i Hi; apply Hmz; congruence |].
  split; [apply all_zero_Forall; intros i Hi; apply Hyz; congruence |].
  split; [rewrite Hlo0, Hhi0; reflexivity |].
  split; [exact Htop0 |]. split; [exact Hj0 |].
  rewrite Hj0. apply positions_first. lia.
Qed.

Lemma valid_unloaded_scenario : valid unloaded_scenario.
Proof.
  unfold valid, unloaded_scenario; simpl.
  repeat split; try reflexivity; try discriminate; lia.
Qed.

Lemma X12_unloaded_beam_witness :
  exists r,
    analyze unloaded_scenario = Ok r /\
    R1 r = 0 /\ R2 r = 0 /\
    Forall (fun u => u = 0) (V (profile r)) /\
    Forall (fun u => u = 0) (M (profile r)) /\
    Forall (fun u => u = 0) (y r) /\
    max_deflection (extremes r) = 0 /\
    max_deflection_abs (extremes r) = 0 /\
    imax (extremes r) = 0%nat /\ x_imax (extremes r) = 0.
Proof.
  apply (X12_unloaded_beam unloaded_scenario valid_unloaded_scenario).
  split; reflexivity.
Defined.

(** ** The moment of a single point load at the right support *)

Section ClosingError.

Lemma first_crossing (f : nat -> Qc) (a : Qc) (n : nat) :
  f 0%nat < a -> a <= f n ->
  exists k, (1 <= k <= n)%nat /\ f (k - 1)%nat < a /\ a <= f k.
Proof.
  induction n as [| n IH]; intros H0 Hn.
  - exfalso. exact (Qclt_not_le _ _ H0 Hn).
  - destruct (Qclt_le_dec (f n) a) as [Hlt | Hge].
    + exists (S n). split; [lia |].
      replace (S n - 1)%nat with n by lia. split; assumption.
    + destruct (IH H0 Hge) as [k [Hk [H1 H2]]].
      exists k. split; [lia |]. split; assumption.
Qed.

Lemma single_load_moment
  (cfg : LoadConfiguration) (P a r1 : Qc) (a2 : option Qc) (v m : list Qc) (k : nat) :
  (2 <= npts cfg)%nat -> 0 < L cfg ->
  load_case cfg = PointLoad P a 0 a2 ->
  shear cfg r1 (positions cfg) = Ok v -> cumtrapz v (positions cfg) = Ok m ->
  (1 <= k <= npts cfg - 1)%nat ->
  nth (k - 1) (positions cfg) 0 < a -> a <= nth k (positions cfg) 0 ->
  forall i, (i < npts cfg)%nat ->
    nth i m 0 =
    r1 * nth i (positions cfg) 0
    - (if (k <=? i)%nat
       then P * (nth i (positions cfg) 0
                 - (nth (k - 1) (positions cfg) 0 + nth k (positions cfg) 0) / two)
       else 0).
Proof.
  intros Hn HL Hlc Hv Hm Hk Hbefore Hafter.
  pose proof (positions_length cfg) as Hlen.
  assert (Hshear : forall i, (i < npts cfg)%nat ->
            nth i v 0 = if (k <=? i)%nat then r1 - P else r1).
  { intros i Hi.
    rewrite (point_shear_nth cfg P a 0 a2 r1 (positions cfg) v i Hlc Hv)
      by (rewrite Hlen; exact Hi).
    rewrite Hlc.
    assert (Hleb : leb a (nth i (positions cfg) 0) = (k <=? i)%nat).
    { destruct (k <=? i)%nat eqn:Hki.
      - apply Nat.leb_le in Hki. apply leb_le.
        apply (Qcle_trans _ (nth k (positions cfg) 0)); [exact Hafter |].
        destruct (Nat.eq_dec k i) as [-> | Hne]; [apply Qcle_refl |].
        apply Qclt_le_weak, positions_lt; [exact Hn | exact HL | lia].
      - apply Nat.leb_gt in Hki. apply leb_gt.
        apply (Qcle_lt_trans _ (nth (k - 1) (positions cfg) 0)); [| exact Hbefore].
        destruct (Nat.eq_dec i (k - 1)) as [-> | Hne]; [apply Qcle_refl |].
        apply Qclt_le_weak, positions_lt; [exact Hn | exact HL | lia]. }
    simpl. rewrite Hleb.
    destruct (k <=? i)%nat; destruct a2 as [u |]; simpl;
      try destruct (leb u (nth i (positions cfg) 0)); ring. }
  assert (Hlv : length v = npts cfg).
  { destruct (shear_ok cfg r1 (positions cfg)) as [v' [Hv' Hl']].
    - rewrite Hlc. destruct a2; [exact Logic.I | reflexivity].
    - congruence. }
  assert (Hvne : v <> []) by (apply (nonempty_of_length _ (npts cfg)); [exact Hlv | lia]).
  assert (Hlx : length (positions cfg) = length v) by congruence.
  destruct (cumtrapz_ok v (positions cfg) Hvne Hlx) as [m' [Hm' [_ [H0 Hstep]]]].
  assert (m' = m) by congruence. subst m'.
  induction i as [| i IH]; intro Hi.
  - rewrite H0. rewrite positions_first by lia.
    assert (Hk0 : (k <=? 0)%nat = false) by (apply Nat.leb_gt; lia).
    rewrite Hk0. ring.
  - rewrite Hstep by (rewrite Hlv; exact Hi).
    rewrite IH by lia. unfold trapezoid.
    rewrite (Hshear i) by lia. rewrite (Hshear (S i)) by exact Hi.
    destruct (k <=? S i)%nat eqn:HkS; destruct (k <=? i)%nat eqn:Hki.
    + unfold two. field. exact two_neq_0.
    + apply Nat.leb_le in HkS. apply Nat.leb_gt in Hki.
      assert (k = S i) by lia. subst k.
      replace (S i - 1)%nat with i by lia.
      unfold two. field. exact two_neq_0.
    + apply Nat.leb_gt in HkS. apply Nat.leb_le in Hki. lia.
    + unfold two. field. exact two_neq_0.
Qed.

End ClosingError.

(** ** The sign of the deflection *)

Section Sagging.

Variable cfg : LoadConfiguration.
Hypothesis Hn : (2 <= npts cfg)%nat.
Hypothesis HL : 0 < L cfg.

Lemma uniform_step (a ma : list Qc) (i : nat) :
  length a = npts cfg -> cumtrapz a (positions cfg) = Ok ma ->
  (S i < npts cfg)%nat ->
  nth (S i) ma 0 = nth i ma 0 + spacing cfg * (nth (S i) a 0 + nth i a 0) / two.
Proof.
  intros Hla Ha Hi.
  assert (Hne : a <> []) by (apply (nonempty_of_length _ (npts cfg)); [exact Hla | lia]).
  assert (Hlx : length (positions cfg) = length a)
    by (rewrite positions_length; congruence).
  rewrite (cumtrapz_step (positions cfg) a ma i Hne Hlx Ha) by lia.
  unfold trapezoid. rewrite !positions_nth by lia. rewrite of_nat_S.
  unfold Qcdiv. ring.
Qed.

Lemma integral_start (a ma : list Qc) :
  length a = npts cfg -> cumtrapz a (positions cfg) = Ok ma -> nth 0 ma 0 = 0.
Proof.
  intros Hla Ha.
  assert (Hne : a <> []) by (apply (nonempty_of_length _ (npts cfg)); [exact Hla | lia]).
  assert (Hlx : length (positions cfg) = length a)
    by (rewrite positions_length; congruence).
  destruct (cumtrapz_ok a (positions cfg) Hne Hlx) as [m' [Hm' [_ [H0 _]]]].
  congruence.
Qed.

Lemma integral_monotone (a ma : list Qc) :
  length a = npts cfg -> cumtrapz a (positions cfg) = Ok ma ->
  (forall i, (i < npts cfg)%nat -> 0 <= nth i a 0) ->
  forall i j, (i <= j < npts cfg)%nat -> nth i ma 0 <= nth j ma 0.
Proof.
  intros Hla Ha Hpos i j [Hij Hj].
  induction j as [| j IH].
  - replace i with 0%nat by lia. apply Qcle_refl.
  - destruct (Nat.eq_dec i (S j)) as [-> | Hne]; [apply Qcle_refl |].
    apply (Qcle_trans _ (nth j ma 0)); [apply IH; lia |].
    rewrite (uniform_step a ma j Hla Ha Hj).
    pose proof (Hpos j ltac:(lia)) as H1. pose proof (Hpos (S j) Hj) as H2.
    pose proof (spacing_pos cfg Hn HL) as Hh.
    to_Q. const_div. nra.
Qed.

(** Double integration of a non-negative curvature, followed by the
    correction of line 101, gives a deflection that is nowhere positive. *)
Lemma nonneg_curvature_sags (kap s y0 : list Qc) :
  length kap = npts cfg ->
  cumtrapz kap (positions cfg) = Ok s -> length s = npts cfg ->
  cumtrapz s (positions cfg) = Ok y0 ->
  (forall i, (i < npts cfg)%nat -> 0 <= nth i kap 0) ->
  forall i, (i < npts cfg)%nat ->
    nth i y0 0 + - nth (npts cfg - 1) y0 0 / L cfg * nth i (positions cfg) 0 <= 0.
Proof.
  intros Hlk Hs Hls Hy0 Hkap i Hi.
  pose proof (spacing_pos cfg Hn HL) as Hh.
  set (h := spacing cfg) in *.
  set (n := (npts cfg - 1)%nat).
  assert (HLn : L cfg = of_nat n * h).
  { rewrite <- (positions_last cfg Hn). apply positions_nth; lia. }
  assert (Hnpos : 0 < of_nat n) by (apply of_nat_pos; unfold n; lia).
  assert (Hmono : forall p q, (p <= q < npts cfg)%nat -> nth p s 0 <= nth q s 0)
    by (apply (integral_monotone kap s Hlk Hs Hkap)).
  assert (Hstep : forall j, (S j < npts cfg)%nat ->
            nth (S j) y0 0 = nth j y0 0 + h * (nth (S j) s 0 + nth j s 0) / two)
    by (intros j Hj; apply (uniform_step s y0 j Hls Hy0 Hj)).
  assert (H0 : nth 0 y0 0 = 0) by (apply (integral_start s y0 Hls Hy0)).
  destruct (Nat.eq_dec i n) as [-> | Hne].
  - unfold n. rewrite positions_last by exact Hn.
    assert (Hz : nth (npts cfg - 1) y0 0
                 + - nth (npts cfg - 1) y0 0 / L cfg * L cfg = 0)
      by (field; apply pos_neq_0; exact HL).
    rewrite Hz. apply Qcle_refl.
  - assert (Hin : (S i < npts cfg)%nat) by (unfold n in Hne; lia).
    set (c := h * (nth (S i) s 0 + nth i s 0) / two).
    assert (Hinc_le : forall j, (j <= i)%nat ->
              h * (nth (S j) s 0 + nth j s 0) / two <= c).
    { intros j Hj. unfold c.
      pose proof (Hmono j i ltac:(lia)) as H1.
      pose proof (Hmono (S j) (S i) ltac:(lia)) as H2.
      to_Q. const_div. nra. }
    assert (Hinc_ge : forall j, (i <= j)%nat -> (S j < npts cfg)%nat ->
              c <= h * (nth (S j) s 0 + nth j s 0) / two).
    { intros j Hj Hj'. unfold c.
      pose proof (Hmono i j ltac:(lia)) as H1.
      pose proof (Hmono (S i) (S j) ltac:(lia)) as H2.
      to_Q. const_div. nra. }
    assert (Hbelow : forall j, (j <= i)%nat -> nth j y0 0 <= of_nat j * c).
    { induction j as [| j IH]; intro Hj.
      - rewrite H0. change (of_nat 0) with 0. rewrite Qcmult_0_l. apply Qcle_refl.
      - rewrite Hstep by lia. rewrite of_nat_S.
        pose proof (IH ltac:(lia)) as H1. pose proof (Hinc_le j ltac:(lia)) as H2.
        to_Q. lra. }
    assert (Habove : forall d, (i + d < npts cfg)%nat ->
              nth i y0 0 + of_nat d * c <= nth (i + d) y0 0).
    { induction d as [| d IH]; intro Hd.
      - rewrite Nat.add_0_r. change (of_nat 0) with 0.
        rewrite Qcmult_0_l, Qcplus_0_r. apply Qcle_refl.
      - rewrite Nat.add_succ_r. rewrite Hstep by lia. rewrite of_nat_S.
        pose proof (IH ltac:(lia)) as H1.
        pose proof (Hinc_ge (i + d)%nat ltac:(lia) ltac:(lia)) as H2.
        to_Q. lra. }
    pose proof (Hbelow i (Nat.le_refl i)) as Hb.
    pose proof (Habove (n - i)%nat ltac:(unfold n; lia)) as Ha.
    replace (i + (n - i))%nat with n in Ha by (unfold n in *; lia).
    assert (Hsplit : of_nat n = of_nat i + of_nat (n - i)).
    { rewrite <- of_nat_add. f_equal. unfold n in *. lia. }
    pose proof (of_nat_nonneg i) as Hi0.
    pose proof (of_nat_nonneg (n - i)) as Hd0.
    rewrite positions_nth by lia. fold h. rewrite HLn.
    assert (Hkey : nth i y0 0 * of_nat n <= nth n y0 0 * of_nat i).
    { rewrite Hsplit. to_Q.
      set (yi := this (nth i y0 0)) in *. set (yn := this (nth n y0 0)) in *.
      set (qi := this (of_nat i)) in *. set (qd := this (of_nat (n - i))) in *.
      set (qc := this c) in *.
      assert (H1 : (qd * yi <= qd * (qi * qc))%Q) by nra.
      assert (H2 : (qi * (yi + qd * qc) <= qi * yn)%Q) by nra.
      nra. }
    assert (Hrew : nth i y0 0 + - nth n y0 0 / (of_nat n * h) * (of_nat i * h)
                   = (nth i y0 0 * of_nat n - nth n y0 0 * of_nat i) / of_nat n).
    { field. split; apply pos_neq_0; assumption. }
    fold n. rewrite Hrew.
    assert (Hinv : 0 < / of_nat n) by (apply inv_pos; exact Hnpos).
    unfold Qcdiv. to_Q.
    set (u := this (nth i y0 0) * this (of_nat n)) in *.
    set (w := this (nth n y0 0) * this (of_nat i)) in *.
    nra.
Qed.

End Sagging.

Section SignOfExtremes.

Lemma extremes_of_nonpositive (ys xs : list Qc) (ex : Extremes) :
  ys <> [] -> length xs = length ys ->
  (forall v, In v ys -> v <= 0) ->
  find_extremes ys xs = Ok ex ->
  max_deflection ex = - max_deflection_abs ex.
Proof.
  intros Hne Hlen Hneg Hex.
  destruct (find_extremes_parts ys xs Hne Hlen)
    as [lo [hi [top [k [[Hloin Hlole] [[Hhiin Hhige] [[Htopin Htopge]
         [Hk [Hktop [_ Hfind]]]]]]]]]].
  assert (ex = {| max_deflection := if ltb lo 0 then lo else hi;
                  max_deflection_abs := top; imax := k; x_imax := nth k xs 0 |})
    by congruence.
  subst ex. cbn [max_deflection max_deflection_abs].
  assert (Hykin : In (nth k ys 0) ys) by (apply nth_In; exact Hk).
  assert (Htop : top = - lo).
  { apply Qcle_antisym.
    - rewrite <- Hktop. rewrite Qcabs_neg by (apply Hneg; exact Hykin).
      apply Qcopp_le_compat. apply Hlole. exact Hykin.
    - rewrite <- (Qcabs_neg lo) by (apply Hneg; exact Hloin).
      apply Htopge. unfold np_abs. apply in_map. exact Hloin. }
  destruct (ltb lo 0) eqn:Hl.
  - rewrite Htop. ring.
  - apply ltb_ge in Hl.
    assert (Hlo0 : lo = 0) by (apply Qcle_antisym; [apply Hneg; exact Hloin | exact Hl]).
    assert (Hhi0 : hi = 0).
    { apply Qcle_antisym; [apply Hneg; exact Hhiin |].
      rewrite <- Hlo0. apply Hlole. exact Hhiin. }
    rewrite Htop, Hlo0, Hhi0. ring.
Qed.

End SignOfExtremes.

(** ** The shear along the span *)

Section ShearShape.

Lemma leb_mono (a u u' : Qc) : u <= u' -> leb a u = true -> leb a u' = true.
Proof.
  intros Hu Ha. apply leb_le. apply leb_le in Ha.
  apply (Qcle_trans _ u); assumption.
Qed.

Lemma step_mono (P a u u' : Qc) :
  0 <= P -> u <= u' ->
  (if leb a u then P else 0) <= (if leb a u' then P else 0).
Proof.
  intros HP Hu.
  destruct (leb a u) eqn:H1.
  - rewrite (leb_mono a u u' Hu H1). apply Qcle_refl.
  - destruct (leb a u'); [exact HP | apply Qcle_refl].
Qed.

Lemma load_up_to_mono (len P a P2 : Qc) (a2 : option Qc) (u u' : Qc) :
  loads_valid len (PointLoad P a P2 a2) -> u <= u' ->
  load_up_to (point_loads (PointLoad P a P2 a2)) u
  <= load_up_to (point_loads (PointLoad P a P2 a2)) u'.
Proof.
  intros [HP [_ [HP2 _]]] Hu.
  pose proof (step_mono P a u u' HP Hu) as H1.
  destruct a2 as [v |]; simpl.
  - pose proof (step_mono P2 v u u' HP2 Hu) as H2.
    set (s1 := if leb a u then P else 0) in *.
    set (s1' := if leb a u' then P else 0) in *.
    set (s2 := if leb v u then P2 else 0) in *.
    set (s2' := if leb v u' then P2 else 0) in *.
    clearbody s1 s1' s2 s2'. to_Q. lra.
  - set (s1 := if leb a u then P else 0) in *.
    set (s1' := if leb a u' then P else 0) in *.
    clearbody s1 s1'. to_Q. lra.
Qed.

End ShearShape.

(** X15: on a valid configuration the shear never increases along the
    span; under point loads every shear sample is one of R1, R1 - P,
    R1 - P2 and R1 - P - P2. *)
Theorem X15_shear_never_increases (cfg : LoadConfiguration) :
  valid cfg ->
  exists r,
    analyze cfg = Ok r /\
    (forall i j, (i <= j < npts cfg)%nat ->
       nth j (V (profile r)) 0 <= nth i (V (profile r)) 0) /\
    (forall P a P2 a2, load_case cfg = PointLoad P a P2 a2 ->
       forall i, (i < npts cfg)%nat ->
         nth i (V (profile r)) 0 = R1 r \/
         nth i (V (profile r)) 0 = R1 r - P \/
         nth i (V (profile r)) 0 = R1 r - P2 \/
         nth i (V (profile r)) 0 = R1 r - P - P2).
Proof.
  intro Hvalid. pose proof Hvalid as [HL [_ [_ [Hn Hloads]]]].
  pose proof (positions_length cfg) as Hlen.
  destruct (run_parts cfg (valid_runnable cfg Hvalid))
    as [r1 [r2 [v [m [s [y0 [ys [ex [Hr [Hv [_ [_ [_ [_ [_ [_ [_ Hana]]]]]]]]]]]]]]]]].
  assert (Hxmono : forall i j, (i <= j < npts cfg)%nat ->
            nth i (positions cfg) 0 <= nth j (positions cfg) 0).
  { intros i j [Hij Hj]. destruct (Nat.eq_dec i j) as [-> | Hne]; [apply Qcle_refl |].
    apply Qclt_le_weak, positions_lt; [exact Hn | exact HL | lia]. }
  eexists. split; [exact Hana |]. cbn [profile V R1].
  split.
  - intros i j Hij. pose proof (Hxmono i j Hij) as Hx.
    destruct (load_case cfg) as [P a P2 a2 | w] eqn:Hlc.
    + rewrite (point_shear_nth cfg P a P2 a2 r1 (positions cfg) v i Hlc Hv)
        by (rewrite Hlen; lia).
      rewrite (point_shear_nth cfg P a P2 a2 r1 (positions cfg) v j Hlc Hv)
        by (rewrite Hlen; lia).
      rewrite Hlc.
      pose proof (load_up_to_mono (L cfg) P a P2 a2 _ _ Hloads Hx) as Hm.
      to_Q. lra.
    + rewrite (udl_shear_nth cfg w r1 (positions cfg) v i Hlc Hv) by (rewrite Hlen; lia).
      rewrite (udl_shear_nth cfg w r1 (positions cfg) v j Hlc Hv) by (rewrite Hlen; lia).
      simpl in Hloads. to_Q. nra.
  - intros P a P2 a2 Hlc i Hi.
    rewrite (point_shear_nth cfg P a P2 a2 r1 (positions cfg) v i Hlc Hv)
      by (rewrite Hlen; exact Hi).
    rewrite Hlc in *. destruct Hloads as [_ [_ [_ Ha2]]].
    destruct a2 as [u |]; simpl.
    + destruct (leb a (nth i (positions cfg) 0)), (leb u (nth i (positions cfg) 0)).
      * right; right; right. ring.
      * right; left. ring.
      * right; right; left. ring.
      * left. ring.
    + destruct (leb a (nth i (positions cfg) 0)).
      * right; left. ring.
      * left. ring.
Qed.

Lemma X15_shear_never_increases_witness :
  exists r,
    analyze scenario_D = Ok r /\
    (forall i j, (i <= j < npts scenario_D)%nat ->
       nth j (V (profile r)) 0 <= nth i (V (profile r)) 0) /\
    (forall P a P2 a2, load_case scenario_D = PointLoad P a P2 a2 ->
       forall i, (i < npts scenario_D)%nat ->
         nth i (V (profile r)) 0 = R1 r \/
         nth i (V (profile r)) 0 = R1 r - P \/
         nth i (V (profile r)) 0 = R1 r - P2 \/
         nth i (V (profile r)) 0 = R1 r - P - P2).
Proof.
  apply (X15_shear_never_increases scenario_D valid_scenario_D).
Defined.

(** ** Symmetry about midspan *)

Section Symmetry.

Lemma linear_recurrence_zero (w : nat -> Qc) (n : nat) :
  w 0%nat = 0 -> w n = 0 ->
  (forall i, (1 <= i < n)%nat -> w (S i) = w i + w i - w (i - 1)%nat) ->
  forall i, (i <= n)%nat -> w i = 0.
Proof.
  intros H0 Hn Hrec.
  assert (Hlin : forall i, (i <= n)%nat ->
            (w i = of_nat i * w 1%nat) /\
            ((S i <= n)%nat -> w (S i) = of_nat (S i) * w 1%nat)).
  { induction i as [| i IH]; intro Hi.
    - split; [rewrite H0; change (of_nat 0) with 0; ring |].
      intros _. change (of_nat 1) with 1. ring.
    - destruct (IH ltac:(lia)) as [IH1 IH2].
      split; [apply IH2; exact Hi |].
      intro HS. rewrite Hrec by lia.
      replace (S i - 1)%nat with i by lia.
      rewrite (IH2 Hi), IH1. rewrite !of_nat_S. ring. }
  destruct n as [| n].
  - intros i Hi. replace i with 0%nat by lia. exact H0.
  - assert (H1 : w 1%nat = 0).
    { destruct (Hlin (S n) (Nat.le_refl _)) as [Hw _]. rewrite Hn in Hw.
      symmetry in Hw. destruct (Qcmult_integral _ _ Hw) as [Hz | Hz]; [| exact Hz].
      exfalso. apply (of_nat_neq_0 (S n)); [lia | exact Hz]. }
    intros i Hi. destruct (Hlin i Hi) as [Hw _]. rewrite Hw, H1. ring.
Qed.

Variable cfg : LoadConfiguration.
Hypothesis Hn : (2 <= npts cfg)%nat.
Hypothesis HL : 0 < L cfg.

Lemma symmetric_curvature_symmetric_deflection (kap s y0 : list Qc) :
  length kap = npts cfg ->
  cumtrapz kap (positions cfg) = Ok s -> length s = npts cfg ->
  cumtrapz s (positions cfg) = Ok y0 ->
  (forall i, (i < npts cfg)%nat -> nth (npts cfg - 1 - i) kap 0 = nth i kap 0) ->
  forall i, (i < npts cfg)%nat ->
    nth (npts cfg - 1 - i) y0 0
    + - nth (npts cfg - 1) y0 0 / L cfg * nth (npts cfg - 1 - i) (positions cfg) 0
    = nth i y0 0 + - nth (npts cfg - 1) y0 0 / L cfg * nth i (positions cfg) 0.
Proof.
  intros Hlk Hs Hls Hy0 Hsym.
  set (n := (npts cfg - 1)%nat).
  set (c := - nth n y0 0 / L cfg).
  set (h := spacing cfg).
  set (F := fun i => nth i y0 0 + c * nth i (positions cfg) 0).
  set (G := fun i => h * (h * (nth (S i) kap 0 + nth i kap 0) / two
                          + h * (nth i kap 0 + nth (i - 1) kap 0) / two) / two).
  assert (HF0 : F 0%nat = 0).
  { unfold F. rewrite (integral_start cfg Hn s y0 Hls Hy0).
    rewrite positions_first by lia. ring. }
  assert (HFn : F n = 0).
  { unfold F, c, n. rewrite positions_last by exact Hn.
    field. apply pos_neq_0. exact HL. }
  assert (Hsecond : forall i, (1 <= i)%nat -> (S i < npts cfg)%nat ->
            F (S i) = F i + F i - F (i - 1)%nat + G i).
  { intros i Hi1 Hi2. unfold F, G.
    destruct i as [| j]; [lia |].
    replace (S j - 1)%nat with j by lia.
    rewrite (uniform_step cfg Hn s y0 (S j) Hls Hy0) by lia.
    rewrite (uniform_step cfg Hn s y0 j Hls Hy0) by lia.
    rewrite (uniform_step cfg Hn kap s (S j) Hlk Hs) by lia.
    rewrite (uniform_step cfg Hn kap s j Hlk Hs) by lia.
    rewrite !positions_nth by lia. rewrite !of_nat_S.
    fold h. unfold two. field. exact two_neq_0. }
  assert (HG : forall i, (1 <= i)%nat -> (S i < npts cfg)%nat -> G (n - i)%nat = G i).
  { intros i Hi1 Hi2. unfold G.
    replace (S (n - i)) with (npts cfg - 1 - (i - 1))%nat by (unfold n; lia).
    replace (n - i - 1)%nat with (npts cfg - 1 - S i)%nat by (unfold n; lia).
    replace (n - i)%nat with (npts cfg - 1 - i)%nat by (unfold n; lia).
    rewrite !Hsym by lia. unfold Qcdiv. ring. }
  assert (Hzero : forall i, (i <= n)%nat -> F i - F (n - i)%nat = 0).
  { apply (linear_recurrence_zero (fun i => F i - F (n - i)%nat) n).
    - rewrite Nat.sub_0_r, HF0, HFn. ring.
    - rewrite Nat.sub_diag, HF0, HFn. ring.
    - intros i [Hi1 Hi2].
      rewrite (Hsecond i Hi1) by (unfold n in Hi2; lia).
      assert (Hmirror : F (n - (i - 1))%nat
                        = F (n - i)%nat + F (n - i)%nat - F (n - S i)%nat + G (n - i)%nat).
      { replace (n - (i - 1))%nat with (S (n - i)) by lia.
        replace (n - S i)%nat with (n - i - 1)%nat by lia.
        apply Hsecond; unfold n in *; lia. }
      rewrite (HG i Hi1) in Hmirror by (unfold n in Hi2; lia).
      assert (Hout : F (n - S i)%nat
                     = F (n - i)%nat + F (n - i)%nat - F (n - (i - 1))%nat + G i)
        by (rewrite Hmirror; ring).
      rewrite Hout. ring. }
  intros i Hi.
  assert (Hz : F i - F (n - i)%nat = 0) by (apply Hzero; unfold n; lia).
  unfold F in Hz. fold n. fold c.
  assert (Heq : nth i y0 0 + c * nth i (positions cfg) 0
                = nth i y0 0 + c * nth i (positions cfg) 0
                  - (nth (n - i) y0 0 + c * nth (n - i) (positions cfg) 0)
                  + (nth (n - i) y0 0 + c * nth (n - i) (positions cfg) 0)) by ring.
  rewrite Heq, Hz. ring.
Qed.

End Symmetry.

(** * The run in binary64 *)

(** ** Zeros, signs and comparisons of binary64 numbers *)

Section Binary64Scalars.

Import PrimFloat SpecFloat FloatOps FloatAxioms.
Import Binary64.
Local Open Scope float_scope.









(** A value at least 0.1 is not zero. *)
Lemma tenth_not_zero (v : float) : (0.1 <=? v) = true -> (v =? 0) = false.
Proof.
  rewrite leb_spec, eqb_spec.
  destruct (Prim2SF v) as [s | s | | s m e]; intro H.
  - destruct s; vm_compute in H; discriminate H.
  - destruct s; reflexivity.
  - reflexivity.
  - destruct s; reflexivity.
Qed.

(** Rounding keeps the sign it is given. *)
Lemma round_sign (mx ex : Z) (lx : location) :
  match binary_round_aux prec emax false mx ex lx with
  | S754_finite true _ _ | S754_infinity true => False
  | _ => True
  end.
Proof.
  unfold binary_round_aux.
  destruct (shr_fexp prec emax mx ex lx) as [mrs e].
  destruct (shr_fexp prec emax _ e loc_Exact) as [mrs' e'].
  destruct (shr_m mrs'); [exact Logic.I | | exact Logic.I].
  destruct (e' <=? emax - prec)%Z; exact Logic.I.
Qed.

Lemma not_negative_mul (u v : float) :
  not_negative u -> not_negative v -> not_negative (u * v).
Proof.
  unfold not_negative. rewrite mul_spec.
  destruct (Prim2SF u) as [[|] | [|] | | [|] mu eu],
           (Prim2SF v) as [[|] | [|] | | [|] mv ev];
    simpl; try tauto; intros _ _; apply round_sign.
Qed.

Lemma not_negative_add (u v : float) :
  not_negative u -> not_negative v -> not_negative (u + v).
Proof.
  unfold not_negative. rewrite add_spec.
  destruct (Prim2SF u) as [[|] | [|] | | [|] mu eu],
           (Prim2SF v) as [[|] | [|] | | [|] mv ev];
    simpl; try tauto; intros _ _.
  unfold binary_normalize, binary_round.
  destruct (shl_align _ _ _) as [mz ez]. apply round_sign.
Qed.

Lemma not_negative_div (u v : float) :
  not_negative u -> positive v -> not_negative (u / v).
Proof.
  unfold not_negative, positive. rewrite div_spec.
  destruct (Prim2SF u) as [[|] | [|] | | [|] mu eu],
           (Prim2SF v) as [[|] | [|] | | [|] mv ev];
    simpl; try tauto; intros _ _.
  destruct (SFdiv_core_binary prec emax (Z.pos mu) eu (Z.pos mv) ev) as [[mz ez] lz].
  apply round_sign.
Qed.

Lemma not_negative_ltb (v : float) : not_negative v -> (v <? 0) = false.
Proof.
  unfold not_negative. rewrite ltb_spec.
  destruct (Prim2SF v) as [[|] | [|] | | [|] m e]; simpl; tauto || reflexivity.
Qed.

Lemma leb_zero_not_negative (v : float) : (0 <=? v) = true -> not_negative v.
Proof.
  unfold not_negative. rewrite leb_spec.
  destruct (Prim2SF v) as [[|] | [|] | | [|] m e]; simpl; auto; discriminate.
Qed.

Lemma leb_tenth_positive (v : float) : (0.1 <=? v) = true -> positive v.
Proof.
  unfold positive. rewrite leb_spec.
  destruct (Prim2SF v) as [[|] | [|] | | [|] m e]; auto; intro H;
    vm_compute in H; discriminate H.
Qed.

Lemma positive_not_negative (v : float) : positive v -> not_negative v.
Proof.
  unfold positive, not_negative.
  destruct (Prim2SF v) as [[|] | [|] | | [|] m e]; tauto.
Qed.

End Binary64Scalars.

(** ** The arrays of the binary64 run *)

Section Binary64Arrays.

Import PrimFloat.
Import Binary64.
Local Open Scope float_scope.




















End Binary64Arrays.

(** ** The binary64 run, taken apart *)

Section Binary64Run.

Import PrimFloat.
Import Binary64.
Local Open Scope float_scope.



(** The load cases the sidebar block builds: the second position is
    missing only beside a second magnitude of exactly zero. *)
Lemma b64_built_loads (l : Loading) :
  match build_loads l with
  | PointLoad _ _ P2 a2 => general_branch P2 a2 = true /\ (a2 = None -> truthy P2 = false)
  | UDL _ => True
  end.
Proof.
  destruct l as [P_kn a [[P2_kn a2] |] | w]; simpl; [| split; reflexivity | exact Logic.I].
  split; [| discriminate].
  unfold general_branch, truthy. simpl. destruct (P2_kn * 1000 =? 0); reflexivity.
Qed.


End Binary64Run.

(** ** The two ends of the deflection (lines 93-101) *)

Section DeflectionEnds.

Import PrimFloat.
Import Scalar Np.





End DeflectionEnds.

(** ** The sidebar and the failures of the run (lines 19-44 and 50-117) *)

Section SidebarRuns.




End SidebarRuns.


(** * Exact arithmetic and binary64 side by side *)

Section SideBySide.

Import PrimFloat.
Import Scalar Np.

Lemma b64_thousand_not_negative : Binary64.not_negative 1000%float.
Proof. exact Logic.I. Qed.

Lemma b64_two_positive : Binary64.positive 2%float.
Proof. exact Logic.I. Qed.

Lemma b64_zero_not_negative : Binary64.not_negative 0%float.
Proof. exact Logic.I. Qed.

(** X2: in exact arithmetic both reactions of a valid configuration are
    non-negative and add up to the total load (P + P2, or w * L for the
    distributed load).  In the binary64 arithmetic of the script the right
    reaction R2 is never negative on a state the sidebar delivers, but the
    left one, the rounded difference total_load - R2, can be: with 1 kN
    over the right support of a beam of 6.1 m the script has
    R2 = 1000.0000000000001 and R1 = -2^-43 (-1.14e-13). *)
Theorem X2_reaction_signs :
  (forall (cfg : LoadConfiguration),
     valid cfg ->
     exists r1 r2,
       solve_reactions cfg = Ok (r1, r2) /\
       0 <= r1 /\ 0 <= r2 /\ r1 + r2 = total_load_of cfg) /\
  (forall s : Binary64.Sidebar,
     Binary64.delivered s = true ->
     exists cfg r1 r2,
       Binary64.build s = Ok cfg /\
       Binary64.solve_reactions cfg = Ok (r1, r2) /\
       (r2 <? 0)%float = false) /\
  (Binary64.delivered Binary64.right_support_61 = true /\
   exists cfg,
     Binary64.build Binary64.right_support_61 = Ok cfg /\
     Binary64.solve_reactions cfg = Ok ((- 0x1p-43)%float, 1000.0000000000001%float) /\
     (- 0x1p-43 <? 0)%float = true).
Proof.
  split.
  { intros cfg.
    intro Hvalid. pose proof Hvalid as [HL [_ [_ [_ Hloads]]]].
    assert (HL0 : L cfg <> 0) by (apply pos_neq_0; exact HL).
    pose proof (valid_positions_known cfg Hvalid) as Hk.
    unfold total_load_of.
    destruct (load_case cfg) as [P a P2 a2 | w] eqn:Hlc.
    - rewrite <- Hlc in Hk.
      rewrite (valid_point_reactions cfg P a P2 a2 HL0 Hk Hlc).
      eexists. eexists. split; [reflexivity |].
      simpl in Hloads. destruct Hloads as [HP [[Ha0 HaL] [HP2 Ha2]]].
      set (a2v := match a2 with Some v => v | None => 0 end).
      assert (Ha2v : 0 <= a2v /\ a2v <= L cfg).
      { unfold a2v. destruct a2 as [v |]; [exact Ha2 |].
        split; [apply Qcle_refl | apply Qclt_le_weak; exact HL]. }
      destruct Ha2v as [Hv0 HvL].
      destruct (div_bounds (P * a + P2 * a2v) (P + P2) (L cfg) HL) as [Hlo Hhi].
      + to_Q. nra.
      + to_Q. nra.
      + split; [| split; [exact Hlo | ring]].
        to_Q. lra.
    - unfold solve_reactions. rewrite Hlc.
      eexists. eexists. split; [reflexivity |].
      simpl in Hloads.
      assert (Hr : 0 <= w * L cfg / two).
      { destruct (div_bounds (w * L cfg) (w * L cfg) two) as [H _].
        - reflexivity.
        - apply mul_nonneg; [exact Hloads | apply Qclt_le_weak; exact HL].
        - to_Q. assert (0 <= this w * this (L cfg))%Q by nra. lra.
        - exact H. }
      split; [exact Hr |]. split; [exact Hr |].
      unfold two. field. exact two_neq_0. }
  split.
  { intros s H. unfold Binary64.delivered in H.
    apply andb_prop in H as [H _]. apply andb_prop in H as [H Hloads].
    apply andb_prop in H as [H _]. apply andb_prop in H as [HL _].
    unfold Binary64.number_input in HL.
    pose proof (tenth_not_zero _ HL) as HL0.
    apply leb_tenth_positive in HL.
    set (cfg := {| Binary64.L := Binary64.sb_L s;
                   Binary64.E := (Binary64.sb_E_gpa s * 1e9)%float;
                   Binary64.I := Binary64.sb_I s;
                   Binary64.load_case := Binary64.build_loads (Binary64.sb_loading s);
                   Binary64.npts := Binary64.sb_npts s |}).
    assert (Hr : exists r1 r2,
              Binary64.solve_reactions cfg = Ok (r1, r2) /\ (r2 <? 0)%float = false).
    { unfold Binary64.solve_reactions. cbn [cfg Binary64.load_case Binary64.L].
      pose proof (b64_built_loads (Binary64.sb_loading s)) as Hb.
      unfold Binary64.loads_delivered, Binary64.number_input, Binary64.slider in Hloads.
      destruct (Binary64.sb_loading s) as [P_kn a [[P2_kn a2] |] | w];
        cbn [Binary64.build_loads] in Hb |- *.
      - destruct Hb as [-> _].
        apply andb_prop in Hloads as [Hl H2]. apply andb_prop in Hl as [HP Ha].
        apply andb_prop in Ha as [Ha _]. apply andb_prop in H2 as [HP2 Ha2].
        apply andb_prop in Ha2 as [Ha2 _].
        apply leb_zero_not_negative in HP, Ha, HP2, Ha2.
        unfold Binary64.reactions_moment_balance, Binary64.pydiv. rewrite HL0.
        destruct (Binary64.truthy (P2_kn * 1000)); cbn [bind];
          do 2 eexists; (split; [reflexivity |]);
          apply not_negative_ltb, not_negative_div; try exact HL;
          apply not_negative_add;
          repeat (apply not_negative_mul); try assumption;
          try exact b64_thousand_not_negative; exact b64_zero_not_negative.
      - destruct Hb as [-> _].
        apply andb_prop in Hloads as [Hl _]. apply andb_prop in Hl as [HP Ha].
        apply andb_prop in Ha as [Ha _].
        apply leb_zero_not_negative in HP, Ha.
        unfold Binary64.reactions_moment_balance, Binary64.pydiv. rewrite HL0.
        change (Binary64.truthy 0) with false. cbn [bind].
        do 2 eexists. split; [reflexivity |].
        apply not_negative_ltb, not_negative_div; try exact HL.
        apply not_negative_add; [| exact b64_zero_not_negative].
        repeat (apply not_negative_mul); try assumption.
        exact b64_thousand_not_negative.
      - apply leb_zero_not_negative in Hloads.
        do 2 eexists. split; [reflexivity |].
        apply not_negative_ltb, not_negative_div; [| exact b64_two_positive].
        apply not_negative_mul; [| apply positive_not_negative; exact HL].
        apply not_negative_mul; [exact Hloads | exact b64_thousand_not_negative]. }
    destruct Hr as [r1 [r2 [Hr Hsign]]].
    exists cfg, r1, r2. split; [reflexivity |]. split; assumption. }
  { split; [reflexivity |]. eexists. split; [reflexivity |].
    split; vm_compute; reflexivity. }
Qed.

Lemma X2_reaction_signs_witness :
  exists r1 r2,
    solve_reactions scenario_D = Ok (r1, r2) /\
    0 <= r1 /\ 0 <= r2 /\ r1 + r2 = total_load_of scenario_D.
Proof.
  apply (proj1 X2_reaction_signs scenario_D valid_scenario_D).
Defined.

(** X7: in exact arithmetic the moment under a distributed load is
    w * x_i * (L - x_i) / 2 at every sample: zero at both supports, never
    negative and never above w * L^2 / 8; the displayed minimum is 0, and
    the displayed maximum is w * L^2 / 8 when the sample count is odd (a
    sample sits at midspan) and strictly less when it is even and w > 0.
    The script reproduces this up to rounding only: on the default beam
    under the default load of 5 kN/m at 501 samples, the last moment and
    the displayed minimum are -4.15e-12 and the displayed maximum is
    22500.000000000004, above w * L^2 / 8 = 22500. *)
Theorem X7_distributed_moment_profile :
  (forall (cfg : LoadConfiguration) (w : Qc),
     valid cfg -> load_case cfg = UDL w ->
     let peak := w * L cfg * L cfg / (two * two * two) in
     exists r pe,
       analyze cfg = Ok r /\
       profile_extremes (profile r) = Ok pe /\
       (forall i, (i < npts cfg)%nat ->
          nth i (M (profile r)) 0 =
          w * nth i (positions cfg) 0 * (L cfg - nth i (positions cfg) 0) / two) /\
       nth 0 (M (profile r)) 0 = 0 /\
       nth (npts cfg - 1) (M (profile r)) 0 = 0 /\
       (forall i, (i < npts cfg)%nat ->
          0 <= nth i (M (profile r)) 0 /\ nth i (M (profile r)) 0 <= peak) /\
       M_min pe = 0 /\
       M_max pe <= peak /\
       (Nat.Odd (npts cfg) -> M_max pe = peak) /\
       (Nat.Even (npts cfg) -> 0 < w -> M_max pe < peak)) /\
  (Binary64.delivered Binary64.udl_501 = true /\
   exists r pe,
     Binary64.run Binary64.udl_501 = Ok r /\
     Binary64.profile_extremes (Binary64.profile r) = Ok pe /\
     nth 500 (Binary64.M (Binary64.profile r)) 0%float = (-4.1495695768389851e-12)%float /\
     Binary64.M_min pe = (-4.1495695768389851e-12)%float /\
     Binary64.M_max pe = 22500.000000000004%float /\
     (5 * 1000 * 6 * 6 / (2 * 2 * 2) = 22500)%float /\
     (Binary64.M_min pe <? 0)%float = true /\
     (22500 <? Binary64.M_max pe)%float = true).
Proof.
  split.
  { intros cfg w.
    intros Hvalid Hlc peak. pose proof Hvalid as [HL [_ [_ [Hn Hloads]]]].
    rewrite Hlc in Hloads. simpl in Hloads.
    pose proof (positions_length cfg) as Hlen.
    assert (Hne : positions cfg <> []) by (apply positions_nonempty; lia).
    destruct (run_parts cfg (valid_runnable cfg Hvalid))
      as [r1 [r2 [v [m [slope [y0 [ys [ex [Hr [Hv [Hm [_ [_ [_ [_ [_ [Hls Hrun]]]]]]]]]]]]]]]]].
    destruct Hls as [Hlv [Hlm _]].
    unfold solve_reactions in Hr. rewrite Hlc in Hr. injection Hr as Hr1 Hr2.
    assert (Hnth : forall i, (i < npts cfg)%nat ->
              nth i m 0 =
              w * nth i (positions cfg) 0 * (L cfg - nth i (positions cfg) 0) / two).
    { intros i Hi.
      rewrite (cumtrapz_affine (positions cfg) v m r1 w Hne); try congruence.
      - rewrite <- Hr1. unfold two. field. exact two_neq_0.
      - intros j Hj. apply (udl_shear_nth cfg w r1 (positions cfg) v j Hlc Hv Hj).
      - apply positions_first. lia. }
    assert (Hbounds : forall i, (i < npts cfg)%nat ->
              0 <= nth i m 0 /\ nth i m 0 <= peak).
    { intros i Hi. rewrite Hnth by exact Hi.
      destruct (positions_within cfg i Hn HL Hi) as [Hx0 HxL].
      unfold peak. to_Q.
      set (xi := this (nth i (positions cfg) 0)) in *.
      set (len := this (L cfg)) in *. set (q := this w) in *.
      pose proof (square_nonneg (len - 2 * xi)) as Hsq0.
      assert (Hsq : (0 <= q * ((len - 2 * xi) * (len - 2 * xi)))%Q) by nra.
      assert (Hpr0 : (0 <= xi * (len - xi))%Q) by nra.
      assert (Hpr : (0 <= q * (xi * (len - xi)))%Q) by nra.
      const_div. split; nra. }
    assert (Hfirst : nth 0 m 0 = 0).
    { rewrite Hnth by lia. rewrite positions_first by lia. unfold Qcdiv. ring. }
    assert (Hlast : nth (npts cfg - 1) m 0 = 0).
    { rewrite Hnth by lia. rewrite positions_last by exact Hn. unfold Qcdiv. ring. }
    assert (Hmin : np_min m = Ok 0).
    { apply (min_is m 0 0%nat); [lia | exact Hfirst |].
      intros i Hi. apply Hbounds. lia. }
    assert (Hmne : m <> []) by (destruct m; [simpl in Hlm; lia | discriminate]).
    assert (Hvne : v <> []) by (destruct v; [simpl in Hlv; lia | discriminate]).
    destruct (np_max_spec m Hmne) as [mhi [Hmhi [Hin Hge]]].
    destruct (np_max_spec v Hvne) as [vhi [Hvhi _]].
    destruct (np_min_spec v Hvne) as [vlo [Hvlo _]].
    destruct (In_nth _ _ 0 Hin) as [j [Hj Hjm]]. rewrite Hlm in Hj.
    eexists. eexists. split; [exact Hrun |]. cbn [profile M V].
    split.
    { unfold profile_extremes. cbn [M V].
      rewrite Hmhi. cbn [bind]. rewrite Hmin. cbn [bind].
      rewrite Hvhi. cbn [bind]. rewrite Hvlo. cbn [bind]. reflexivity. }
    cbn [M_max M_min].
    split; [exact Hnth |]. split; [exact Hfirst |]. split; [exact Hlast |].
    split; [exact Hbounds |]. split; [reflexivity |].
    split; [rewrite <- Hjm; apply Hbounds; exact Hj |].
    split.
    - intros [k Hk].
      apply Qcle_antisym; [rewrite <- Hjm; apply Hbounds; exact Hj |].
      assert (Hkn : (k < npts cfg)%nat) by lia.
      assert (Hmid : nth k m 0 = peak).
      { rewrite Hnth by exact Hkn. rewrite positions_nth by lia.
        unfold spacing. replace (npts cfg - 1)%nat with (k + k)%nat by lia.
        rewrite of_nat_add. unfold peak, two.
        assert (Hkk : of_nat k + of_nat k <> 0).
        { rewrite <- of_nat_add. apply of_nat_neq_0. lia. }
        field. repeat split; try exact Hkk; intro Hz; discriminate Hz. }
      rewrite <- Hmid. apply Hge. apply nth_In. rewrite Hlm. exact Hkn.
    - intros [k Hk] Hw.
      rewrite <- Hjm. rewrite Hnth by exact Hj.
      assert (Hoff : nth j (positions cfg) 0 + nth j (positions cfg) 0 <> L cfg).
      { rewrite positions_nth by lia. intro Heq.
        assert (Hd : of_nat (npts cfg - 1) <> 0) by (apply of_nat_neq_0; lia).
        assert (Hz : (of_nat (j + j) - of_nat (npts cfg - 1)) * spacing cfg = 0).
        { rewrite of_nat_add.
          replace ((of_nat j + of_nat j - of_nat (npts cfg - 1)) * spacing cfg)
            with (of_nat j * spacing cfg + of_nat j * spacing cfg
                  - of_nat (npts cfg - 1) * spacing cfg) by ring.
          rewrite Heq. unfold spacing. field. exact Hd. }
        destruct (Qcmult_integral _ _ Hz) as [Hjj | Hsp].
        - assert (Hjj' : of_nat (j + j) = of_nat (npts cfg - 1)).
          { replace (of_nat (j + j))
              with (of_nat (j + j) - of_nat (npts cfg - 1) + of_nat (npts cfg - 1)) by ring.
            rewrite Hjj. ring. }
          apply of_nat_inj in Hjj'. lia.
        - exact (pos_neq_0 _ (spacing_pos cfg Hn HL) Hsp). }
      unfold peak. to_Q.
      set (xi := this (nth j (positions cfg) 0)) in *.
      set (len := this (L cfg)) in *. set (q := this w) in *.
      assert (Hsq : (0 < (len - 2 * xi) * (len - 2 * xi))%Q).
      { apply square_pos. intro Hz. apply Hoff. lra. }
      assert (Hsq' : (0 < q * ((len - 2 * xi) * (len - 2 * xi)))%Q) by nra.
      const_div. nra. }
  { split; [reflexivity |]. eexists. eexists.
    split; [vm_compute; reflexivity |]. split; [vm_compute; reflexivity |].
    repeat split; vm_compute; reflexivity. }
Qed.

Lemma X7_distributed_moment_profile_witness :
  let peak := of_Z 5 * thousand * L scenario_B * L scenario_B / (two * two * two) in
  exists r pe,
    analyze scenario_B = Ok r /\
    profile_extremes (profile r) = Ok pe /\
    (forall i, (i < npts scenario_B)%nat ->
       nth i (M (profile r)) 0 =
       of_Z 5 * thousand * nth i (positions scenario_B) 0
       * (L scenario_B - nth i (positions scenario_B) 0) / two) /\
    nth 0 (M (profile r)) 0 = 0 /\
    nth (npts scenario_B - 1) (M (profile r)) 0 = 0 /\
    (forall i, (i < npts scenario_B)%nat ->
       0 <= nth i (M (profile r)) 0 /\ nth i (M (profile r)) 0 <= peak) /\
    M_min pe = 0 /\
    M_max pe <= peak /\
    (Nat.Odd (npts scenario_B) -> M_max pe = peak) /\
    (Nat.Even (npts scenario_B) -> 0 < of_Z 5 * thousand -> M_max pe < peak).
Proof.
  apply (proj1 X7_distributed_moment_profile scenario_B (of_Z 5 * thousand)
           valid_scenario_B eq_refl).
Defined.

(** X8: in exact arithmetic, with the single point load over the right
    support (a = L, P2 = 0), the reactions are R1 = 0 and R2 = P, and the
    jump of the shear falls on the last sample: shear and moment are zero
    before it, V = -P and M = -P * h / 2 on it (h the spacing); the
    deflection is then not zero: y_i = P * h^3 * x_i / (8 * E * I * L)
    before the last sample, which is zero.  In the script the quotient
    P * L / L is rounded and need not give P back: with 1 kN over the right
    support of a beam of 6.1 m, R1 = -2^-43, and shear and moment before
    the last sample are not zero. *)
Theorem X8_load_over_right_support :
  (forall (cfg : LoadConfiguration) (P : Qc) (a2 : option Qc),
     valid cfg -> load_case cfg = PointLoad P (L cfg) 0 a2 ->
     let h := spacing cfg in
     exists r,
       analyze cfg = Ok r /\
       R1 r = 0 /\ R2 r = P /\
       (forall i, (i < npts cfg - 1)%nat ->
          nth i (V (profile r)) 0 = 0 /\ nth i (M (profile r)) 0 = 0 /\
          nth i (y r) 0 =
          P * (h * h * h) * nth i (positions cfg) 0
          / (two * two * two * (E cfg * I cfg) * L cfg)) /\
       nth (npts cfg - 1) (V (profile r)) 0 = - P /\
       nth (npts cfg - 1) (M (profile r)) 0 = - (P * h / two) /\
       nth (npts cfg - 1) (y r) 0 = 0) /\
  (Binary64.delivered Binary64.right_support_61 = true /\
   exists r,
     Binary64.run Binary64.right_support_61 = Ok r /\
     Binary64.R1 r = (- 0x1p-43)%float /\
     Binary64.R2 r = 1000.0000000000001%float /\
     nth 0 (Binary64.V (Binary64.profile r)) 0%float = (- 0x1p-43)%float /\
     nth 498 (Binary64.V (Binary64.profile r)) 0%float = (- 0x1p-43)%float /\
     nth 499 (Binary64.V (Binary64.profile r)) 0%float = (-1000.0000000000001)%float /\
     nth 498 (Binary64.M (Binary64.profile r)) 0%float = (-6.9209995116377781e-13)%float /\
     nth 499 (Binary64.y r) 0%float = 0%float).
Proof.
  split.
  { intros cfg P a2.
    intros Hvalid Hlc h. pose proof Hvalid as [HL [HE [HI [Hn Hloads]]]].
    assert (HL0 : L cfg <> 0) by (apply pos_neq_0; exact HL).
    assert (HE0 : E cfg <> 0) by (apply pos_neq_0; exact HE).
    assert (HI0 : I cfg <> 0) by (apply pos_neq_0; exact HI).
    pose proof (valid_positions_known cfg Hvalid) as Hk.
    pose proof (positions_length cfg) as Hlen.
    destruct (npts cfg) as [| [| n2]] eqn:HN; try lia.
    assert (HN' : npts cfg = S (S n2)) by exact HN.
    destruct (run_parts cfg (valid_runnable cfg Hvalid))
      as [r1 [r2 [v [m [s [y0 [ys [ex [Hr [Hv [Hm [Hs [Hy0 [Hys [Hf [_
           [[Hlv [Hlm [Hls [Hly0 Hly]]]] Hana]]]]]]]]]]]]]]]]].
    rewrite HN in Hf, Hlv, Hlm, Hls, Hly0, Hly.
    replace (S (S n2) - 1)%nat with (S n2) in * by lia.
    rewrite (valid_point_reactions cfg P (L cfg) 0 a2 HL0 Hk Hlc) in Hr.
    injection Hr as Hr1 Hr2.
    assert (HR1 : r1 = 0) by (rewrite <- Hr1; field; exact HL0).
    assert (HR2 : r2 = P) by (rewrite <- Hr2; field; exact HL0).
    assert (Hshear : forall i, (i < S (S n2))%nat ->
              nth i v 0 = if leb (L cfg) (nth i (positions cfg) 0) then - P else 0).
    { intros i Hi.
      rewrite (point_shear_nth cfg P (L cfg) 0 a2 r1 (positions cfg) v i Hlc Hv)
        by (rewrite Hlen; exact Hi).
      rewrite Hlc, HR1. simpl.
      destruct (leb (L cfg) (nth i (positions cfg) 0)); destruct a2 as [u |]; simpl;
        try destruct (leb u (nth i (positions cfg) 0)); ring. }
    assert (Hv0 : forall i, (i < S n2)%nat -> nth i v 0 = 0).
    { intros i Hi. rewrite Hshear by lia.
      assert (Hlt : leb (L cfg) (nth i (positions cfg) 0) = false).
      { apply leb_gt.
        apply (Qclt_le_trans _ (nth (npts cfg - 1) (positions cfg) 0)).
        - apply positions_lt; [lia | exact HL | lia].
        - rewrite positions_last by lia. apply Qcle_refl. }
      rewrite Hlt. reflexivity. }
    assert (Hvl : nth (S n2) v 0 = - P).
    { rewrite Hshear by lia.
      replace (S n2) with (npts cfg - 1)%nat by lia.
      rewrite positions_last by lia.
      assert (Hle : leb (L cfg) (L cfg) = true) by (apply leb_le, Qcle_refl).
      rewrite Hle. reflexivity. }
    destruct (last_step cfg v m n2 (- P) HN') as [Hm0 Hml]; try assumption; try congruence.
    set (ei := E cfg * I cfg) in *.
    set (k := map (fun u => u / ei) m) in *.
    assert (Hlk : length k = npts cfg) by (unfold k; rewrite length_map; congruence).
    assert (Hk0 : forall i, (i < S n2)%nat -> nth i k 0 = 0).
    { intros i Hi. unfold k. rewrite nth_map_in by lia. rewrite Hm0 by exact Hi.
      unfold Qcdiv. ring. }
    assert (Hkl : nth (S n2) k 0 = spacing cfg * - P / two / ei).
    { unfold k. rewrite nth_map_in by lia. rewrite Hml. reflexivity. }
    destruct (last_step cfg k s n2 _ HN' Hlk Hk0 Hkl Hs) as [Hs0 Hsl].
    destruct (last_step cfg s y0 n2
                (spacing cfg * (spacing cfg * - P / two / ei) / two) HN')
      as [Hy00 Hy0l]; [congruence | exact Hs0 | exact Hsl | exact Hy0 |].
    eexists. split; [exact Hana |]. cbn [R1 R2 profile V M y].
    split; [exact HR1 |]. split; [exact HR2 |].
    assert (Hei : ei <> 0).
    { unfold ei. intro Hz. destruct (Qcmult_integral _ _ Hz); contradiction. }
    split; [| split; [exact Hvl | split]].
    - intros i Hi. replace (S (S n2) - 1)%nat with (S n2) in Hi by lia.
      split; [apply Hv0; exact Hi |]. split; [apply Hm0; exact Hi |].
      rewrite Hf by lia. rewrite Hy00 by exact Hi. rewrite Hy0l.
      unfold h, ei, two. field.
      repeat split; try assumption; intro Hz; discriminate Hz.
    - rewrite Hml. unfold h. unfold Qcdiv. ring.
    - rewrite Hf by lia.
      replace (S n2) with (npts cfg - 1)%nat at 3 by lia.
      rewrite positions_last by lia. field. exact HL0. }
  { split; [reflexivity |]. eexists.
    split; [vm_compute; reflexivity |].
    repeat split; vm_compute; reflexivity. }
Qed.

Lemma X8_load_over_right_support_witness :
  let h := spacing right_support_scenario in
  exists r,
    analyze right_support_scenario = Ok r /\
    R1 r = 0 /\ R2 r = of_Z 10 * thousand /\
    (forall i, (i < npts right_support_scenario - 1)%nat ->
       nth i (V (profile r)) 0 = 0 /\ nth i (M (profile r)) 0 = 0 /\
       nth i (y r) 0 =
       of_Z 10 * thousand * (h * h * h) * nth i (positions right_support_scenario) 0
       / (two * two * two * (E right_support_scenario * I right_support_scenario)
          * L right_support_scenario)) /\
    nth (npts right_support_scenario - 1) (V (profile r)) 0 = - (of_Z 10 * thousand) /\
    nth (npts right_support_scenario - 1) (M (profile r)) 0
    = - (of_Z 10 * thousand * h / two) /\
    nth (npts right_support_scenario - 1) (y r) 0 = 0.
Proof.
  apply (proj1 X8_load_over_right_support right_support_scenario (of_Z 10 * thousand) None
           valid_right_support_scenario eq_refl).
Defined.

(** X13: for a single point load at 0 < a <= L the moment does not return
    to zero at the right support in general.  In exact arithmetic, with k
    the first sample at or after the load, the trapezoid rule places the
    jump of the shear midway between samples k-1 and k, and
    M[N-1] = P * (mid - a): at most P * h / 2 in size, and zero exactly
    when the load sits midway between the two samples (or P = 0).  In the
    script the samples are rounded, and a sample that is on the load in
    exact arithmetic can fall short of it: with the default beam and load
    at 189 samples, x[94] = 2.9999999999999996 < a = 3, the jump of the
    shear moves one sample to the right and M[188] = +159.57 where exact
    arithmetic has -7500/47 = -159.57; at the default 500 samples, where
    exact arithmetic has M[499] = 0, the script has 8.2e-12. *)
Theorem X13_moment_at_right_support :
  (forall (cfg : LoadConfiguration) (P a : Qc) (a2 : option Qc),
     valid cfg -> load_case cfg = PointLoad P a 0 a2 -> 0 < a ->
     exists r k,
       analyze cfg = Ok r /\
       (1 <= k <= npts cfg - 1)%nat /\
       nth (k - 1) (positions cfg) 0 < a /\ a <= nth k (positions cfg) 0 /\
       let mid := (nth (k - 1) (positions cfg) 0 + nth k (positions cfg) 0) / two in
       (forall i, (i < npts cfg)%nat ->
          nth i (M (profile r)) 0 =
          R1 r * nth i (positions cfg) 0
          - (if (k <=? i)%nat then P * (nth i (positions cfg) 0 - mid) else 0)) /\
       nth (npts cfg - 1) (M (profile r)) 0 = P * (mid - a) /\
       - (P * spacing cfg / two) <= nth (npts cfg - 1) (M (profile r)) 0 /\
       nth (npts cfg - 1) (M (profile r)) 0 <= P * spacing cfg / two /\
       (nth (npts cfg - 1) (M (profile r)) 0 = 0 <-> P = 0 \/ a = mid)) /\
  ((exists r,
      analyze coarse_midspan = Ok r /\
      this (nth 94 (x r) 0) = 3%Q /\
      this (nth 94 (V (profile r)) 0) = (-5000 # 1)%Q /\
      this (nth 188 (M (profile r)) 0) = (-7500 # 47)%Q) /\
   Binary64.delivered Binary64.midspan_189 = true /\
   exists r,
     Binary64.run Binary64.midspan_189 = Ok r /\
     nth 94 (Binary64.x r) 0%float = 2.9999999999999996%float /\
     (nth 94 (Binary64.x r) 0 <? 3)%float = true /\
     nth 94 (Binary64.V (Binary64.profile r)) 0%float = 5000%float /\
     nth 95 (Binary64.V (Binary64.profile r)) 0%float = (-5000)%float /\
     nth 188 (Binary64.M (Binary64.profile r)) 0%float = 159.57446808510093%float) /\
  (Binary64.delivered Binary64.midspan_500 = true /\
   exists r,
     Binary64.run Binary64.midspan_500 = Ok r /\
     nth 499 (Binary64.M (Binary64.profile r)) 0%float = 8.2209794527443592e-12%float).
Proof.
  split.
  { intros cfg P a a2.
    intros Hvalid Hlc Ha. pose proof Hvalid as [HL [_ [_ [Hn Hloads]]]].
    assert (HL0 : L cfg <> 0) by (apply pos_neq_0; exact HL).
    pose proof (valid_positions_known cfg Hvalid) as Hk.
    rewrite Hlc in Hloads. destruct Hloads as [HP [[_ HaL] _]].
    destruct (first_crossing (fun i => nth i (positions cfg) 0) a (npts cfg - 1))
      as [k [Hkr [Hbefore Hafter]]].
    { rewrite positions_first by lia. exact Ha. }
    { rewrite positions_last by exact Hn. exact HaL. }
    destruct (run_parts cfg (valid_runnable cfg Hvalid))
      as [r1 [r2 [v [m [s [y0 [ys [ex [Hr [Hv [Hm [_ [_ [_ [_ [_ [_ Hana]]]]]]]]]]]]]]]]].
    rewrite (valid_point_reactions cfg P a 0 a2 HL0 Hk Hlc) in Hr.
    injection Hr as Hr1 Hr2.
    pose proof (single_load_moment cfg P a r1 a2 v m k Hn HL Hlc Hv Hm Hkr Hbefore Hafter)
      as Hmom.
    set (mid := (nth (k - 1) (positions cfg) 0 + nth k (positions cfg) 0) / two) in *.
    assert (Hend : nth (npts cfg - 1) m 0 = P * (mid - a)).
    { rewrite Hmom by lia. rewrite positions_last by exact Hn.
      assert (Hle : (k <=? npts cfg - 1)%nat = true) by (apply Nat.leb_le; lia).
      rewrite Hle, <- Hr1. field. exact HL0. }
    assert (Hgap : nth k (positions cfg) 0 = nth (k - 1) (positions cfg) 0 + spacing cfg).
    { rewrite !positions_nth by lia.
      replace k with (S (k - 1)) at 1 by lia. rewrite of_nat_S. ring. }
    assert (Hmid : mid = nth (k - 1) (positions cfg) 0 + spacing cfg / two).
    { unfold mid. rewrite Hgap. unfold two. field. exact two_neq_0. }
    exists {| x := positions cfg; R1 := r1; R2 := r2;
              profile := {| V := v; M := m |}; y := ys; extremes := ex |}, k.
    cbn [R1 profile M].
    split; [exact Hana |]. split; [exact Hkr |].
    split; [exact Hbefore |]. split; [exact Hafter |].
    cbv zeta. fold mid.
    split; [exact Hmom |]. split; [exact Hend |].
    rewrite Hend. rewrite Hgap in Hafter.
    split; [| split].
    - rewrite Hmid. to_Q. const_div. nra.
    - rewrite Hmid. to_Q. const_div. nra.
    - split.
      + intro Hz. destruct (Qcmult_integral _ _ Hz) as [H0 | H0]; [left; exact H0 |].
        right. assert (Hma : mid = mid - a + a) by ring.
        rewrite H0 in Hma. rewrite Hma. ring.
      + intros [-> | ->]; ring. }
  { split; [split |].
    - eexists. split; [vm_compute; reflexivity |]. repeat split.
    - split; [reflexivity |]. eexists.
      split; [vm_compute; reflexivity |].
      repeat split; vm_compute; reflexivity.
    - split; [reflexivity |]. eexists.
      split; [vm_compute; reflexivity |]. vm_compute; reflexivity. }
Qed.

Lemma X13_moment_at_right_support_witness :
  exists r k,
    analyze scenario_A = Ok r /\
    (1 <= k <= npts scenario_A - 1)%nat /\
    nth (k - 1) (positions scenario_A) 0 < of_Z 3 /\
    of_Z 3 <= nth k (positions scenario_A) 0 /\
    let mid :=
      (nth (k - 1) (positions scenario_A) 0 + nth k (positions scenario_A) 0) / two in
    (forall i, (i < npts scenario_A)%nat ->
       nth i (M (profile r)) 0 =
       R1 r * nth i (positions scenario_A) 0
       - (if (k <=? i)%nat
          then of_Z 10 * thousand * (nth i (positions scenario_A) 0 - mid) else 0)) /\
    nth (npts scenario_A - 1) (M (profile r)) 0 = of_Z 10 * thousand * (mid - of_Z 3) /\
    - (of_Z 10 * thousand * spacing scenario_A / two)
    <= nth (npts scenario_A - 1) (M (profile r)) 0 /\
    nth (npts scenario_A - 1) (M (profile r)) 0
    <= of_Z 10 * thousand * spacing scenario_A / two /\
    (nth (npts scenario_A - 1) (M (profile r)) 0 = 0 <->
     of_Z 10 * thousand = 0 \/ of_Z 3 = mid).
Proof.
  apply (proj1 X13_moment_at_right_support scenario_A (of_Z 10 * thousand) (of_Z 3) None
           valid_scenario_A eq_refl).
  reflexivity.
Defined.

(** X14: with y'' = M / (E * I) a sagging beam deflects downwards as
    negative values.  In exact arithmetic, on a valid configuration whose
    moment samples are all non-negative, which is always so under a
    distributed load, no deflection sample is positive, and the signed
    extreme is the negative of the absolute maximum.  In the script the
    samples at the right support carry the rounding of the sums before
    them and can have the other sign: on the default beam under the default
    distributed load at 501 samples, M[500] < 0 and y[500] > 0, while the
    two reported extremes are still -0.0084374460000000012 and its
    absolute value. *)
Theorem X14_sign_of_the_deflection :
  (forall (cfg : LoadConfiguration),
     valid cfg ->
     exists r,
       analyze cfg = Ok r /\
       ((forall i, (i < npts cfg)%nat -> 0 <= nth i (M (profile r)) 0) ->
        (forall i, (i < npts cfg)%nat -> nth i (y r) 0 <= 0) /\
        max_deflection (extremes r) = - max_deflection_abs (extremes r)) /\
       (forall w, load_case cfg = UDL w ->
          (forall i, (i < npts cfg)%nat -> 0 <= nth i (M (profile r)) 0) /\
          (forall i, (i < npts cfg)%nat -> nth i (y r) 0 <= 0) /\
          max_deflection (extremes r) = - max_deflection_abs (extremes r))) /\
  (Binary64.delivered Binary64.udl_501 = true /\
   exists r,
     Binary64.run Binary64.udl_501 = Ok r /\
     (nth 500 (Binary64.M (Binary64.profile r)) 0 <? 0)%float = true /\
     (0 <? nth 500 (Binary64.y r) 0)%float = true /\
     Binary64.max_deflection (Binary64.extremes r) = (-0.0084374460000000012)%float /\
     Binary64.max_deflection_abs (Binary64.extremes r) = 0.0084374460000000012%float).
Proof.
  split.
  { intros cfg.
    intro Hvalid. pose proof Hvalid as [HL [HE [HI [Hn Hloads]]]].
    pose proof (positions_length cfg) as Hlen.
    assert (Hne : positions cfg <> []) by (apply positions_nonempty; lia).
    destruct (run_parts cfg (valid_runnable cfg Hvalid))
      as [r1 [r2 [v [m [s [y0 [ys [ex [Hr [Hv [Hm [Hs [Hy0 [Hys [Hf [Hex
           [[Hlv [Hlm [Hls [Hly0 Hly]]]] Hana]]]]]]]]]]]]]]]]].
    assert (Hsag : (forall i, (i < npts cfg)%nat -> 0 <= nth i m 0) ->
              (forall i, (i < npts cfg)%nat -> nth i ys 0 <= 0) /\
              max_deflection ex = - max_deflection_abs ex).
    { intro Hmpos.
      assert (Hy : forall i, (i < npts cfg)%nat -> nth i ys 0 <= 0).
      { intros i Hi. rewrite Hf by exact Hi.
        apply (nonneg_curvature_sags cfg Hn HL
                 (map (fun u => u / (E cfg * I cfg)) m) s y0); try assumption.
        - rewrite length_map. exact Hlm.
        - intros j Hj. rewrite nth_map_in by lia.
          unfold Qcdiv. apply mul_nonneg; [apply Hmpos; exact Hj |].
          apply inv_nonneg, Qclt_le_weak, scale_pos; assumption. }
      split; [exact Hy |].
      apply (extremes_of_nonpositive ys (positions cfg) ex); try congruence.
      - apply (nonempty_of_length _ (npts cfg)); [exact Hly | lia].
      - intros u Hu. destruct (In_nth _ _ 0 Hu) as [i [Hi <-]]. apply Hy. congruence. }
    eexists. split; [exact Hana |]. cbn [profile M y extremes].
    split; [exact Hsag |].
    intros w Hlc.
    assert (Hmpos : forall i, (i < npts cfg)%nat -> 0 <= nth i m 0).
    { intros i Hi.
      unfold solve_reactions in Hr. rewrite Hlc in Hr. injection Hr as Hr1 Hr2.
      rewrite (cumtrapz_affine (positions cfg) v m r1 w Hne); try congruence.
      - rewrite Hlc in Hloads. simpl in Hloads.
        destruct (positions_within cfg i Hn HL Hi) as [Hx0 HxL].
        rewrite <- Hr1. to_Q. const_div.
        set (xi := this (nth i (positions cfg) 0)) in *.
        set (len := this (L cfg)) in *. set (q := this w) in *.
        assert (H1 : (0 <= xi * (len - xi))%Q) by nra.
        assert (H2 : (0 <= q * (xi * (len - xi)))%Q) by nra.
        nra.
      - intros j Hj. apply (udl_shear_nth cfg w r1 (positions cfg) v j Hlc Hv Hj).
      - apply positions_first. lia. }
    split; [exact Hmpos |]. apply Hsag. exact Hmpos. }
  { split; [reflexivity |]. eexists.
    split; [vm_compute; reflexivity |].
    repeat split; vm_compute; reflexivity. }
Qed.

Lemma X14_sign_of_the_deflection_witness :
  exists r,
    analyze scenario_B = Ok r /\
    ((forall i, (i < npts scenario_B)%nat -> 0 <= nth i (M (profile r)) 0) ->
     (forall i, (i < npts scenario_B)%nat -> nth i (y r) 0 <= 0) /\
     max_deflection (extremes r) = - max_deflection_abs (extremes r)) /\
    (forall w, load_case scenario_B = UDL w ->
       (forall i, (i < npts scenario_B)%nat -> 0 <= nth i (M (profile r)) 0) /\
       (forall i, (i < npts scenario_B)%nat -> nth i (y r) 0 <= 0) /\
       max_deflection (extremes r) = - max_deflection_abs (extremes r)).
Proof.
  apply (proj1 X14_sign_of_the_deflection scenario_B valid_scenario_B).
Defined.

(** X16: in exact arithmetic the response to a distributed load is
    symmetric about midspan: V[N-1-i] = -V[i], M[N-1-i] = M[i] and
    y[N-1-i] = y[i] at every sample, so that, np.argmax returning the first
    index of the maximum, the reported position of the maximum deflection
    is never to the right of midspan.  In the script two mirrored samples
    can differ in the last place, and the larger may be the right one: on
    the default beam under the default load at 122 samples,
    |y[61]| > |y[60]|, np.argmax returns 61 and the reported position is
    3.0248 m, to the right of midspan. *)
Theorem X16_symmetry_about_midspan :
  (forall (cfg : LoadConfiguration) (w : Qc),
     valid cfg -> load_case cfg = UDL w ->
     exists r,
       analyze cfg = Ok r /\
       (forall i, (i < npts cfg)%nat ->
          nth (npts cfg - 1 - i) (V (profile r)) 0 = - nth i (V (profile r)) 0 /\
          nth (npts cfg - 1 - i) (M (profile r)) 0 = nth i (M (profile r)) 0 /\
          nth (npts cfg - 1 - i) (y r) 0 = nth i (y r) 0) /\
       (imax (extremes r) + imax (extremes r) <= npts cfg - 1)%nat /\
       x_imax (extremes r) + x_imax (extremes r) <= L cfg) /\
  (Binary64.delivered Binary64.udl_122 = true /\
   exists r,
     Binary64.run Binary64.udl_122 = Ok r /\
     nth 60 (Binary64.y r) 0%float = (-0.008435886451562508)%float /\
     nth 61 (Binary64.y r) 0%float = (-0.0084358864515625097)%float /\
     Binary64.imax (Binary64.extremes r) = 61%nat /\
     Binary64.x_imax (Binary64.extremes r) = 3.0247933884297522%float /\
     (6 <? Binary64.x_imax (Binary64.extremes r) + Binary64.x_imax (Binary64.extremes r))%float
     = true).
Proof.
  split.
  { intros cfg w.
    intros Hvalid Hlc. pose proof Hvalid as [HL [HE [HI [Hn Hloads]]]].
    pose proof (positions_length cfg) as Hlen.
    assert (Hne : positions cfg <> []) by (apply positions_nonempty; lia).
    destruct (run_parts cfg (valid_runnable cfg Hvalid))
      as [r1 [r2 [v [m [s [y0 [ys [ex [Hr [Hv [Hm [Hs [Hy0 [Hys [Hf [Hex
           [[Hlv [Hlm [Hls [Hly0 Hly]]]] Hana]]]]]]]]]]]]]]]]].
    unfold solve_reactions in Hr. rewrite Hlc in Hr. injection Hr as Hr1 Hr2.
    set (n := (npts cfg - 1)%nat).
    assert (HLn : L cfg = of_nat n * spacing cfg).
    { rewrite <- (positions_last cfg Hn). apply positions_nth; lia. }
    assert (Hxm : forall i, (i < npts cfg)%nat ->
              nth (n - i) (positions cfg) 0 = L cfg - nth i (positions cfg) 0).
    { intros i Hi. rewrite !positions_nth by (unfold n; lia). rewrite HLn.
      replace (of_nat n) with (of_nat (n - i) + of_nat i)
        by (rewrite <- of_nat_add; f_equal; unfold n; lia).
      ring. }
    assert (Hvi : forall i, (i < npts cfg)%nat ->
              nth i v 0 = r1 - w * nth i (positions cfg) 0).
    { intros i Hi. apply (udl_shear_nth cfg w r1 (positions cfg) v i Hlc Hv).
      rewrite Hlen. exact Hi. }
    assert (Hmi : forall i, (i < npts cfg)%nat ->
              nth i m 0 =
              w * nth i (positions cfg) 0 * (L cfg - nth i (positions cfg) 0) / two).
    { intros i Hi.
      rewrite (cumtrapz_affine (positions cfg) v m r1 w Hne); try congruence.
      - rewrite <- Hr1. unfold two. field. exact two_neq_0.
      - intros j Hj. apply Hvi. congruence.
      - apply positions_first. lia. }
    assert (HM : forall i, (i < npts cfg)%nat -> nth (n - i) m 0 = nth i m 0).
    { intros i Hi. rewrite !Hmi by (unfold n; lia). rewrite Hxm by exact Hi.
      unfold Qcdiv. ring. }
    set (kap := map (fun u => u / (E cfg * I cfg)) m) in *.
    assert (Hlk : length kap = npts cfg) by (unfold kap; rewrite length_map; exact Hlm).
    assert (Hksym : forall i, (i < npts cfg)%nat ->
              nth (npts cfg - 1 - i) kap 0 = nth i kap 0).
    { intros i Hi. unfold kap. rewrite !nth_map_in by lia.
      fold n. rewrite HM by exact Hi. reflexivity. }
    assert (HY : forall i, (i < npts cfg)%nat -> nth (n - i) ys 0 = nth i ys 0).
    { intros i Hi. rewrite !Hf by (unfold n; lia).
      apply (symmetric_curvature_symmetric_deflection cfg Hn HL kap s y0); assumption. }
    assert (Hyne : ys <> []) by (apply (nonempty_of_length _ (npts cfg)); [exact Hly | lia]).
    destruct (find_extremes_parts ys (positions cfg) Hyne)
      as [lo [hi [top [k [_ [_ [_ [Hk [Hktop [Hklt Hfind]]]]]]]]]]; [congruence |].
    assert (ex = {| max_deflection := if ltb lo 0 then lo else hi;
                    max_deflection_abs := top; imax := k;
                    x_imax := nth k (positions cfg) 0 |}) by congruence.
    subst ex. rewrite Hly in Hk.
    assert (Hhalf : (k + k <= n)%nat).
    { destruct (Nat.le_gt_cases (k + k) n) as [Hle | Hgt]; [exact Hle |].
      exfalso.
      assert (Hmir : Qcabs (nth (n - k) ys 0) < top)
        by (apply Hklt; unfold n in *; lia).
      rewrite HY in Hmir by exact Hk. rewrite Hktop in Hmir.
      exact (Qclt_not_eq _ _ Hmir eq_refl). }
    eexists. split; [exact Hana |].
    cbn [profile V M y extremes imax x_imax]. fold n.
    split; [| split; [exact Hhalf |]].
    - intros i Hi. split; [| split; [apply HM; exact Hi | apply HY; exact Hi]].
      rewrite !Hvi by (unfold n; lia). rewrite Hxm by exact Hi.
      rewrite <- Hr1. unfold two. field. exact two_neq_0.
    - rewrite positions_nth by lia. rewrite HLn.
      replace (of_nat k * spacing cfg + of_nat k * spacing cfg)
        with (of_nat (k + k) * spacing cfg) by (rewrite of_nat_add; ring).
      apply Qcmult_le_compat_r; [| apply Qclt_le_weak, spacing_pos; assumption].
      destruct (Nat.eq_dec (k + k) n) as [-> | Hneq]; [apply Qcle_refl |].
      apply Qclt_le_weak, of_nat_lt. lia. }
  { split; [reflexivity |]. eexists.
    split; [vm_compute; reflexivity |].
    repeat split; vm_compute; reflexivity. }
Qed.

Lemma X16_symmetry_about_midspan_witness :
  exists r,
    analyze scenario_B = Ok r /\
    (forall i, (i < npts scenario_B)%nat ->
       nth (npts scenario_B - 1 - i) (V (profile r)) 0 = - nth i (V (profile r)) 0 /\
       nth (npts scenario_B - 1 - i) (M (profile r)) 0 = nth i (M (profile r)) 0 /\
       nth (npts scenario_B - 1 - i) (y r) 0 = nth i (y r) 0) /\
    (imax (extremes r) + imax (extremes r) <= npts scenario_B - 1)%nat /\
    x_imax (extremes r) + x_imax (extremes r) <= L scenario_B.
Proof.
  apply (proj1 X16_symmetry_about_midspan scenario_B (of_Z 5 * thousand)
           valid_scenario_B eq_refl).
Defined.

End SideBySide.
